(** * Dijkstra.py: shortest paths with a lazy-deletion priority queue

    A shallow embedding of [dijkstra], [reconstruir_camino] and the check of
    [__main__] from [Dijkstra.py], and the properties of its specification.

    - Nodes are Python strings; a graph [{ 'A': {'B': 4, 'C': 2}, ... }] is a
      finite map from a node to the list of [(vecino, peso)] pairs that
      [grafo[nodo].items()] iterates over, in that order.
    - Weights are integers; [float('inf')] is the constructor [Infinita].
    - [heapq] is not code of this repository: its operations are the class
      [Heapq] and its contract (a pop removes a least tuple, a push adds one)
      the class [HeapqLeyes]. Two list-based instances run the model.
    - [print] appends to the field [salida] of the state; a missing key of a
      dictionary is the exception [KeyError], with the state at the [raise].
    - The two [while] loops take fuel. The fuel that [dijkstra] passes to its
      loop is enough for every input ([ejecutar_termina]) and more fuel
      changes nothing ([bucle_mas_combustible]); the results on
      [reconstruir_camino] hold for every fuel above a bound. *)

From stdpp Require Import gmap strings list fin_maps.
From Stdlib Require Import ZArith Lia.

Local Open Scope Z_scope.

Set Warnings "-clear-no-such-hyp".


Abbreviation nodo := string.

(** ** Values *)

(** A value of [distancias]: an integer or [float('inf')]. *)
Inductive distancia : Type :=
  | Finita (d : Z)
  | Infinita.

#[global] Instance distancia_eq_dec : EqDecision distancia.
Proof. solve_decision. Defined.

(** [nueva_dist < distancias[vecino]], with [nueva_dist] an integer. *)
Definition menor (nueva_dist : Z) (actual : distancia) : bool :=
  match actual with
  | Finita d => nueva_dist <? d
  | Infinita => true
  end.

(** The only exception these functions raise: a missing dictionary key. *)
Inductive excepcion : Type :=
  | KeyError (clave : nodo).

#[global] Instance excepcion_eq_dec : EqDecision excepcion.
Proof. solve_decision. Defined.

(** What [print] writes when [mostrar_pasos] is set: the block of a step
    (step number, selected node, confirmed distance, the distances at that
    moment) and the line of an update. *)
Inductive evento : Type :=
  | ImprimePaso (paso : nat) (nodo_actual : nodo) (distancia_actual : Z)
                (distancias : gmap nodo distancia)
  | ImprimeActualizacion (vecino : nodo) (nueva_dist : Z) (nodo_actual : nodo).

(** ** The order of heap entries

    Entries are tuples [(distancia_acumulada, nodo)]; Python compares them
    lexicographically, strings by code points. *)

Definition entrada_leb (a b : Z * nodo) : bool :=
  (a.1 <? b.1) || ((a.1 =? b.1) && String.leb a.2 b.2).

Definition entrada_le (a b : Z * nodo) : Prop := entrada_leb a b = true.

(** ** The [heapq] interface *)

Class Heapq (Q : Type) : Type := {
  (** the entries of the list, in any order *)
  heap_items : Q → list (Z * nodo);
  (** the list literal [[e]], which is a heap *)
  heap_lista : Z * nodo → Q;
  (** [heapq.heappop]; [None] on the empty list, which [while cola:] excludes *)
  heappop : Q → option ((Z * nodo) * Q);
  (** [heapq.heappush] *)
  heappush : Q → Z * nodo → Q
}.

(** The contract of [heapq]: a pop removes a least entry, a push adds one. *)
Class HeapqLeyes (Q : Type) `{!Heapq Q} : Prop := {
  heap_lista_items e : heap_items (heap_lista e) ≡ₚ [e];
  heappop_None q : heappop q = None → heap_items q = [];
  heappop_Some q e q' :
    heappop q = Some (e, q') →
    heap_items q ≡ₚ e :: heap_items q' ∧ Forall (entrada_le e) (heap_items q');
  heappush_items q e : heap_items (heappush q e) ≡ₚ e :: heap_items q
}.

(** A list-based heap: push conses, pop selects the least entry. *)
Fixpoint extraer_min (x : Z * nodo) (l : list (Z * nodo))
  : (Z * nodo) * list (Z * nodo) :=
  match l with
  | [] => (x, [])
  | y :: l' =>
      if entrada_leb x y
      then let '(m, r) := extraer_min x l' in (m, y :: r)
      else let '(m, r) := extraer_min y l' in (m, x :: r)
  end.

Definition lista_pop (q : list (Z * nodo)) : option ((Z * nodo) * list (Z * nodo)) :=
  match q with
  | [] => None
  | x :: l => Some (extraer_min x l)
  end.

#[global] Instance lista_heapq : Heapq (list (Z * nodo)) := {
  heap_items q := q;
  heap_lista e := [e];
  heappop := lista_pop;
  heappush q e := e :: q
}.

(** Another arrangement of the same entries: push appends, pop selects the
    least entry from the end. *)
Record cola_inversa : Type := ColaInversa { entradas : list (Z * nodo) }.

Definition inversa_pop (q : cola_inversa)
  : option ((Z * nodo) * cola_inversa) :=
  match lista_pop (reverse (entradas q)) with
  | None => None
  | Some (e, r) => Some (e, ColaInversa r)
  end.

#[global] Instance inversa_heapq : Heapq cola_inversa := {
  heap_items := entradas;
  heap_lista e := ColaInversa [e];
  heappop := inversa_pop;
  heappush q e := ColaInversa (entradas q ++ [e])
}.

(** ** The state of a run *)

Record estado (Q : Type) : Type := Estado {
  distancias : gmap nodo distancia;
  anterior : gmap nodo (option nodo);
  cola : Q;
  visitados : gset nodo;
  paso : nat;
  (** what has been printed, oldest first *)
  salida : list evento;
  (** ghost: the calls [visitados.add(nodo_actual)] so far, oldest first,
      each with the [distancia_actual] it was popped with *)
  historial : list (nodo * Z)
}.

Arguments Estado {Q}.
Arguments distancias {Q}.
Arguments anterior {Q}.
Arguments cola {Q}.
Arguments visitados {Q}.
Arguments paso {Q}.
Arguments salida {Q}.
Arguments historial {Q}.

(** The result of a block that may raise: the state is the one at the end
    of the block or at the [raise]. *)
Inductive efecto (A : Type) : Type :=
  | Hecho (a : A)
  | Lanza (e : excepcion) (a : A).

Arguments Hecho {A}.
Arguments Lanza {A}.

(** How one iteration of [while cola:] ends. *)
Inductive flujo : Type :=
  | Continua
  | Corta
  | Falla (e : excepcion).

(** What a call of [dijkstra] does. *)
Inductive retorno : Type :=
  | Devuelve (distancias : gmap nodo distancia) (anterior : gmap nodo (option nodo))
  | Excepcion (e : excepcion)
  | NoTermina.

Section Dijkstra.
Context {Q : Type} `{!Heapq Q}.

Definition con_cola (c : Q) (st : estado Q) : estado Q :=
  Estado (distancias st) (anterior st) c (visitados st) (paso st)
         (salida st) (historial st).

(** [visitados.add(nodo_actual)] *)
Definition visitar (nodo_actual : nodo) (distancia_actual : Z)
    (st : estado Q) : estado Q :=
  Estado (distancias st) (anterior st) (cola st)
         ({[nodo_actual]} ∪ visitados st) (paso st) (salida st)
         (historial st ++ [(nodo_actual, distancia_actual)]).

(** the block under [if mostrar_pasos:] of a step *)
Definition imprimir_paso (nodo_actual : nodo) (distancia_actual : Z)
    (st : estado Q) : estado Q :=
  Estado (distancias st) (anterior st) (cola st) (visitados st)
         (S (paso st))
         (salida st ++ [ImprimePaso (paso st) nodo_actual distancia_actual
                                    (distancias st)])
         (historial st).

(** the three assignments and the [print] of an improvement *)
Definition actualizar (mostrar_pasos : bool) (nodo_actual vecino : nodo)
    (nueva_dist : Z) (st : estado Q) : estado Q :=
  Estado (<[vecino := Finita nueva_dist]> (distancias st))
         (<[vecino := Some nodo_actual]> (anterior st))
         (heappush (cola st) (nueva_dist, vecino))
         (visitados st) (paso st)
         (if mostrar_pasos
          then salida st ++ [ImprimeActualizacion vecino nueva_dist nodo_actual]
          else salida st)
         (historial st).

(** The body of [for vecino, peso in grafo[nodo_actual].items()]. *)
Definition relajar (mostrar_pasos : bool) (nodo_actual : nodo)
    (distancia_actual : Z) (st : estado Q) (arista : nodo * Z)
  : efecto (estado Q) :=
  let '(vecino, peso) := arista in
  if decide (vecino ∈ visitados st) then Hecho st
  else
    let nueva_dist := distancia_actual + peso in
    match distancias st !! vecino with
    | None => Lanza (KeyError vecino) st
    | Some actual =>
        if menor nueva_dist actual
        then Hecho (actualizar mostrar_pasos nodo_actual vecino nueva_dist st)
        else Hecho st
    end.

Fixpoint relajar_vecinos (mostrar_pasos : bool) (nodo_actual : nodo)
    (distancia_actual : Z) (vecinos : list (nodo * Z)) (st : estado Q)
  : efecto (estado Q) :=
  match vecinos with
  | [] => Hecho st
  | arista :: resto =>
      match relajar mostrar_pasos nodo_actual distancia_actual st arista with
      | Hecho st' =>
          relajar_vecinos mostrar_pasos nodo_actual distancia_actual resto st'
      | Lanza e st' => Lanza e st'
      end
  end.

(** One iteration of [while cola:]; [None] when [cola] is empty. *)
Definition iteracion (grafo : gmap nodo (list (nodo * Z))) (fin : option nodo)
    (mostrar_pasos : bool) (st : estado Q) : option (flujo * estado Q) :=
  match heappop (cola st) with
  | None => None
  | Some ((distancia_actual, nodo_actual), cola') =>
      let st0 := con_cola cola' st in
      if decide (nodo_actual ∈ visitados st0) then Some (Continua, st0)
      else
        let st1 := visitar nodo_actual distancia_actual st0 in
        let st2 := if mostrar_pasos
                   then imprimir_paso nodo_actual distancia_actual st1
                   else st1 in
        if decide (fin = Some nodo_actual) then Some (Corta, st2)
        else
          match grafo !! nodo_actual with
          | None => Some (Falla (KeyError nodo_actual), st2)
          | Some vecinos =>
              match relajar_vecinos mostrar_pasos nodo_actual
                      distancia_actual vecinos st2 with
              | Hecho st3 => Some (Continua, st3)
              | Lanza e st3 => Some (Falla e, st3)
              end
          end
  end.

(** The [while] loop: [None] when the fuel runs out, else the exception
    raised, if any, and the last state. *)
Fixpoint bucle (combustible : nat) (grafo : gmap nodo (list (nodo * Z)))
    (fin : option nodo) (mostrar_pasos : bool) (st : estado Q)
  : option (option excepcion * estado Q) :=
  match combustible with
  | O => None
  | S k =>
      match iteracion grafo fin mostrar_pasos st with
      | None => Some (None, st)
      | Some (Continua, st') => bucle k grafo fin mostrar_pasos st'
      | Some (Corta, st') => Some (None, st')
      | Some (Falla e, st') => Some (Some e, st')
      end
  end.

(** The state after [k] iterations of the loop (or the last state, when
    the loop ends before). *)
Fixpoint iterar (k : nat) (grafo : gmap nodo (list (nodo * Z)))
    (fin : option nodo) (mostrar_pasos : bool) (st : estado Q) : estado Q :=
  match k with
  | O => st
  | S k' =>
      match iteracion grafo fin mostrar_pasos st with
      | None => st
      | Some (Continua, st') => iterar k' grafo fin mostrar_pasos st'
      | Some (_, st') => st'
      end
  end.

(** Steps 1 to 4 of [dijkstra]. *)
Definition estado_inicial (grafo : gmap nodo (list (nodo * Z)))
    (inicio : nodo) : estado Q :=
  Estado (<[inicio := Finita 0]> ((λ _, Infinita) <$> grafo))
         ((λ _, None) <$> grafo)
         (heap_lista (0, inicio))
         ∅ O [] [].

(** The number of edges of the graph. *)
Definition aristas (grafo : gmap nodo (list (nodo * Z))) : nat :=
  map_fold (λ _ vecinos n, (length vecinos + n)%nat) O grafo.

Definition combustible_dijkstra (grafo : gmap nodo (list (nodo * Z))) : nat :=
  S (S (aristas grafo)).

Definition ejecutar (grafo : gmap nodo (list (nodo * Z))) (inicio : nodo)
    (fin : option nodo) (mostrar_pasos : bool)
  : option (option excepcion * estado Q) :=
  bucle (combustible_dijkstra grafo) grafo fin mostrar_pasos
        (estado_inicial grafo inicio).

Definition dijkstra (grafo : gmap nodo (list (nodo * Z))) (inicio : nodo)
    (fin : option nodo) (mostrar_pasos : bool) : retorno :=
  match ejecutar grafo inicio fin mostrar_pasos with
  | Some (None, st) => Devuelve (distancias st) (anterior st)
  | Some (Some e, _) => Excepcion e
  | None => NoTermina
  end.

(** What the call has printed when it returns or raises. *)
Definition impreso (grafo : gmap nodo (list (nodo * Z))) (inicio : nodo)
    (fin : option nodo) (mostrar_pasos : bool) : list evento :=
  match ejecutar grafo inicio fin mostrar_pasos with
  | Some (_, st) => salida st
  | None => []
  end.

End Dijkstra.

(** ** [reconstruir_camino] *)

(** The loop [while nodo is not None]. *)
Fixpoint seguir (combustible : nat) (anterior : gmap nodo (option nodo))
    (nodo_ : option nodo) (camino : list nodo)
  : option (list nodo + excepcion) :=
  match nodo_ with
  | None => Some (inl camino)
  | Some n =>
      match combustible with
      | O => None
      | S k =>
          match anterior !! n with
          | None => Some (inr (KeyError n))
          | Some sig => seguir k anterior sig (camino ++ [n])
          end
      end
  end.

Definition reconstruir_camino (combustible : nat)
    (anterior : gmap nodo (option nodo)) (inicio fin : nodo)
  : option (list nodo + excepcion) :=
  match seguir combustible anterior (Some fin) [] with
  | None => None
  | Some (inr e) => Some (inr e)
  | Some (inl camino) =>
      let camino := reverse camino in
      match camino with
      | [] => Some (inl [])
      | primero :: _ =>
          if decide (primero = inicio) then Some (inl camino) else Some (inl [])
      end
  end.

(** ** [__main__]

    The two [input()] calls are the parameters [inicio] and [fin]; the
    drawing of the graph is left out. *)
Inductive salida_principal : Type :=
  | ErrorNodos
  | Resultados (r : retorno).

Definition principal `{!Heapq Q} (grafo : gmap nodo (list (nodo * Z)))
    (inicio fin : nodo) : salida_principal :=
  if decide (inicio ∉ dom grafo ∨ fin ∉ dom grafo)
  then ErrorNodos
  else Resultados (dijkstra (Q := Q) grafo inicio (Some fin) true).

(** ** The graph of [__main__] *)

Definition grafo_ejemplo : gmap nodo (list (nodo * Z)) :=
  <["A" := [("B", 4); ("C", 2)]]>
  (<["B" := [("C", 5); ("D", 10)]]>
  (<["C" := [("D", 3)]]>
  (<["D" := []]> ∅))).

Definition distancias_ejemplo : gmap nodo distancia :=
  <["A" := Finita 0]> (<["B" := Finita 4]> (<["C" := Finita 2]>
  (<["D" := Finita 5]> ∅))).

Definition anterior_ejemplo : gmap nodo (option nodo) :=
  <["A" := None]> (<["B" := Some "A"]> (<["C" := Some "A"]>
  (<["D" := Some "C"]> ∅))).

(** The graph [{A: {}, B: {}}]. *)
Definition grafo_desconectado : gmap nodo (list (nodo * Z)) :=
  <["A" := []]> (<["B" := []]> ∅).

(** A graph with a neighbour that is not a key: [{A: {B: 1}}]. *)
Definition grafo_colgante : gmap nodo (list (nodo * Z)) :=
  <["A" := [("B", 1)]]> ∅.

(** ** Paths of a graph *)

(** [grafo[u]] has the item [(v, c)]. *)
Definition arista (grafo : gmap nodo (list (nodo * Z))) (u v : nodo) (c : Z)
  : Prop :=
  ∃ vecinos, grafo !! u = Some vecinos ∧ (v, c) ∈ vecinos.

(** A path from [u] to [v], as the list of its steps [(node reached, weight)]. *)
Fixpoint es_camino (grafo : gmap nodo (list (nodo * Z))) (u : nodo)
    (p : list (nodo * Z)) (v : nodo) : Prop :=
  match p with
  | [] => u = v
  | (x, c) :: p' => arista grafo u x c ∧ es_camino grafo x p' v
  end.

Definition peso_camino (p : list (nodo * Z)) : Z :=
  foldr (λ e acc, e.2 + acc) 0 p.

(** The same, grown at its end: there is a path to [n] of weight [w]. *)
Inductive camino_de (grafo : gmap nodo (list (nodo * Z))) (inicio : nodo)
  : nodo → Z → Prop :=
  | camino_vacio : camino_de grafo inicio inicio 0
  | camino_paso u v c w :
      camino_de grafo inicio u w → arista grafo u v c →
      camino_de grafo inicio v (w + c).

Definition alcanzable (grafo : gmap nodo (list (nodo * Z))) (inicio n : nodo)
  : Prop :=
  ∃ p, es_camino grafo inicio p n.

Definition pesos_no_negativos (grafo : gmap nodo (list (nodo * Z))) : Prop :=
  ∀ u v c, arista grafo u v c → 0 ≤ c.

(** Every node referenced as a neighbour is a key. *)
Definition cerrado (grafo : gmap nodo (list (nodo * Z))) : Prop :=
  ∀ u v c, arista grafo u v c → v ∈ dom grafo.

(** Following [anterior] from [n] reaches [None]. *)
Inductive termina (anterior : gmap nodo (option nodo)) : nodo → Prop :=
  | termina_raiz n : anterior !! n = Some None → termina anterior n
  | termina_sig n u :
      anterior !! n = Some (Some u) → termina anterior u → termina anterior n.

(** The step blocks among the printed events. *)
Definition paso_de (ev : evento)
  : option (nat * nodo * Z * gmap nodo distancia) :=
  match ev with
  | ImprimePaso i n d m => Some (i, n, d, m)
  | ImprimeActualizacion _ _ _ => None
  end.

Definition pasos_de (l : list evento)
  : list (nat * nodo * Z * gmap nodo distancia) :=
  omap paso_de l.

(** The edges that leave the nodes outside [vis]. *)
Definition pendiente (grafo : gmap nodo (list (nodo * Z))) (vis : gset nodo)
  : nat :=
  map_fold (λ n vecinos acc,
              ((if decide (n ∈ vis) then O else length vecinos) + acc)%nat)
           O grafo.

Definition estado_de {A : Type} (r : efecto A) : A :=
  match r with
  | Hecho a => a
  | Lanza _ a => a
  end.

(** ** Checking a concrete graph *)

Definition comprobar_pesos (grafo : gmap nodo (list (nodo * Z))) : bool :=
  bool_decide (map_Forall (λ _ vecinos,
                 Forall (λ a : nodo * Z, 0 ≤ a.2) vecinos) grafo).

Definition comprobar_cerrado (grafo : gmap nodo (list (nodo * Z))) : bool :=
  bool_decide (map_Forall (λ _ vecinos,
                 Forall (λ a : nodo * Z, a.1 ∈ dom grafo) vecinos) grafo).

(** ** The invariants of the loop *)

Section Invariantes.
Context {Q : Type} `{!Heapq Q}.
Context (grafo : gmap nodo (list (nodo * Z))) (inicio : nodo).

(** The entries of the queue of a state. *)
Definition pendientes (st : estado Q) : list (Z * nodo) := heap_items (cola st).

(** What bounds the number of iterations left. *)
Definition medida (st : estado Q) : nat :=
  (length (pendientes st) + pendiente grafo (visitados st))%nat.

(** What holds of every state of a run, whatever the weights. *)
Record inv_base (st : estado Q) : Prop := {
  ib_dom_dist : dom (distancias st) = {[inicio]} ∪ dom grafo;
  ib_dom_ant : dom (anterior st) = dom grafo;
  ib_inicio : distancias st !! inicio = Some (Finita 0);
  ib_vis : ∀ n, n ∈ visitados st ↔ n ∈ (historial st).*1;
  ib_nodup : NoDup (historial st).*1;
  ib_hist : ∀ n d, (n, d) ∈ historial st →
                   distancias st !! n = Some (Finita d);
  ib_cola : ∀ d n, (d, n) ∈ pendientes st →
                   ∃ d', distancias st !! n = Some (Finita d') ∧ d' ≤ d;
  ib_pend : ∀ n d, distancias st !! n = Some (Finita d) →
                   n ∉ visitados st → (d, n) ∈ pendientes st;
  ib_primero : inicio ∈ visitados st ∨
               ∀ d n, (d, n) ∈ pendientes st → n = inicio;
  ib_camino : ∀ n d, distancias st !! n = Some (Finita d) →
                     camino_de grafo inicio n d;
  ib_ant : ∀ v u, anterior st !! v = Some (Some u) →
                  u ∈ visitados st ∧ u ∈ dom grafo ∧ v ≠ inicio ∧
                  ∃ d, distancias st !! v = Some (Finita d);
  ib_cadena : ∀ u, u ∈ visitados st → u ∈ dom grafo →
                   termina (anterior st) u
}.

(** The confirmed distances grow, and no entry of the queue is below one. *)
Record inv_orden (st : estado Q) : Prop := {
  io_orden : ∀ i j ni di nj dj, (i ≤ j)%nat →
      historial st !! i = Some (ni, di) → historial st !! j = Some (nj, dj) →
      di ≤ dj;
  io_cola : ∀ n d e, (n, d) ∈ historial st → e ∈ pendientes st → d ≤ e.1
}.

(** The edges that leave a visited node have been relaxed. *)
Definition inv_rel (st : estado Q) : Prop :=
  ∀ u du v c, (u, du) ∈ historial st → arista grafo u v c →
              ∃ dv, distancias st !! v = Some (Finita dv) ∧ dv ≤ du + c.

(** A step block [(i, n, d, m)]: the [i]-th visited node is [n], popped with
    [d]; [m] has the keys of [distancias] and holds the confirmed distance
    of every node visited until then. *)
Definition paso_correcto (st : estado Q)
    (x : nat * nodo * Z * gmap nodo distancia) : Prop :=
  historial st !! x.1.1.1 = Some (x.1.1.2, x.1.2) ∧
  dom x.2 = {[inicio]} ∪ dom grafo ∧
  ∀ j nj dj, (j ≤ x.1.1.1)%nat → historial st !! j = Some (nj, dj) →
             x.2 !! nj = Some (Finita dj).

Definition inv_salida (mostrar_pasos : bool) (st : estado Q) : Prop :=
  if mostrar_pasos
  then paso st = length (historial st) ∧
       (λ x, x.1.1.1) <$> pasos_de (salida st)
         = seq 0 (length (historial st)) ∧
       (λ x, (x.1.1.2, x.1.2)) <$> pasos_de (salida st) = historial st ∧
       Forall (paso_correcto st) (pasos_de (salida st))
  else salida st = [] ∧ paso st = O.

End Invariantes.

(** Two states, maybe of two heaps, with the same maps, the same visits and
    the same entries in the queue. *)
Section Parecidos.
Context {Q1 Q2 : Type} `{!Heapq Q1} `{!Heapq Q2}.

Definition parecidos (a : estado Q1) (b : estado Q2) : Prop :=
  distancias a = distancias b ∧ anterior a = anterior b ∧
  visitados a = visitados b ∧ historial a = historial b ∧
  pendientes a ≡ₚ pendientes b.

Definition efectos_parecidos (r1 : efecto (estado Q1))
    (r2 : efecto (estado Q2)) : Prop :=
  match r1, r2 with
  | Hecho a, Hecho b => parecidos a b
  | Lanza e1 a, Lanza e2 b => e1 = e2 ∧ parecidos a b
  | _, _ => False
  end.

End Parecidos.

(** ** The state when a step is printed *)

(** [en_curso grafo fin mostrar_pasos st s]: the [while] that started in
    state [st] is back at its condition in state [s], after some iterations
    none of which left the loop. *)
Inductive en_curso {Q : Type} `{!Heapq Q}
    (grafo : gmap nodo (list (nodo * Z))) (fin : option nodo)
    (mostrar_pasos : bool) (st : estado Q) : estado Q → Prop :=
  | en_curso_inicio : en_curso grafo fin mostrar_pasos st st
  | en_curso_sigue s s' :
      en_curso grafo fin mostrar_pasos st s →
      iteracion grafo fin mostrar_pasos s = Some (Continua, s') →
      en_curso grafo fin mostrar_pasos st s'.

(** The block [(i, n, d, m)] is what a run with [mostrar_pasos] prints in
    one of its iterations: the run reaches the top of the loop after [k]
    iterations in a state [s] with [i] nodes visited, pops [(d, n)] there
    with [n] not visited, and [m] is [distancias] in [s]. Between the pop
    and the [print] nothing assigns to [distancias], so [m] is the map that
    [print(f"Distancias: {distancias}")] shows. *)
Definition paso_exacto {Q : Type} `{!Heapq Q}
    (grafo : gmap nodo (list (nodo * Z))) (inicio : nodo) (fin : option nodo)
    (x : nat * nodo * Z * gmap nodo distancia) : Prop :=
  ∃ (k : nat) (c' : Q),
    let s := iterar k grafo fin true (estado_inicial (Q := Q) grafo inicio) in
    en_curso grafo fin true (estado_inicial grafo inicio) s ∧
    heappop (cola s) = Some ((x.1.2, x.1.1.2), c') ∧
    (x.1.1.2 ∉ visitados s) ∧
    length (historial s) = x.1.1.1 ∧
    x.2 = distancias s.

(** ** The rest of the code

    What follows is used by the properties beyond the specification. *)

(** The predecessors agree with the distances: [anterior[v] = u] comes with
    an edge from [u] to [v] that accounts for [distancias[v]], and every
    node with a finite distance other than the source has a predecessor. *)
Section Predecesores.
Context {Q : Type}.
Context (grafo : gmap nodo (list (nodo * Z))) (inicio : nodo).

Record inv_ant (st : estado Q) : Prop := {
  ia_arista : ∀ v u, anterior st !! v = Some (Some u) →
      ∃ du c, distancias st !! u = Some (Finita du) ∧ arista grafo u v c ∧
              distancias st !! v = Some (Finita (du + c));
  ia_raiz : ∀ v d, distancias st !! v = Some (Finita d) → v ≠ inicio →
      ∃ u, anterior st !! v = Some (Some u)
}.

End Predecesores.

(** The nodes that the loop of [reconstruir_camino] appends to [camino]
    from [n] on, and how the loop ends: at a node without predecessor, or
    with the [KeyError] of a node that the map does not have. *)
Inductive cadena (ant : gmap nodo (option nodo))
  : nodo → list nodo → option excepcion → Prop :=
  | cadena_fin n : ant !! n = Some None → cadena ant n [n] None
  | cadena_error n : ant !! n = None → cadena ant n [n] (Some (KeyError n))
  | cadena_sig n u l e :
      ant !! n = Some (Some u) → cadena ant u l e → cadena ant n (n :: l) e.

(** What the loop of [reconstruir_camino] leaves when the chain is [l]. *)
Definition resultado_cadena (acc l : list nodo) (e : option excepcion)
  : list nodo + excepcion :=
  match e with
  | None => inl (acc ++ l)
  | Some x => inr x
  end.

(** Each node of the list is the predecessor of the next one. *)
Fixpoint enlazado (ant : gmap nodo (option nodo)) (camino : list nodo) : Prop :=
  match camino with
  | a :: resto =>
      match resto with
      | b :: _ => ant !! b = Some (Some a) ∧ enlazado ant resto
      | [] => True
      end
  | [] => True
  end.

(** [reconstruir_camino] with the fuel that is enough whenever its loop
    ends. *)
Definition reconstruir (anterior : gmap nodo (option nodo))
    (inicio fin : nodo) : option (list nodo + excepcion) :=
  reconstruir_camino (S (size anterior)) anterior inicio fin.

(** A map whose links come back: [{A: B, B: A}]. *)
Definition anterior_ciclico : gmap nodo (option nodo) :=
  <["A" := Some "B"]> (<["B" := Some "A"]> ∅).

(** *** [dibujar_grafo]

    The calls into [networkx] and [matplotlib] are not modelled; what is
    modelled is what the function computes and hands to them: the edges it
    adds to [G], and the edge list and node list of the highlighted route. *)

(** The edges added by [G.add_edge(origen, destino, weight=peso)]; [G] is a
    [DiGraph], so the order of the two loops does not matter. *)
Definition aristas_de_G (grafo : gmap nodo (list (nodo * Z)))
  : list (nodo * nodo * Z) :=
  map_to_list grafo ≫= λ ov, (λ dp : nodo * Z, (ov.1, dp.1, dp.2)) <$> ov.2.

(** The nodes of [G]: the ends of its edges. *)
Definition nodos_de_G (grafo : gmap nodo (list (nodo * Z))) : gset nodo :=
  list_to_set (aristas_de_G grafo ≫= λ e, [e.1.1; e.1.2]).

(** [list(zip(camino[:-1], camino[1:]))] *)
Definition aristas_camino (camino : list nodo) : list (nodo * nodo) :=
  zip (removelast camino) (tail camino).

Record dibujo : Type := Dibujo {
  aristas_G : list (nodo * nodo * Z);
  (** [edgelist] and [nodelist] of the second round of drawing, if any *)
  resaltado : option (list (nodo * nodo) * list nodo)
}.

Definition dibujar_grafo (grafo : gmap nodo (list (nodo * Z)))
    (camino : option (list nodo)) : dibujo :=
  Dibujo (aristas_de_G grafo)
         match camino with
         | Some (a :: resto) =>
             if decide (1 < length (a :: resto))%nat
             then Some (aristas_camino (a :: resto), a :: resto)
             else None
         | _ => None
         end.

(** *** The whole of [__main__]

    What the block prints and draws after the two [input()]: the error
    line, or the distances with either the route and its total distance or
    the line that there is no route, and the drawing. *)
Inductive informe : Type :=
  | NodoInexistente
  | CaminoMasCorto (distancias : gmap nodo distancia) (camino : list nodo)
                   (total : distancia) (d : dibujo)
  | NoExisteCamino (distancias : gmap nodo distancia) (d : dibujo)
  | Interrumpido (e : excepcion)
  | SinFin.

Definition principal_completo `{!Heapq Q}
    (grafo : gmap nodo (list (nodo * Z))) (inicio fin : nodo) : informe :=
  if decide (inicio ∉ dom grafo ∨ fin ∉ dom grafo)
  then NodoInexistente
  else
    match dijkstra (Q := Q) grafo inicio (Some fin) true with
    | Devuelve distancias anterior =>
        match reconstruir anterior inicio fin with
        | Some (inl camino) =>
            match camino with
            | [] => NoExisteCamino distancias
                      (dibujar_grafo grafo (Some camino))
            | _ :: _ =>
                match distancias !! fin with
                | Some total =>
                    CaminoMasCorto distancias camino total
                      (dibujar_grafo grafo (Some camino))
                | None => Interrumpido (KeyError fin)
                end
            end
        | Some (inr e) => Interrumpido e
        | None => SinFin
        end
    | Excepcion e => Interrumpido e
    | NoTermina => SinFin
    end.

(** * Properties *)

(** ** The list-based heap satisfies the interface *)

Lemma string_compare_refl (s : string) : String.compare s s = Eq.
Proof.
  induction s as [|a s IH]; [done|]. simpl.
  unfold Ascii.compare. by rewrite N.compare_refl.
Qed.

Lemma string_compare_lt_trans (s1 s2 s3 : string) :
  String.compare s1 s2 = Lt → String.compare s2 s3 = Lt →
  String.compare s1 s3 = Lt.
Proof.
  revert s2 s3. induction s1 as [|a s1 IH]; intros [|b s2] [|c s3]; simpl;
    try done.
  unfold Ascii.compare.
  destruct (N.compare_spec (Ascii.N_of_ascii a) (Ascii.N_of_ascii b)) as [Hab|Hab|Hab];
    try done;
  destruct (N.compare_spec (Ascii.N_of_ascii b) (Ascii.N_of_ascii c)) as [Hbc|Hbc|Hbc];
    try done; intros H1 H2.
  - rewrite Hab, Hbc, N.compare_refl. eauto.
  - rewrite Hab. by apply N.compare_lt_iff in Hbc as ->.
  - rewrite <- Hbc. by apply N.compare_lt_iff in Hab as ->.
  - assert (Ascii.N_of_ascii a < Ascii.N_of_ascii c)%N as Hac by lia.
    by apply N.compare_lt_iff in Hac as ->.
Qed.

Lemma string_leb_trans (s1 s2 s3 : string) :
  String.leb s1 s2 = true → String.leb s2 s3 = true → String.leb s1 s3 = true.
Proof.
  unfold String.leb.
  destruct (String.compare s1 s2) eqn:H12; try done;
  destruct (String.compare s2 s3) eqn:H23; try done; intros _ _.
  - apply String.compare_eq_iff in H12, H23. subst.
    by rewrite string_compare_refl.
  - apply String.compare_eq_iff in H12. subst. by rewrite H23.
  - apply String.compare_eq_iff in H23. subst. by rewrite H12.
  - by rewrite (string_compare_lt_trans _ _ _ H12 H23).
Qed.

Lemma string_leb_refl (s : string) : String.leb s s = true.
Proof. unfold String.leb. by rewrite string_compare_refl. Qed.

Lemma entrada_le_spec (a b : Z * nodo) :
  entrada_le a b ↔ a.1 < b.1 ∨ (a.1 = b.1 ∧ String.leb a.2 b.2 = true).
Proof.
  unfold entrada_le, entrada_leb.
  rewrite orb_true_iff, andb_true_iff, Z.ltb_lt, Z.eqb_eq. tauto.
Qed.

Lemma entrada_le_refl (a : Z * nodo) : entrada_le a a.
Proof. apply entrada_le_spec. right. split; [done|apply string_leb_refl]. Qed.

Lemma entrada_le_trans (a b c : Z * nodo) :
  entrada_le a b → entrada_le b c → entrada_le a c.
Proof.
  rewrite !entrada_le_spec. intros [?|[? ?]] [?|[? ?]]; try (left; lia).
  right. split; [lia|]. eauto using string_leb_trans.
Qed.

Lemma entrada_le_total (a b : Z * nodo) : entrada_le a b ∨ entrada_le b a.
Proof.
  rewrite !entrada_le_spec.
  destruct (Z.lt_trichotomy a.1 b.1) as [?|[?|?]]; try tauto.
  destruct (String.leb_total a.2 b.2); [left|right]; right; split; auto.
Qed.

Lemma entrada_le_antisym (a b : Z * nodo) :
  entrada_le a b → entrada_le b a → a = b.
Proof.
  rewrite !entrada_le_spec. destruct a as [x n], b as [y m]; simpl.
  intros [?|[? ?]] [?|[? ?]]; try lia.
  f_equal; [done|]. by apply String.leb_antisym.
Qed.

(** The distance of an entry is what the order looks at first. *)
Lemma entrada_le_dist (a b : Z * nodo) : entrada_le a b → a.1 ≤ b.1.
Proof. rewrite entrada_le_spec. lia. Qed.

Lemma extraer_min_spec (x : Z * nodo) (l : list (Z * nodo)) m r :
  extraer_min x l = (m, r) →
  x :: l ≡ₚ m :: r ∧ Forall (entrada_le m) r ∧ entrada_le m x.
Proof.
  revert x m r. induction l as [|y l IH]; intros x m r; simpl.
  - intros [= <- <-]. split_and!; [done|constructor|apply entrada_le_refl].
  - destruct (entrada_leb x y) eqn:Hxy.
    + destruct (extraer_min x l) as [m' r'] eqn:E. intros [= <- <-].
      destruct (IH _ _ _ E) as (Hp & Hf & Hm). split_and!; [|constructor|]; auto.
      * transitivity (y :: x :: l); [apply Permutation_swap|].
        rewrite Hp. apply Permutation_swap.
      * eauto using entrada_le_trans.
    + destruct (extraer_min y l) as [m' r'] eqn:E. intros [= <- <-].
      destruct (IH _ _ _ E) as (Hp & Hf & Hm).
      assert (entrada_le y x) as Hyx.
      { destruct (entrada_le_total x y) as [H|H]; [|done].
        unfold entrada_le in H. congruence. }
      split_and!; [|constructor|]; eauto using entrada_le_trans.
      rewrite Hp. apply Permutation_swap.
Qed.

#[global] Instance lista_heapq_leyes : HeapqLeyes (list (Z * nodo)).
Proof.
  constructor.
  - done.
  - by intros [|x l].
  - intros [|x l] e q'; [done|]. simpl. intros [= Hm].
    apply extraer_min_spec in Hm as (? & ? & ?). done.
  - done.
Qed.

#[global] Instance inversa_heapq_leyes : HeapqLeyes cola_inversa.
Proof.
  constructor.
  - done.
  - intros [q]. unfold heappop. simpl. unfold inversa_pop. simpl.
    destruct (reverse q) as [|x l] eqn:Hr.
    + intros _. apply (f_equal reverse) in Hr.
      by rewrite reverse_involutive in Hr.
    + simpl. by destruct (extraer_min x l).
  - intros [q] e [q']. unfold heappop. simpl. unfold inversa_pop. simpl.
    destruct (reverse q) as [|x l] eqn:Hr; [done|]. simpl.
    destruct (extraer_min x l) as [m r] eqn:Hm. intros [= <- <-].
    apply extraer_min_spec in Hm as (Hp & Hf & _). split; [|done].
    by rewrite <- Hp, <- Hr, reverse_Permutation.
  - intros [q] e. simpl. by rewrite Permutation_app_comm.
Qed.

(** ** Paths *)

Lemma camino_de_es_camino grafo inicio n w :
  camino_de grafo inicio n w ↔
  ∃ p, es_camino grafo inicio p n ∧ peso_camino p = w.
Proof.
  split.
  - induction 1 as [|u v c w _ (p & Hp & Hw) Ha].
    + by exists [].
    + exists (p ++ [(v, c)]). subst w. clear -Hp Ha.
      revert inicio Hp. induction p as [|[x k] p IH]; simpl; intros s Hp.
      * subst. split; [done|]. unfold peso_camino. simpl. lia.
      * destruct Hp as [Hx Hp]. destruct (IH _ Hp) as [H1 H2].
        split; [done|]. unfold peso_camino in *. simpl in *. lia.
  - intros (p & Hp & <-). revert n Hp.
    induction p as [|[x k] p IH] using rev_ind; intros n Hp.
    + simpl in Hp. subst. constructor.
    + assert (∃ u, es_camino grafo inicio p u ∧ arista grafo u n k ∧ x = n)
        as (u & Hu & Ha & ->).
      { clear IH. revert inicio Hp.
        induction p as [|[y j] p IH]; simpl; intros s Hp.
        - destruct Hp as [Ha <-]. by exists s.
        - destruct Hp as [Hy Hp]. destruct (IH _ Hp) as (u & ? & ? & ?).
          by exists u. }
      replace (peso_camino (p ++ [(n, k)])) with (peso_camino p + k).
      { econstructor; eauto. }
      unfold peso_camino. rewrite foldr_app. simpl.
      generalize k. clear. induction p as [|[y j] p IH]; simpl; intros k.
      * lia.
      * rewrite <- IH. lia.
Qed.

Lemma alcanzable_camino_de grafo inicio n :
  alcanzable grafo inicio n ↔ ∃ w, camino_de grafo inicio n w.
Proof.
  split.
  - intros [p Hp]. exists (peso_camino p). apply camino_de_es_camino. eauto.
  - intros [w (p & Hp & _)%camino_de_es_camino]. by exists p.
Qed.

(** ** The number of iterations of the loop *)

Lemma pendiente_ajeno (grafo : gmap nodo (list (nodo * Z))) (vis : gset nodo) n :
  grafo !! n = None → pendiente grafo ({[n]} ∪ vis) = pendiente grafo vis.
Proof.
  unfold pendiente.
  induction grafo as [|j y m Hj IH] using map_ind; intros Hn; [done|].
  apply lookup_insert_None in Hn as [Hn Hne].
  rewrite !map_fold_insert_L; [|intros; simpl; lia|done|intros; simpl; lia|done].
  rewrite IH by done.
  destruct (decide (j ∈ vis)); [by rewrite decide_True by set_solver|].
  by rewrite decide_False by set_solver.
Qed.

Lemma pendiente_visitar grafo vis n vecinos :
  grafo !! n = Some vecinos → n ∉ vis →
  (pendiente grafo ({[n]} ∪ vis) + length vecinos)%nat = pendiente grafo vis.
Proof.
  revert n vecinos.
  induction grafo as [|i x m Hi IH] using map_ind; intros n vecinos Hn Hvis.
  - by rewrite lookup_empty in Hn.
  - pose proof (pendiente_ajeno m vis) as Haj. unfold pendiente in *.
    rewrite !map_fold_insert_L; [|intros; simpl; lia|done|intros; simpl; lia|done].
    destruct (decide (i = n)) as [->|Hne].
    + rewrite lookup_insert_eq in Hn. injection Hn as ->.
      rewrite decide_True by set_solver. rewrite decide_False by done.
      rewrite Haj by done. lia.
    + rewrite lookup_insert_ne in Hn by done.
      specialize (IH _ _ Hn Hvis).
      destruct (decide (i ∈ vis)).
      * rewrite decide_True by set_solver. lia.
      * rewrite decide_False by set_solver. lia.
Qed.

Section Propiedades.
Context {Q : Type} `{!Heapq Q, !HeapqLeyes Q}.

Lemma heappop_pendientes (q : Q) e q' :
  heappop q = Some (e, q') →
  heap_items q ≡ₚ e :: heap_items q' ∧
  (∀ x, x ∈ heap_items q → entrada_le e x) ∧
  (∀ x, x ∈ heap_items q' → x ∈ heap_items q).
Proof.
  intros (Hp & Hf)%heappop_Some. split_and!; [done| |].
  - intros x Hx. rewrite Hp in Hx. apply elem_of_cons in Hx as [->|Hx].
    + apply entrada_le_refl.
    + by eapply Forall_forall in Hf.
  - intros x Hx. rewrite Hp. by right.
Qed.

(** The cases of one relaxation. *)
Lemma relajar_casos mostrar_pasos u d (st : estado Q) v c :
  (relajar mostrar_pasos u d st (v, c) = Hecho st ∧
     (v ∈ visitados st ∨
      ∃ dv, distancias st !! v = Some (Finita dv) ∧ dv ≤ d + c))
  ∨ (relajar mostrar_pasos u d st (v, c) = Lanza (KeyError v) st ∧
     (v ∉ visitados st) ∧ distancias st !! v = None)
  ∨ (relajar mostrar_pasos u d st (v, c)
       = Hecho (actualizar mostrar_pasos u v (d + c) st) ∧
     (v ∉ visitados st) ∧
     ∃ x, distancias st !! v = Some x ∧ menor (d + c) x = true).
Proof.
  unfold relajar. destruct (decide (v ∈ visitados st)) as [Hv|Hv]; [by auto|].
  destruct (distancias st !! v) as [x|] eqn:Hx; [|by auto].
  destruct (menor (d + c) x) eqn:Hm; [by eauto 10|].
  left. split; [done|]. right. destruct x as [dv|]; [|done].
  exists dv. split; [done|]. simpl in Hm. lia.
Qed.

(** A property kept by every relaxation is kept by the whole [for] loop. *)
Lemma relajar_vecinos_inv (P : estado Q → Prop) mostrar_pasos u d vecinos st :
  (∀ st' a, a ∈ vecinos → P st' →
     P (estado_de (relajar mostrar_pasos u d st' a))) →
  P st → P (estado_de (relajar_vecinos mostrar_pasos u d vecinos st)).
Proof.
  revert st. induction vecinos as [|a l IH]; intros st Hstep Hst; [done|].
  simpl. pose proof (Hstep st a (list_elem_of_here _ _) Hst) as Ha.
  destruct (relajar mostrar_pasos u d st a) as [st'|e st'] eqn:E; [|done].
  apply IH; [|done]. intros st'' b Hb. apply Hstep. by right.
Qed.

Lemma relajar_vecinos_medida mostrar_pasos u d vecinos (st : estado Q) :
  let st' := estado_de (relajar_vecinos mostrar_pasos u d vecinos st) in
  visitados st' = visitados st ∧
  (length (pendientes st') ≤ length (pendientes st) + length vecinos)%nat.
Proof.
  revert st. induction vecinos as [|[v c] l IH]; intros st.
  { simpl. split; [done|lia]. }
  cbn [relajar_vecinos length].
  destruct (relajar_casos mostrar_pasos u d st v c)
    as [[-> _]|[[-> _]|[-> _]]]; cbn [estado_de].
  - destruct (IH st) as [? ?]. split; [done|lia].
  - split; [done|lia].
  - destruct (IH (actualizar mostrar_pasos u v (d + c) st)) as [Hv Hl].
    split; [done|]. etrans; [exact Hl|].
    unfold pendientes at 1. simpl. rewrite heappush_items. simpl.
    unfold pendientes. lia.
Qed.

Lemma iteracion_medida grafo fin mostrar_pasos (st st' : estado Q) :
  iteracion grafo fin mostrar_pasos st = Some (Continua, st') →
  (medida grafo st' < medida grafo st)%nat.
Proof.
  unfold iteracion, medida.
  destruct (heappop (cola st)) as [[[d n] c']|] eqn:Hpop; [|done].
  apply heappop_Some in Hpop as [Hp _].
  assert (length (pendientes st) = S (length (heap_items c'))) as Hlen.
  { unfold pendientes. by rewrite Hp. }
  simpl. destruct (decide (n ∈ visitados st)) as [Hn|Hn].
  { intros [= <-]. unfold pendientes in *. simpl. lia. }
  destruct (decide (fin = Some n)); [done|].
  destruct (grafo !! n) as [vecinos|] eqn:Hg; [|done].
  match goal with |- context [relajar_vecinos _ _ _ _ ?s] => set (st2 := s) end.
  pose proof (relajar_vecinos_medida mostrar_pasos n d vecinos st2) as [Hv Hl].
  destruct (relajar_vecinos mostrar_pasos n d vecinos st2) as [st3|e st3];
    [|done].
  intros [= <-]. simpl in Hv, Hl. rewrite Hv.
  assert (visitados st2 = {[n]} ∪ visitados st) as ->.
  { unfold st2. by destruct mostrar_pasos. }
  assert (pendientes st2 = heap_items c') as Hst2.
  { unfold st2. by destruct mostrar_pasos. }
  rewrite Hst2 in Hl.
  pose proof (pendiente_visitar grafo (visitados st) n vecinos Hg Hn). lia.
Qed.

Lemma bucle_termina grafo fin mostrar_pasos k (st : estado Q) :
  (medida grafo st < k)%nat →
  is_Some (bucle k grafo fin mostrar_pasos st).
Proof.
  revert st. induction k as [|k IH]; intros st Hk; [lia|]. simpl.
  destruct (iteracion grafo fin mostrar_pasos st) as [[[| |e] st']|] eqn:Hit;
    try done.
  apply IH. apply iteracion_medida in Hit. lia.
Qed.

Lemma pendiente_vacio grafo : pendiente grafo ∅ = aristas grafo.
Proof. unfold pendiente, aristas. done. Qed.

(** More fuel does not change the result. *)
Lemma bucle_mas_combustible grafo fin mostrar_pasos k j (st : estado Q) r :
  bucle k grafo fin mostrar_pasos st = Some r →
  bucle (k + j) grafo fin mostrar_pasos st = Some r.
Proof.
  revert st. induction k as [|k IH]; intros st; [done|]. simpl.
  destruct (iteracion grafo fin mostrar_pasos st) as [[[| |e] s]|]; auto.
Qed.

Lemma ejecutar_termina grafo inicio fin mostrar_pasos :
  is_Some (ejecutar (Q := Q) grafo inicio fin mostrar_pasos).
Proof.
  apply bucle_termina. unfold medida, combustible_dijkstra, pendientes. simpl.
  rewrite heap_lista_items, pendiente_vacio. simpl. lia.
Qed.

(** ** The invariant of the loop *)

Section Invariante.
Context (grafo : gmap nodo (list (nodo * Z))) (inicio : nodo).

Lemma inv_base_inicial : inv_base grafo inicio (estado_inicial grafo inicio).
Proof.
  assert (∀ d n, (d, n) ∈ pendientes (estado_inicial grafo inicio) →
                 d = 0 ∧ n = inicio) as Hq.
  { intros d n. unfold pendientes. simpl. rewrite heap_lista_items.
    intros [=]%list_elem_of_singleton. done. }
  constructor; simpl.
  - by rewrite dom_insert_L, dom_fmap_L.
  - by rewrite dom_fmap_L.
  - by rewrite lookup_insert_eq.
  - set_solver.
  - constructor.
  - intros n d Hn. by apply elem_of_nil in Hn.
  - intros d n [-> ->]%Hq. exists 0. by rewrite lookup_insert_eq.
  - intros n d Hn _. unfold pendientes. simpl. rewrite heap_lista_items.
    destruct (decide (inicio = n)) as [->|Hne].
    + rewrite lookup_insert_eq in Hn. injection Hn as <-.
      apply list_elem_of_here.
    + rewrite lookup_insert_ne, lookup_fmap in Hn by done.
      by destruct (grafo !! n).
  - right. intros d n [_ ->]%Hq. done.
  - intros n d Hn. destruct (decide (inicio = n)) as [->|Hne].
    + rewrite lookup_insert_eq in Hn. injection Hn as <-. constructor.
    + rewrite lookup_insert_ne, lookup_fmap in Hn by done.
      by destruct (grafo !! n).
  - intros v u. rewrite lookup_fmap. by destruct (grafo !! v).
  - set_solver.
Qed.

(** A popped entry of a node that is not visited carries its distance. *)
Lemma pop_distancia (st : estado Q) d n c' :
  inv_base grafo inicio st → heappop (cola st) = Some ((d, n), c') →
  n ∉ visitados st → distancias st !! n = Some (Finita d).
Proof.
  intros Hinv (Hp & Hmin & _)%heappop_pendientes Hn.
  assert ((d, n) ∈ pendientes st) as Hin.
  { unfold pendientes. rewrite Hp. apply list_elem_of_here. }
  destruct (ib_cola _ _ _ Hinv _ _ Hin) as (d' & Hd' & Hle).
  pose proof (ib_pend _ _ _ Hinv _ _ Hd' Hn) as Hin'.
  apply Hmin, entrada_le_dist in Hin'. simpl in Hin'.
  rewrite Hd'. do 2 f_equal. lia.
Qed.

Lemma inv_base_descartar (st : estado Q) d n c' :
  inv_base grafo inicio st → heappop (cola st) = Some ((d, n), c') →
  n ∈ visitados st → inv_base grafo inicio (con_cola c' st).
Proof.
  intros Hinv (Hp & _ & Hsub)%heappop_pendientes Hn.
  destruct Hinv. constructor; simpl; try done.
  - intros d0 n0 Hin. apply ib_cola0. by apply Hsub.
  - intros n0 d0 Hd0 Hn0. pose proof (ib_pend0 _ _ Hd0 Hn0) as Hin.
    unfold pendientes in *. simpl. rewrite Hp in Hin.
    apply elem_of_cons in Hin as [[= -> ->]|Hin]; done.
  - destruct ib_primero0 as [?|Hq]; [by left|right].
    intros d0 n0 Hin. eapply Hq. by apply Hsub.
Qed.

Lemma inv_base_visitar (st : estado Q) d n c' :
  inv_base grafo inicio st → heappop (cola st) = Some ((d, n), c') →
  n ∉ visitados st →
  inv_base grafo inicio (visitar n d (con_cola c' st)) ∧
  inicio ∈ visitados (visitar n d (con_cola c' st)).
Proof.
  intros Hinv Hpop Hn.
  pose proof (pop_distancia _ _ _ _ Hinv Hpop Hn) as Hdn.
  apply heappop_pendientes in Hpop as (Hp & _ & Hsub).
  assert ((d, n) ∈ pendientes st) as Hin.
  { unfold pendientes. rewrite Hp. apply list_elem_of_here. }
  destruct Hinv.
  assert (inicio ∈ {[n]} ∪ visitados st) as Hini.
  { destruct ib_primero0 as [?|Hq]; [set_solver|].
    rewrite (Hq _ _ Hin). set_solver. }
  split; [|done]. constructor; simpl; try done.
  - intros n0. rewrite fmap_app, elem_of_app, elem_of_union, ib_vis0.
    simpl. rewrite list_elem_of_singleton, elem_of_singleton. tauto.
  - rewrite fmap_app. apply NoDup_app. split_and!; [done| |].
    + intros x Hx%ib_vis0 Hx'. simpl in Hx'.
      apply list_elem_of_singleton in Hx'. by subst.
    + simpl. apply NoDup_singleton.
  - intros n0 d0 [Hh|[= -> ->]%list_elem_of_singleton]%elem_of_app; auto.
  - intros d0 n0 Hin0. apply ib_cola0. by apply Hsub.
  - intros n0 d0 Hd0 Hn0. apply not_elem_of_union in Hn0 as [Hne Hn0].
    pose proof (ib_pend0 _ _ Hd0 Hn0) as Hin0.
    unfold pendientes in *. simpl. rewrite Hp in Hin0.
    apply elem_of_cons in Hin0 as [[= -> ->]|Hin0]; [set_solver|done].
  - by left.
  - intros v u Hvu. destruct (ib_ant0 _ _ Hvu) as (? & ? & ? & ?).
    split_and!; [set_solver|done..].
  - intros u [->%elem_of_singleton|Hu]%elem_of_union Hdom; [|by auto].
    assert (is_Some (anterior st !! n)) as [[u'|] Hu'].
    { apply elem_of_dom. by rewrite ib_dom_ant0. }
    + destruct (ib_ant0 _ _ Hu') as (? & ? & _).
      eapply termina_sig; eauto.
    + by apply termina_raiz.
Qed.

Lemma inv_base_imprimir (st : estado Q) n d :
  inv_base grafo inicio st → inv_base grafo inicio (imprimir_paso n d st).
Proof. intros []. by constructor. Qed.

Lemma termina_actualizar (ant : gmap nodo (option nodo)) (vis : gset nodo)
    v w x :
  (∀ a b, ant !! a = Some (Some b) → b ∈ vis) → v ∉ vis →
  termina ant x → x ∈ vis → termina (<[v := w]> ant) x.
Proof.
  intros Hvis Hv. induction 1 as [n Hn|n u Hn _ IH]; intros Hx.
  - apply termina_raiz. rewrite lookup_insert_ne; [done|]. by intros ->.
  - eapply termina_sig; [|apply IH; eauto].
    rewrite lookup_insert_ne; [done|]. by intros ->.
Qed.

Lemma inv_base_relajar mostrar_pasos (st : estado Q) u d v c :
  inv_base grafo inicio st → inicio ∈ visitados st → u ∈ visitados st →
  distancias st !! u = Some (Finita d) → arista grafo u v c →
  inv_base grafo inicio (estado_de (relajar mostrar_pasos u d st (v, c))).
Proof.
  intros Hinv Hini Hu Hdu Harista.
  destruct (relajar_casos mostrar_pasos u d st v c)
    as [[-> _]|[[-> _]|(-> & Hv & x & Hx & Hm)]]; [done..|].
  simpl. destruct Hinv.
  assert (v ≠ inicio) as Hvi by (by intros ->).
  assert (v ∈ dom grafo) as Hvg.
  { assert (v ∈ dom (distancias st)) as Hd by (apply elem_of_dom; eauto).
    rewrite ib_dom_dist0 in Hd. set_solver. }
  assert (pendientes (actualizar mostrar_pasos u v (d + c) st)
          ≡ₚ (d + c, v) :: pendientes st) as Hq.
  { unfold pendientes. simpl. apply heappush_items. }
  constructor; simpl; try done.
  - rewrite dom_insert_lookup_L; eauto.
  - rewrite dom_insert_lookup_L; [done|].
    apply elem_of_dom. by rewrite ib_dom_ant0.
  - by rewrite lookup_insert_ne.
  - intros n0 d0 Hh. rewrite lookup_insert_ne; [by auto|].
    intros ->. apply Hv, ib_vis0. apply list_elem_of_fmap.
    by exists (n0, d0).
  - intros d0 n0. rewrite Hq.
    intros [[= -> ->]|Hin]%elem_of_cons.
    + exists (d + c). by rewrite lookup_insert_eq.
    + destruct (ib_cola0 _ _ Hin) as (d' & Hd' & Hle).
      destruct (decide (v = n0)) as [->|Hne].
      * exists (d + c). rewrite lookup_insert_eq. split; [done|].
        rewrite Hd' in Hx. injection Hx as <-. simpl in Hm. lia.
      * exists d'. by rewrite lookup_insert_ne.
  - intros n0 d0 Hd0 Hn0. rewrite Hq.
    destruct (decide (v = n0)) as [->|Hne].
    + rewrite lookup_insert_eq in Hd0. injection Hd0 as <-.
      apply list_elem_of_here.
    + rewrite lookup_insert_ne in Hd0 by done. right. auto.
  - by left.
  - intros n0 d0 Hd0. destruct (decide (v = n0)) as [->|Hne].
    + rewrite lookup_insert_eq in Hd0. injection Hd0 as <-.
      econstructor; eauto.
    + rewrite lookup_insert_ne in Hd0 by done. auto.
  - intros v0 u0 Hvu. destruct (decide (v = v0)) as [->|Hne].
    + rewrite lookup_insert_eq in Hvu. injection Hvu as <-.
      split_and!; [done| |done|].
      * destruct Harista as (vs & Hvs & _). apply elem_of_dom. eauto.
      * exists (d + c). by rewrite lookup_insert_eq.
    + rewrite lookup_insert_ne in Hvu by done.
      destruct (ib_ant0 _ _ Hvu) as (? & ? & ? & ?).
      split_and!; [done..|]. by rewrite lookup_insert_ne.
  - intros u0 Hu0 Hdom. eapply termina_actualizar; eauto.
    intros a b Hab. by destruct (ib_ant0 _ _ Hab).
Qed.

(** What a relaxation leaves alone. *)
Lemma relajar_conserva mostrar_pasos (st : estado Q) u d a :
  let st' := estado_de (relajar mostrar_pasos u d st a) in
  visitados st' = visitados st ∧ historial st' = historial st ∧
  (∀ x, x ∈ visitados st → distancias st' !! x = distancias st !! x) ∧
  (∀ x dx, distancias st !! x = Some (Finita dx) →
           ∃ dx', distancias st' !! x = Some (Finita dx') ∧ dx' ≤ dx).
Proof.
  destruct a as [v c].
  destruct (relajar_casos mostrar_pasos u d st v c)
    as [[-> _]|[[-> _]|(-> & Hv & y & Hy & Hm)]]; simpl.
  - split_and!; try done. intros x dx Hx. exists dx. split; [done|lia].
  - split_and!; try done. intros x dx Hx. exists dx. split; [done|lia].
  - split_and!; try done.
    + intros x Hx. rewrite lookup_insert_ne; [done|]. by intros ->.
    + intros x dx Hx. destruct (decide (v = x)) as [->|Hne].
      * exists (d + c). rewrite lookup_insert_eq. split; [done|].
        rewrite Hx in Hy. injection Hy as <-. simpl in Hm. lia.
      * exists dx. rewrite lookup_insert_ne by done. split; [done|lia].
Qed.

Lemma relajar_vecinos_conserva mostrar_pasos (st : estado Q) u d vecinos :
  let st' := estado_de (relajar_vecinos mostrar_pasos u d vecinos st) in
  visitados st' = visitados st ∧ historial st' = historial st ∧
  (∀ x, x ∈ visitados st → distancias st' !! x = distancias st !! x) ∧
  (∀ x dx, distancias st !! x = Some (Finita dx) →
           ∃ dx', distancias st' !! x = Some (Finita dx') ∧ dx' ≤ dx).
Proof.
  apply (relajar_vecinos_inv (λ s,
    visitados s = visitados st ∧ historial s = historial st ∧
    (∀ x, x ∈ visitados st → distancias s !! x = distancias st !! x) ∧
    (∀ x dx, distancias st !! x = Some (Finita dx) →
             ∃ dx', distancias s !! x = Some (Finita dx') ∧ dx' ≤ dx))).
  - intros s a _ (Hv & Hh & Hd & Hm).
    destruct (relajar_conserva mostrar_pasos s u d a) as (Hv' & Hh' & Hd' & Hm').
    split_and!; try congruence.
    + intros x Hx. rewrite Hd' by (by rewrite Hv). auto.
    + intros x dx Hx. destruct (Hm _ _ Hx) as (d1 & Hd1 & Hle1).
      destruct (Hm' _ _ Hd1) as (d2 & Hd2 & Hle2).
      exists d2. split; [done|lia].
  - split_and!; try done. intros x dx Hx. exists dx. split; [done|lia].
Qed.

(** An iteration leaves the entries of the visited nodes alone and only
    adds to [visitados]. *)
Lemma iteracion_conserva fin mostrar_pasos (st st' : estado Q) f :
  iteracion grafo fin mostrar_pasos st = Some (f, st') →
  (∀ x, x ∈ visitados st → x ∈ visitados st') ∧
  (∀ x, x ∈ visitados st → distancias st' !! x = distancias st !! x) ∧
  historial st `prefix_of` historial st'.
Proof.
  unfold iteracion.
  destruct (heappop (cola st)) as [[[d n] c']|]; [|done]. simpl.
  destruct (decide (n ∈ visitados st)) as [Hn|Hn].
  { intros [= <- <-]. done. }
  match goal with |- context [decide (fin = Some n)] =>
    match goal with |- context [if mostrar_pasos then ?a else ?b] =>
      set (st2 := if mostrar_pasos then a else b) end end.
  assert (visitados st2 = {[n]} ∪ visitados st ∧
          distancias st2 = distancias st ∧
          historial st2 = historial st ++ [(n, d)]) as (Hv2 & Hd2 & Hh2).
  { unfold st2. by destruct mostrar_pasos. }
  assert ((∀ x, x ∈ visitados st → x ∈ visitados st2) ∧
          (∀ x, x ∈ visitados st → distancias st2 !! x = distancias st !! x) ∧
          historial st `prefix_of` historial st2) as Hst2.
  { rewrite Hv2, Hd2, Hh2. split_and!; [set_solver|done|].
    by apply prefix_app_r. }
  destruct (decide (fin = Some n)); [by intros [= <- <-]|].
  destruct (grafo !! n) as [vecinos|]; [|by intros [= <- <-]].
  pose proof (relajar_vecinos_conserva mostrar_pasos st2 n d vecinos)
    as (Hv3 & Hh3 & Hd3 & _).
  assert (st' = estado_de (relajar_vecinos mostrar_pasos n d vecinos st2) →
          (∀ x, x ∈ visitados st → x ∈ visitados st') ∧
          (∀ x, x ∈ visitados st → distancias st' !! x = distancias st !! x) ∧
          historial st `prefix_of` historial st') as Hfin.
  { intros ->. destruct Hst2 as (H1 & H2 & H3).
    rewrite Hv3, Hh3. split_and!; [done| |done].
    intros x Hx. rewrite Hd3 by auto. auto. }
  destruct (relajar_vecinos mostrar_pasos n d vecinos st2);
    intros [= <- <-]; by apply Hfin.
Qed.

(** Every iteration keeps [inv_base]. *)
Lemma iteracion_inv_base fin mostrar_pasos (st st' : estado Q) f :
  inv_base grafo inicio st → iteracion grafo fin mostrar_pasos st = Some (f, st') →
  inv_base grafo inicio st'.
Proof.
  intros Hinv. unfold iteracion.
  destruct (heappop (cola st)) as [[[d n] c']|] eqn:Hpop; [|done]. simpl.
  destruct (decide (n ∈ visitados st)) as [Hn|Hn].
  { intros [= <- <-]. eapply inv_base_descartar; eauto. }
  pose proof (pop_distancia _ _ _ _ Hinv Hpop Hn) as Hdn.
  destruct (inv_base_visitar _ _ _ _ Hinv Hpop Hn) as [Hinv1 Hini1].
  match goal with |- context [decide (fin = Some n)] =>
    match goal with |- context [if mostrar_pasos then ?a else ?b] =>
      set (st2 := if mostrar_pasos then a else b) end end.
  assert (inv_base grafo inicio st2 ∧ inicio ∈ visitados st2 ∧ n ∈ visitados st2 ∧
          distancias st2 !! n = Some (Finita d)) as Hst2.
  { unfold st2. destruct mostrar_pasos; simpl;
      (split_and!; [|done|set_solver|done]); [|done].
    by apply inv_base_imprimir. }
  destruct (decide (fin = Some n)); [intros [= <- <-]; apply Hst2|].
  destruct (grafo !! n) as [vecinos|] eqn:Hg; [|intros [= <- <-]; apply Hst2].
  assert (inv_base grafo inicio (estado_de
            (relajar_vecinos mostrar_pasos n d vecinos st2))) as Hfin.
  { eapply proj1.
    apply (relajar_vecinos_inv (λ s, inv_base grafo inicio s ∧ inicio ∈ visitados s ∧
             n ∈ visitados s ∧ distancias s !! n = Some (Finita d)));
      [|done].
    intros s [v c] Ha (Hs & Hi & Hns & Hds).
    destruct (relajar_conserva mostrar_pasos s n d (v, c))
      as (Hv' & _ & Hd' & _).
    split_and!.
    - eapply inv_base_relajar; eauto. by exists vecinos.
    - by rewrite Hv'.
    - by rewrite Hv'.
    - by rewrite Hd'. }
  destruct (relajar_vecinos mostrar_pasos n d vecinos st2);
    intros [= <- <-]; apply Hfin.
Qed.

(** *** With weights that are not negative *)

Lemma inv_orden_inicial : inv_orden (estado_inicial grafo inicio).
Proof.
  constructor; simpl.
  - intros i j ni di nj dj _ Hi. by rewrite lookup_nil in Hi.
  - intros n d e Hn. by apply elem_of_nil in Hn.
Qed.

Lemma inv_rel_inicial : inv_rel grafo (estado_inicial grafo inicio).
Proof. intros u du v c Hu. by apply elem_of_nil in Hu. Qed.

Lemma inv_orden_relajar mostrar_pasos (st : estado Q) u d v c :
  inv_orden st → (∀ n0 d0, (n0, d0) ∈ historial st → d0 ≤ d) → 0 ≤ c →
  inv_orden (estado_de (relajar mostrar_pasos u d st (v, c))).
Proof.
  intros Hinv Hd Hc.
  destruct (relajar_casos mostrar_pasos u d st v c)
    as [[-> _]|[[-> _]|(-> & Hv & x & Hx & Hm)]]; [done..|].
  destruct Hinv. constructor; simpl; [done|].
  intros n0 d0 e Hh. unfold pendientes. simpl. rewrite heappush_items.
  intros [->|He]%elem_of_cons.
  - simpl. specialize (Hd _ _ Hh). lia.
  - eauto.
Qed.

Lemma iteracion_inv_orden fin mostrar_pasos (st st' : estado Q) f :
  pesos_no_negativos grafo → inv_orden st →
  iteracion grafo fin mostrar_pasos st = Some (f, st') → inv_orden st'.
Proof.
  intros Hpos Hinv. unfold iteracion.
  destruct (heappop (cola st)) as [[[d n] c']|] eqn:Hpop; [|done]. simpl.
  apply heappop_pendientes in Hpop as (Hp & Hmin & Hsub).
  assert ((d, n) ∈ pendientes st) as Hin.
  { unfold pendientes. rewrite Hp. apply list_elem_of_here. }
  destruct (decide (n ∈ visitados st)) as [Hn|Hn].
  { intros [= <- <-]. destruct Hinv. constructor; simpl; [done|].
    intros n0 d0 e Hh He. apply (io_cola0 _ _ _ Hh). by apply Hsub. }
  match goal with |- context [decide (fin = Some n)] =>
    match goal with |- context [if mostrar_pasos then ?a else ?b] =>
      set (st2 := if mostrar_pasos then a else b) end end.
  assert (historial st2 = historial st ++ [(n, d)] ∧
          pendientes st2 = heap_items c') as [Hh2 Hq2].
  { unfold st2. by destruct mostrar_pasos. }
  assert (∀ n0 d0, (n0, d0) ∈ historial st2 → d0 ≤ d) as Hle.
  { intros n0 d0. rewrite Hh2.
    intros [Hh|[= -> ->]%list_elem_of_singleton]%elem_of_app; [|lia].
    apply (io_cola _ Hinv _ _ _ Hh Hin). }
  assert (inv_orden st2) as Hinv2.
  { constructor.
    - intros i j ni di nj dj Hij. rewrite Hh2. intros Hi Hj.
      apply lookup_app_Some in Hj as [Hj|[Hlen Hj]].
      + rewrite lookup_app_l in Hi
          by (apply lookup_lt_Some in Hj; lia).
        eapply (io_orden _ Hinv); eauto.
      + apply list_lookup_singleton_Some in Hj as [_ [= <- <-]].
        apply list_elem_of_lookup_2 in Hi. rewrite <- Hh2 in Hi. eauto.
    - intros n0 d0 e Hh. rewrite Hq2. intros He.
      etrans; [by eapply Hle|].
      apply (entrada_le_dist (d, n) e), Hmin. by apply Hsub. }
  destruct (decide (fin = Some n)); [by intros [= <- <-]|].
  destruct (grafo !! n) as [vecinos|] eqn:Hg; [|by intros [= <- <-]].
  assert (inv_orden (estado_de
            (relajar_vecinos mostrar_pasos n d vecinos st2))) as Hfin.
  { eapply proj1.
    apply (relajar_vecinos_inv (λ s, inv_orden s ∧
             historial s = historial st2)); [|done].
    intros s [v c] Ha (Hs & Hhs).
    destruct (relajar_conserva mostrar_pasos s n d (v, c)) as (_ & Hh' & _).
    split; [|congruence].
    apply inv_orden_relajar; [done|by rewrite Hhs|].
    apply (Hpos n v c). by exists vecinos. }
  destruct (relajar_vecinos mostrar_pasos n d vecinos st2);
    intros [= <- <-]; apply Hfin.
Qed.

(** After the [for] loop every neighbour is within one edge of [u]. *)
Lemma relajar_vecinos_relaja mostrar_pasos u d vecinos (st st' : estado Q) :
  (∀ x, x ∈ visitados st →
        ∃ dx, distancias st !! x = Some (Finita dx) ∧ dx ≤ d) →
  (∀ v c, (v, c) ∈ vecinos → 0 ≤ c) →
  relajar_vecinos mostrar_pasos u d vecinos st = Hecho st' →
  ∀ v c, (v, c) ∈ vecinos →
         ∃ dv, distancias st' !! v = Some (Finita dv) ∧ dv ≤ d + c.
Proof.
  revert st. induction vecinos as [|[v0 c0] l IH];
    intros st Hvis Hpos Hrun v c Hin.
  { by apply elem_of_nil in Hin. }
  cbn [relajar_vecinos] in Hrun.
  assert (0 ≤ c0) as Hc0 by (apply (Hpos v0); left).
  assert (∀ s, relajar_vecinos mostrar_pasos u d l s = Hecho st' →
               ∀ x dx, distancias s !! x = Some (Finita dx) →
                 ∃ dx', distancias st' !! x = Some (Finita dx') ∧ dx' ≤ dx)
    as Hmono.
  { intros s Hs.
    pose proof (relajar_vecinos_conserva mostrar_pasos s u d l) as H.
    rewrite Hs in H. apply H. }
  destruct (relajar_casos mostrar_pasos u d st v0 c0)
    as [[E Hc]|[[E _]|(E & Hv0 & x & Hx & Hm)]]; rewrite E in Hrun;
    [|done|].
  - apply elem_of_cons in Hin as [[= -> ->]|Hin].
    + assert (∃ dv, distancias st !! v0 = Some (Finita dv) ∧ dv ≤ d + c0)
        as (dv & Hdv & Hle).
      { destruct Hc as [Hv|?]; [|done].
        destruct (Hvis _ Hv) as (dx & ? & ?). exists dx. split; [done|lia]. }
      destruct (Hmono _ Hrun _ _ Hdv) as (dv' & ? & ?).
      exists dv'. split; [done|lia].
    + eapply IH; eauto. intros v' c' H'. apply (Hpos v'). by right.
  - set (st1 := actualizar mostrar_pasos u v0 (d + c0) st) in *.
    apply elem_of_cons in Hin as [[= -> ->]|Hin].
    + assert (distancias st1 !! v0 = Some (Finita (d + c0))) as Hdv
        by apply lookup_insert_eq.
      destruct (Hmono _ Hrun _ _ Hdv) as (dv' & ? & ?). eauto.
    + eapply (IH st1); eauto.
      * intros y Hy. simpl in Hy. simpl.
        rewrite lookup_insert_ne by (by intros ->). auto.
      * intros v' c' H'. apply (Hpos v'). by right.
Qed.

Lemma iteracion_inv_rel fin mostrar_pasos (st st' : estado Q) :
  pesos_no_negativos grafo → inv_base grafo inicio st → inv_orden st → inv_rel grafo st →
  iteracion grafo fin mostrar_pasos st = Some (Continua, st') → inv_rel grafo st'.
Proof.
  intros Hpos Hinv Hord Hrel. unfold iteracion.
  destruct (heappop (cola st)) as [[[d n] c']|] eqn:Hpop; [|done]. simpl.
  destruct (decide (n ∈ visitados st)) as [Hn|Hn].
  { intros [= <-]. done. }
  pose proof (pop_distancia _ _ _ _ Hinv Hpop Hn) as Hdn.
  apply heappop_pendientes in Hpop as (Hp & Hmin & Hsub).
  assert ((d, n) ∈ pendientes st) as Hin.
  { unfold pendientes. rewrite Hp. apply list_elem_of_here. }
  match goal with |- context [decide (fin = Some n)] =>
    match goal with |- context [if mostrar_pasos then ?a else ?b] =>
      set (st2 := if mostrar_pasos then a else b) end end.
  assert (visitados st2 = {[n]} ∪ visitados st ∧
          distancias st2 = distancias st ∧
          historial st2 = historial st ++ [(n, d)]) as (Hv2 & Hd2 & Hh2).
  { unfold st2. by destruct mostrar_pasos. }
  destruct (decide (fin = Some n)); [done|].
  destruct (grafo !! n) as [vecinos|] eqn:Hg; [|done].
  destruct (relajar_vecinos mostrar_pasos n d vecinos st2) as [st3|e st3]
    eqn:Hrun; [|done].
  intros [= <-].
  pose proof (relajar_vecinos_conserva mostrar_pasos st2 n d vecinos) as H.
  rewrite Hrun in H. simpl in H. destruct H as (_ & Hh3 & _ & Hmono).
  intros u du v c. rewrite Hh3, Hh2.
  intros [Hu|[= -> ->]%list_elem_of_singleton]%elem_of_app Harista.
  - destruct (Hrel _ _ _ _ Hu Harista) as (dv & Hdv & Hle).
    rewrite <- Hd2 in Hdv. destruct (Hmono _ _ Hdv) as (dv' & ? & ?).
    exists dv'. split; [done|lia].
  - destruct Harista as (vs & Hvs & Hvc). rewrite Hg in Hvs.
    injection Hvs as <-.
    eapply relajar_vecinos_relaja; eauto.
    + intros x. rewrite Hv2, Hd2.
      intros [->%elem_of_singleton|Hx]%elem_of_union.
      { exists d. split; [done|lia]. }
      apply (ib_vis _ _ _ Hinv), list_elem_of_fmap in Hx as ([x' dx] & -> & Hx).
      exists dx. split; [by apply (ib_hist _ _ _ Hinv)|].
      apply (io_cola _ Hord _ _ _ Hx Hin).
    + intros v1 c1 H1. apply (Hpos n v1). by exists vecinos.
Qed.

(** Below the weight of every path there is the entry of its end, or the
    entry of a node that is not visited yet. *)
Lemma cota_inferior (st : estado Q) n w :
  pesos_no_negativos grafo → inv_base grafo inicio st → inv_rel grafo st →
  camino_de grafo inicio n w →
  ∃ y dy, distancias st !! y = Some (Finita dy) ∧ dy ≤ w ∧
          (y ∈ visitados st → y = n).
Proof.
  intros Hpos Hinv Hrel. induction 1 as [|u v c w _ (y & dy & Hy & Hle & Hyu) Ha].
  - exists inicio, 0. split_and!; [by apply (ib_inicio _ _ _ Hinv)|lia|done].
  - pose proof (Hpos _ _ _ Ha) as Hc.
    destruct (decide (y ∈ visitados st)) as [Hvis|Hvis].
    + specialize (Hyu Hvis) as ->.
      assert ((u, dy) ∈ historial st) as Hh.
      { apply (ib_vis _ _ _ Hinv), list_elem_of_fmap in Hvis as ([u' du] & -> & Hu).
        pose proof (ib_hist _ _ _ Hinv _ _ Hu) as Hu'. simpl in Hy.
        rewrite Hy in Hu'. by injection Hu' as ->. }
      destruct (Hrel _ _ _ _ Hh Ha) as (dv & Hdv & Hlev).
      exists v, dv. split_and!; [done|lia|done].
    + exists y, dy. split_and!; [done|lia|done].
Qed.

(** *** The whole loop *)

Lemma bucle_inv_base k fin mostrar_pasos (st st' : estado Q) r :
  inv_base grafo inicio st → bucle k grafo fin mostrar_pasos st = Some (r, st') →
  inv_base grafo inicio st'.
Proof.
  revert st. induction k as [|k IH]; intros st Hinv; [done|]. simpl.
  destruct (iteracion grafo fin mostrar_pasos st) as [[[| |e] s]|] eqn:Hit.
  - apply IH. eapply iteracion_inv_base; eauto.
  - intros [= <- <-]. eapply iteracion_inv_base; eauto.
  - intros [= <- <-]. eapply iteracion_inv_base; eauto.
  - by intros [= <- <-].
Qed.

Lemma iteracion_sin_fin mostrar_pasos (st st' : estado Q) :
  iteracion grafo None mostrar_pasos st ≠ Some (Corta, st').
Proof.
  unfold iteracion. destruct (heappop (cola st)) as [[[d n] c']|]; [|done].
  simpl. destruct (decide (n ∈ visitados st)); [done|].
  destruct (grafo !! n) as [vecinos|]; [|done].
  by destruct (relajar_vecinos _ _ _ _ _).
Qed.

Lemma iteracion_vacia fin mostrar_pasos (st : estado Q) :
  iteracion grafo fin mostrar_pasos st = None → pendientes st = [].
Proof.
  unfold iteracion.
  destruct (heappop (cola st)) as [[[d n] c']|] eqn:Hpop.
  - simpl. destruct (decide (n ∈ visitados st)); [done|].
    destruct (decide (fin = Some n)); [done|].
    destruct (grafo !! n) as [vecinos|]; [|done].
    by destruct (relajar_vecinos _ _ _ _ _).
  - intros _. by apply heappop_None.
Qed.

(** Without [fin] the loop ends with the queue empty and every edge of a
    visited node relaxed. *)
Lemma bucle_sin_fin k mostrar_pasos (st st' : estado Q) :
  pesos_no_negativos grafo → inv_base grafo inicio st → inv_orden st → inv_rel grafo st →
  bucle k grafo None mostrar_pasos st = Some (None, st') →
  inv_base grafo inicio st' ∧ inv_rel grafo st' ∧ pendientes st' = [].
Proof.
  intros Hpos. revert st. induction k as [|k IH];
    intros st Hinv Hord Hrel; [done|]. simpl.
  destruct (iteracion grafo None mostrar_pasos st) as [[[| |e] s]|] eqn:Hit.
  - apply IH.
    + eapply iteracion_inv_base; eauto.
    + eapply iteracion_inv_orden; eauto.
    + eapply iteracion_inv_rel; eauto.
  - by apply iteracion_sin_fin in Hit.
  - done.
  - intros [= <-]. split_and!; [done..|]. by eapply iteracion_vacia.
Qed.

End Invariante.

(** ** The distances are the least path weights *)

Lemma dijkstra_minimo grafo inicio mostrar_pasos dist ant n :
  pesos_no_negativos grafo →
  dijkstra (Q := Q) grafo inicio None mostrar_pasos = Devuelve dist ant →
  alcanzable grafo inicio n →
  ∃ d, dist !! n = Some (Finita d) ∧ camino_de grafo inicio n d ∧
       ∀ w, camino_de grafo inicio n w → d ≤ w.
Proof.
  intros Hpos Hrun [w0 Hw0]%alcanzable_camino_de. unfold dijkstra in Hrun.
  destruct (ejecutar grafo inicio None mostrar_pasos) as [[[e|] st]|] eqn:Hej;
    try done.
  injection Hrun as <- <-.
  apply (bucle_sin_fin grafo inicio) in Hej as (Hinv & Hrel & Hq);
    [|done|apply inv_base_inicial|apply inv_orden_inicial
     |apply inv_rel_inicial].
  assert (∀ w, camino_de grafo inicio n w →
               ∃ d, distancias st !! n = Some (Finita d) ∧ d ≤ w) as Hcota.
  { intros w Hw.
    destruct (cota_inferior _ _ _ _ _ Hpos Hinv Hrel Hw)
      as (y & dy & Hy & Hle & Hyn).
    destruct (decide (y ∈ visitados st)) as [Hvis|Hvis].
    - rewrite <- (Hyn Hvis). eauto.
    - pose proof (ib_pend _ _ _ Hinv _ _ Hy Hvis) as Hin.
      rewrite Hq in Hin. by apply elem_of_nil in Hin. }
  destruct (Hcota _ Hw0) as (d & Hd & _). exists d. split_and!; [done| |].
  - by apply (ib_camino _ _ _ Hinv).
  - intros w Hw. destruct (Hcota _ Hw) as (d' & Hd' & Hle). congruence.
Qed.

End Propiedades.

(** ** The states of a run *)

Section Recorrido.
Context {Q : Type} `{!Heapq Q, !HeapqLeyes Q}.
Context (grafo : gmap nodo (list (nodo * Z))) (inicio : nodo).

Lemma iterar_inv_base k fin mostrar_pasos (st : estado Q) :
  inv_base grafo inicio st →
  inv_base grafo inicio (iterar k grafo fin mostrar_pasos st).
Proof.
  revert st. induction k as [|k IH]; intros st Hinv; [done|]. simpl.
  destruct (iteracion grafo fin mostrar_pasos st) as [[f s]|] eqn:Hit;
    [|done].
  pose proof (iteracion_inv_base _ _ _ _ _ _ _ Hinv Hit).
  destruct f; auto.
Qed.

Lemma iterar_inv_orden k fin mostrar_pasos (st : estado Q) :
  pesos_no_negativos grafo → inv_orden st →
  inv_orden (iterar k grafo fin mostrar_pasos st).
Proof.
  intros Hpos. revert st. induction k as [|k IH]; intros st Hinv; [done|].
  simpl.
  destruct (iteracion grafo fin mostrar_pasos st) as [[f s]|] eqn:Hit;
    [|done].
  pose proof (iteracion_inv_orden _ _ _ _ _ _ Hpos Hinv Hit).
  destruct f; auto.
Qed.

(** The history of a later state extends the history of an earlier one. *)
Lemma iterar_historial k k' fin mostrar_pasos (st : estado Q) :
  (k ≤ k')%nat →
  historial (iterar k grafo fin mostrar_pasos st)
    `prefix_of` historial (iterar k' grafo fin mostrar_pasos st).
Proof.
  revert k' st. induction k as [|k IH]; intros k' st Hk.
  - simpl. clear Hk. revert st. induction k' as [|k' IH']; intros st; [done|].
    simpl.
    destruct (iteracion grafo fin mostrar_pasos st) as [[f s]|] eqn:Hit;
      [|done].
    apply iteracion_conserva in Hit as (_ & _ & Hpre).
    destruct f; [|done..]. etrans; [exact Hpre|apply IH'].
  - destruct k' as [|k']; [lia|]. simpl.
    destruct (iteracion grafo fin mostrar_pasos st) as [[f s]|]; [|done].
    destruct f; [|done..]. apply IH. lia.
Qed.

(** The last state of the loop is the state after enough iterations. *)
Lemma bucle_iterar k fin mostrar_pasos (st st' : estado Q) r :
  bucle k grafo fin mostrar_pasos st = Some (r, st') →
  iterar k grafo fin mostrar_pasos st = st'.
Proof.
  revert st. induction k as [|k IH]; intros st; [done|]. simpl.
  destruct (iteracion grafo fin mostrar_pasos st) as [[[| |e] s]|];
    [by apply IH|by intros [= _ <-]..].
Qed.

Lemma ejecutar_inv_base fin mostrar_pasos r (st : estado Q) :
  ejecutar grafo inicio fin mostrar_pasos = Some (r, st) →
  inv_base grafo inicio st.
Proof. apply bucle_inv_base, inv_base_inicial. Qed.

End Recorrido.

(** ** Following the predecessors *)

Lemma seguir_None k (ant : gmap nodo (option nodo)) acc :
  seguir k ant None acc = Some (inl acc).
Proof. by destruct k. Qed.

Lemma seguir_termina (ant : gmap nodo (option nodo)) n :
  termina ant n →
  ∃ k0 resto, ∀ k acc, (k0 ≤ k)%nat →
    seguir k ant (Some n) acc = Some (inl (acc ++ n :: resto)).
Proof.
  induction 1 as [n Hn|n u Hn _ (k0 & resto & IH)].
  - exists 1%nat, []. intros [|k] acc Hk; [lia|]. simpl.
    by rewrite Hn, seguir_None.
  - exists (S k0), (u :: resto). intros [|k] acc Hk; [lia|]. simpl.
    rewrite Hn, IH by lia. by rewrite <- app_assoc.
Qed.

Lemma reconstruir_camino_raiz (ant : gmap nodo (option nodo)) inicio fin k :
  ant !! fin = Some None → (1 ≤ k)%nat →
  reconstruir_camino k ant inicio fin
  = Some (inl (if decide (fin = inicio) then [fin] else [])).
Proof.
  intros Hfin Hk. destruct k as [|k]; [lia|].
  unfold reconstruir_camino. simpl. rewrite Hfin, seguir_None. simpl.
  by destruct (decide (fin = inicio)).
Qed.

Lemma reconstruir_camino_termina (ant : gmap nodo (option nodo)) inicio fin :
  termina ant fin →
  ∃ k0 camino, ∀ k, (k0 ≤ k)%nat →
    reconstruir_camino k ant inicio fin = Some (inl camino).
Proof.
  intros (k0 & resto & Hseg)%seguir_termina.
  exists k0. unfold reconstruir_camino.
  destruct (reverse ([] ++ fin :: resto)) as [|primero cam] eqn:Hrev.
  - exists []. intros k Hk. by rewrite Hseg, Hrev.
  - destruct (decide (primero = inicio)) as [Heq|Hne].
    + exists (primero :: cam). intros k Hk.
      rewrite Hseg, Hrev by done. by rewrite decide_True.
    + exists []. intros k Hk.
      rewrite Hseg, Hrev by done. by rewrite decide_False.
Qed.

(** In the map that [dijkstra] returns every key leads to [None]. *)
Lemma inv_base_termina {Q : Type} `{!Heapq Q, !HeapqLeyes Q} grafo inicio (st : estado Q) n :
  inv_base grafo inicio st → n ∈ dom grafo → termina (anterior st) n.
Proof.
  intros Hinv Hn.
  assert (is_Some (anterior st !! n)) as [[u|] Hu].
  { apply elem_of_dom. by rewrite (ib_dom_ant _ _ _ Hinv). }
  - destruct (ib_ant _ _ _ Hinv _ _ Hu) as (Hvis & Hdom & _).
    eapply termina_sig; [done|]. by apply (ib_cadena _ _ _ Hinv).
  - by apply termina_raiz.
Qed.

Lemma dijkstra_devuelve {Q : Type} `{!Heapq Q, !HeapqLeyes Q} grafo inicio fin mostrar_pasos
    dist ant :
  dijkstra (Q := Q) grafo inicio fin mostrar_pasos = Devuelve dist ant →
  ∃ st, ejecutar (Q := Q) grafo inicio fin mostrar_pasos = Some (None, st) ∧
        dist = distancias st ∧ ant = anterior st ∧ inv_base grafo inicio st.
Proof.
  unfold dijkstra.
  destruct (ejecutar grafo inicio fin mostrar_pasos) as [[[e|] st]|] eqn:Hej;
    try done.
  intros [= <- <-]. exists st. split_and!; try done.
  by eapply ejecutar_inv_base.
Qed.

(** ** Exceptions *)

Section Excepciones.
Context {Q : Type} `{!Heapq Q, !HeapqLeyes Q}.
Context (grafo : gmap nodo (list (nodo * Z))) (inicio : nodo).

Lemma relajar_vecinos_lanza mostrar_pasos u d vecinos (st st' : estado Q) e :
  relajar_vecinos mostrar_pasos u d vecinos st = Lanza e st' →
  ∃ v c, (v, c) ∈ vecinos ∧ e = KeyError v ∧ distancias st' !! v = None.
Proof.
  revert st. induction vecinos as [|[v0 c0] l IH]; intros st; [done|].
  cbn [relajar_vecinos].
  destruct (relajar_casos mostrar_pasos u d st v0 c0)
    as [[-> _]|[[-> (_ & Hnone)]|[-> _]]].
  - intros (v & c & ? & ?)%IH. exists v, c. split; [by right|done].
  - intros [= <- <-]. exists v0, c0. split; [by left|done].
  - intros (v & c & ? & ?)%IH. exists v, c. split; [by right|done].
Qed.

(** The only exception is the [KeyError] of a node that is not a key of
    the graph: the source, or a neighbour. *)
Lemma iteracion_falla fin mostrar_pasos (st st' : estado Q) e :
  inv_base grafo inicio st →
  iteracion grafo fin mostrar_pasos st = Some (Falla e, st') →
  ∃ k, e = KeyError k ∧ (k ∉ dom grafo) ∧
       (k = inicio ∨ ∃ u c, arista grafo u k c).
Proof.
  intros Hinv Hit.
  pose proof (iteracion_inv_base _ _ _ _ _ _ _ Hinv Hit) as Hinv'.
  revert Hit. unfold iteracion.
  destruct (heappop (cola st)) as [[[d n] c']|] eqn:Hpop; [|done]. simpl.
  destruct (decide (n ∈ visitados st)) as [Hn|Hn]; [done|].
  pose proof (pop_distancia _ _ _ _ _ _ Hinv Hpop Hn) as Hdn.
  destruct (decide (fin = Some n)); [done|].
  destruct (grafo !! n) as [vecinos|] eqn:Hg.
  - destruct (relajar_vecinos _ _ _ _ _) as [s|e' s] eqn:Hrun; [done|].
    intros [= -> ->].
    apply relajar_vecinos_lanza in Hrun as (v & c & Hv & -> & Hnone).
    exists v. split_and!; [done| |].
    + apply not_elem_of_dom in Hnone.
      rewrite (ib_dom_dist _ _ _ Hinv') in Hnone. set_solver.
    + right. exists n, c. by exists vecinos.
  - intros [= <- <-]. exists n. apply not_elem_of_dom in Hg.
    split_and!; [done..|]. left.
    assert (n ∈ dom (distancias st)) as Hd by (apply elem_of_dom; eauto).
    rewrite (ib_dom_dist _ _ _ Hinv) in Hd. set_solver.
Qed.

Lemma bucle_falla k fin mostrar_pasos (st st' : estado Q) e :
  inv_base grafo inicio st →
  bucle k grafo fin mostrar_pasos st = Some (Some e, st') →
  ∃ n, e = KeyError n ∧ (n ∉ dom grafo) ∧
       (n = inicio ∨ ∃ u c, arista grafo u n c).
Proof.
  revert st. induction k as [|k IH]; intros st Hinv; [done|]. simpl.
  destruct (iteracion grafo fin mostrar_pasos st) as [[[| |e'] s]|] eqn:Hit;
    try done.
  - apply IH. eapply iteracion_inv_base; eauto.
  - intros [= -> ->]. eapply iteracion_falla; eauto.
Qed.

Lemma dijkstra_excepcion fin mostrar_pasos e :
  dijkstra (Q := Q) grafo inicio fin mostrar_pasos = Excepcion e →
  ∃ n, e = KeyError n ∧ (n ∉ dom grafo) ∧
       (n = inicio ∨ ∃ u c, arista grafo u n c).
Proof.
  unfold dijkstra.
  destruct (ejecutar grafo inicio fin mostrar_pasos) as [[[e'|] st]|] eqn:Hej;
    try done.
  intros [= ->]. eapply bucle_falla; [|exact Hej]. apply inv_base_inicial.
Qed.

Lemma dijkstra_completa fin mostrar_pasos :
  cerrado grafo → inicio ∈ dom grafo →
  ∃ dist ant, dijkstra (Q := Q) grafo inicio fin mostrar_pasos
              = Devuelve dist ant.
Proof.
  intros Hcer Hini.
  destruct (dijkstra grafo inicio fin mostrar_pasos) as [dist ant|e|] eqn:Hd.
  - eauto.
  - apply dijkstra_excepcion in Hd as (n & _ & Hn & [->|(u & c & Ha)]);
      [done|]. by apply Hcer in Ha.
  - unfold dijkstra in Hd.
    destruct (ejecutar_termina (Q := Q) grafo inicio fin mostrar_pasos)
      as [[[e|] st] Hej]; by rewrite Hej in Hd.
Qed.

(** *** A destination or a source that is not a key *)

Lemma iteracion_destino_ausente destino mostrar_pasos (st : estado Q) :
  inv_base grafo inicio st → destino ∉ dom grafo → destino ≠ inicio →
  iteracion grafo (Some destino) mostrar_pasos st
  = iteracion grafo None mostrar_pasos st.
Proof.
  intros Hinv Hdest Hne. unfold iteracion.
  destruct (heappop (cola st)) as [[[d n] c']|] eqn:Hpop; [|done]. simpl.
  destruct (decide (n ∈ visitados st)) as [Hn|Hn]; [done|].
  pose proof (pop_distancia _ _ _ _ _ _ Hinv Hpop Hn) as Hdn.
  assert (n ≠ destino) as Hnd.
  { intros ->.
    assert (destino ∈ dom (distancias st)) as Hd by (apply elem_of_dom; eauto).
    rewrite (ib_dom_dist _ _ _ Hinv) in Hd. set_solver. }
  by rewrite decide_False by congruence.
Qed.

Lemma bucle_destino_ausente k destino mostrar_pasos (st : estado Q) :
  inv_base grafo inicio st → destino ∉ dom grafo → destino ≠ inicio →
  bucle k grafo (Some destino) mostrar_pasos st
  = bucle k grafo None mostrar_pasos st.
Proof.
  intros Hinv Hdest Hne. revert st Hinv.
  induction k as [|k IH]; intros st Hinv; [done|]. simpl.
  rewrite iteracion_destino_ausente by done.
  destruct (iteracion grafo None mostrar_pasos st) as [[[| |e'] s]|] eqn:Hit;
    try done.
  apply IH. eapply iteracion_inv_base; eauto.
Qed.

Lemma dijkstra_destino_ausente destino mostrar_pasos :
  inicio ∈ dom grafo → destino ∉ dom grafo →
  dijkstra (Q := Q) grafo inicio (Some destino) mostrar_pasos
  = dijkstra (Q := Q) grafo inicio None mostrar_pasos.
Proof.
  intros Hini Hdest. unfold dijkstra, ejecutar.
  rewrite bucle_destino_ausente;
    [done|apply inv_base_inicial|done|by intros ->].
Qed.

Lemma heappop_lista (e : Z * nodo) :
  ∃ c', heappop (heap_lista (Q := Q) e) = Some (e, c') ∧ heap_items c' = [].
Proof.
  destruct (heappop (heap_lista (Q := Q) e)) as [[e' c']|] eqn:Hpop.
  - apply heappop_Some in Hpop as [Hp _]. rewrite heap_lista_items in Hp.
    apply Permutation_singleton_l in Hp. injection Hp as <- Hc'. eauto.
  - apply heappop_None in Hpop.
    pose proof (heap_lista_items (Q := Q) e) as Hp. rewrite Hpop in Hp.
    by apply Permutation_nil_cons in Hp.
Qed.

Lemma dijkstra_inicio_ausente fin mostrar_pasos :
  inicio ∉ dom grafo →
  dijkstra (Q := Q) grafo inicio fin mostrar_pasos
  = if decide (fin = Some inicio)
    then Devuelve (<[inicio := Finita 0]> ((λ _, Infinita) <$> grafo))
                  ((λ _, None) <$> grafo)
    else Excepcion (KeyError inicio).
Proof.
  intros Hini%not_elem_of_dom. unfold dijkstra, ejecutar, combustible_dijkstra.
  cbn [bucle]. unfold iteracion. cbn [cola estado_inicial].
  destruct (heappop_lista (0, inicio)) as (c' & -> & _). simpl.
  destruct (decide (fin = Some inicio)).
  - by destruct mostrar_pasos.
  - rewrite Hini. by destruct mostrar_pasos.
Qed.

Lemma impreso_inicio_ausente fin :
  inicio ∉ dom grafo →
  impreso (Q := Q) grafo inicio fin true
  = [ImprimePaso 0 inicio 0 (<[inicio := Finita 0]> ((λ _, Infinita) <$> grafo))].
Proof.
  intros Hini%not_elem_of_dom. unfold impreso, ejecutar, combustible_dijkstra.
  cbn [bucle]. unfold iteracion. cbn [cola estado_inicial].
  destruct (heappop_lista (0, inicio)) as (c' & -> & _). simpl.
  destruct (decide (fin = Some inicio)); [done|]. by rewrite Hini.
Qed.

End Excepciones.

(** ** What is printed *)

Section Salida.
Context {Q : Type} `{!Heapq Q, !HeapqLeyes Q}.
Context (grafo : gmap nodo (list (nodo * Z))) (inicio : nodo).

Lemma inv_salida_inicial mostrar_pasos :
  inv_salida grafo inicio mostrar_pasos (estado_inicial grafo inicio).
Proof. destruct mostrar_pasos; simpl; split_and!; done. Qed.

Lemma inv_salida_relajar mostrar_pasos (st : estado Q) u d a :
  inv_salida grafo inicio mostrar_pasos st →
  inv_salida grafo inicio mostrar_pasos
    (estado_de (relajar mostrar_pasos u d st a)).
Proof.
  intros Hinv. destruct a as [v c].
  destruct (relajar_casos mostrar_pasos u d st v c)
    as [[-> _]|[[-> _]|[-> _]]]; [done..|].
  destruct mostrar_pasos; [|done]. unfold inv_salida in *. simpl.
  unfold pasos_de in *. rewrite omap_app. simpl. by rewrite app_nil_r.
Qed.

Lemma paso_correcto_crece (st st' : estado Q) x :
  historial st `prefix_of` historial st' →
  paso_correcto grafo inicio st x → paso_correcto grafo inicio st' x.
Proof.
  intros [l Hl] (Hx & Hdom & Hprev). unfold paso_correcto. rewrite Hl.
  pose proof (lookup_lt_Some _ _ _ Hx) as Hlt.
  split_and!; [by rewrite lookup_app_l|done|].
  intros j nj dj Hj. rewrite lookup_app_l by lia. by apply Hprev.
Qed.

Lemma iteracion_inv_salida fin mostrar_pasos (st st' : estado Q) f :
  inv_base grafo inicio st → inv_salida grafo inicio mostrar_pasos st →
  iteracion grafo fin mostrar_pasos st = Some (f, st') →
  inv_salida grafo inicio mostrar_pasos st'.
Proof.
  intros Hinv Hsal. unfold iteracion.
  destruct (heappop (cola st)) as [[[d n] c']|] eqn:Hpop; [|done]. simpl.
  destruct (decide (n ∈ visitados st)) as [Hn|Hn].
  { intros [= <- <-]. by destruct mostrar_pasos. }
  destruct (inv_base_visitar _ _ _ _ _ _ Hinv Hpop Hn) as [Hinv1 _].
  match goal with |- context [decide (fin = Some n)] =>
    match goal with |- context [if mostrar_pasos then ?a else ?b] =>
      set (st2 := if mostrar_pasos then a else b) end end.
  assert (inv_salida grafo inicio mostrar_pasos st2) as Hsal2.
  { unfold st2. destruct mostrar_pasos; [|done].
    destruct Hsal as (Hpaso & Hidx & Hhist & Hok).
    unfold inv_salida, pasos_de in *. simpl.
    rewrite omap_app, !fmap_app, length_app. simpl.
    rewrite Hidx, Hhist, Hpaso, Nat.add_1_r, seq_S. split_and!; try done.
    apply Forall_app. split.
    - eapply Forall_impl; [exact Hok|]. intros x. simpl.
      apply paso_correcto_crece. simpl. by apply prefix_app_r.
    - apply Forall_singleton. unfold paso_correcto. simpl.
      split_and!.
      + by rewrite lookup_app_r, Nat.sub_diag.
      + apply (ib_dom_dist _ _ _ Hinv).
      + intros j nj dj _ Hj. apply (ib_hist _ _ _ Hinv1).
        by apply list_elem_of_lookup_2 in Hj. }
  destruct (decide (fin = Some n)); [by intros [= <- <-]|].
  destruct (grafo !! n) as [vecinos|] eqn:Hg; [|by intros [= <- <-]].
  assert (inv_salida grafo inicio mostrar_pasos (estado_de
            (relajar_vecinos mostrar_pasos n d vecinos st2))) as Hfin.
  { apply (relajar_vecinos_inv (inv_salida grafo inicio mostrar_pasos)); [|done].
    intros s a _. apply inv_salida_relajar. }
  destruct (relajar_vecinos mostrar_pasos n d vecinos st2);
    intros [= <- <-]; apply Hfin.
Qed.

Lemma bucle_inv_salida k fin mostrar_pasos (st st' : estado Q) r :
  inv_base grafo inicio st → inv_salida grafo inicio mostrar_pasos st →
  bucle k grafo fin mostrar_pasos st = Some (r, st') →
  inv_salida grafo inicio mostrar_pasos st'.
Proof.
  revert st. induction k as [|k IH]; intros st Hinv Hsal; [done|]. simpl.
  destruct (iteracion grafo fin mostrar_pasos st) as [[[| |e] s]|] eqn:Hit.
  - apply IH.
    + eapply iteracion_inv_base; eauto.
    + eapply iteracion_inv_salida; eauto.
  - intros [= <- <-]. eapply iteracion_inv_salida; eauto.
  - intros [= <- <-]. eapply iteracion_inv_salida; eauto.
  - by intros [= <- <-].
Qed.

End Salida.

(** ** The distances that a step shows *)

Section Instantanea.
Context {Q : Type} `{!Heapq Q, !HeapqLeyes Q}.
Context (grafo : gmap nodo (list (nodo * Z))) (inicio : nodo).
Context (fin : option nodo).

Lemma en_curso_iterar mostrar_pasos (st s : estado Q) :
  en_curso grafo fin mostrar_pasos st s →
  ∃ k, ∀ j, iterar (k + j) grafo fin mostrar_pasos st
            = iterar j grafo fin mostrar_pasos s.
Proof.
  induction 1 as [|s s' _ [k IH] Hit].
  - by exists 0%nat.
  - exists (S k). intros j.
    replace (S k + j)%nat with (k + S j)%nat by lia.
    rewrite IH. cbn [iterar]. by rewrite Hit.
Qed.

Lemma en_curso_es_iterar mostrar_pasos (st s : estado Q) :
  en_curso grafo fin mostrar_pasos st s →
  ∃ k, iterar k grafo fin mostrar_pasos st = s.
Proof.
  intros [k Hk]%en_curso_iterar. exists k.
  specialize (Hk 0%nat). by rewrite Nat.add_0_r in Hk.
Qed.

Lemma relajar_vecinos_pasos mostrar_pasos u d vecinos (st : estado Q) :
  pasos_de (salida (estado_de (relajar_vecinos mostrar_pasos u d vecinos st)))
  = pasos_de (salida st).
Proof.
  apply (relajar_vecinos_inv
           (λ s, pasos_de (salida s) = pasos_de (salida st))); [|done].
  intros s [v c] _ Hs.
  destruct (relajar_casos mostrar_pasos u d s v c)
    as [[-> _]|[[-> _]|[-> _]]]; [done..|].
  simpl. destruct mostrar_pasos; [|done].
  unfold pasos_de in *. rewrite omap_app. simpl. by rewrite app_nil_r.
Qed.

(** One iteration prints at most one step: the popped entry and
    [distancias] as the iteration found it. *)
Lemma iteracion_pasos (st st' : estado Q) f :
  iteracion grafo fin true st = Some (f, st') →
  pasos_de (salida st') = pasos_de (salida st) ∨
  ∃ d n c', heappop (cola st) = Some ((d, n), c') ∧ (n ∉ visitados st) ∧
            pasos_de (salida st')
            = pasos_de (salida st) ++ [(paso st, n, d, distancias st)].
Proof.
  unfold iteracion.
  destruct (heappop (cola st)) as [[[d n] c']|] eqn:Hpop; [|done]. simpl.
  destruct (decide (n ∈ visitados st)) as [Hn|Hn];
    [intros [= <- <-]; by left|].
  match goal with |- context [decide (fin = Some n)] =>
    match goal with |- context [imprimir_paso n d ?a] =>
      set (st2 := imprimir_paso n d a) end end.
  assert (pasos_de (salida st2)
          = pasos_de (salida st) ++ [(paso st, n, d, distancias st)]) as H2.
  { unfold st2, pasos_de. simpl. by rewrite omap_app. }
  intros Hit. right. exists d, n, c'. split_and!; [done..|]. revert Hit.
  destruct (decide (fin = Some n)); [by intros [= <- <-]|].
  destruct (grafo !! n) as [vecinos|]; [|by intros [= <- <-]].
  pose proof (relajar_vecinos_pasos true n d vecinos st2) as H3.
  destruct (relajar_vecinos true n d vecinos st2);
    intros [= <- <-]; simpl in H3; by rewrite H3.
Qed.

Lemma bucle_pasos_exactos k (st st' : estado Q) r :
  en_curso grafo fin true (estado_inicial grafo inicio) st →
  inv_base grafo inicio st → inv_salida grafo inicio true st →
  Forall (paso_exacto (Q := Q) grafo inicio fin) (pasos_de (salida st)) →
  bucle k grafo fin true st = Some (r, st') →
  Forall (paso_exacto (Q := Q) grafo inicio fin) (pasos_de (salida st')).
Proof.
  revert st. induction k as [|k IH]; intros st Hen Hinv Hsal Hok; [done|].
  simpl.
  destruct (iteracion grafo fin true st) as [[f s]|] eqn:Hit;
    [|by intros [= <- <-]].
  assert (Forall (paso_exacto (Q := Q) grafo inicio fin)
            (pasos_de (salida s))) as Hs.
  { destruct (iteracion_pasos _ _ _ Hit)
      as [->|(d & n & c' & Hpop & Hn & ->)]; [done|].
    apply Forall_app. split; [done|]. apply Forall_singleton.
    destruct (en_curso_es_iterar _ _ _ Hen) as [j Hj].
    destruct Hsal as (Hpaso & _).
    exists j, c'. cbv zeta. rewrite Hj. by split_and!. }
  destruct f; [|by intros [= <- <-]..].
  apply IH; [by eapply en_curso_sigue|by eapply iteracion_inv_base
            |by eapply iteracion_inv_salida|done].
Qed.

(** An iteration that pops a node not yet visited adds it to the history. *)
Lemma iteracion_visita mostrar_pasos (st st' : estado Q) f d n c' :
  iteracion grafo fin mostrar_pasos st = Some (f, st') →
  heappop (cola st) = Some ((d, n), c') → (n ∉ visitados st) →
  historial st' = historial st ++ [(n, d)].
Proof.
  unfold iteracion. intros Hit Hpop Hn. rewrite Hpop in Hit. simpl in Hit.
  destruct (decide (n ∈ visitados st)); [done|]. revert Hit.
  match goal with |- context [decide (fin = Some n)] =>
    match goal with |- context [if mostrar_pasos then ?a else ?b] =>
      set (st2 := if mostrar_pasos then a else b) end end.
  assert (historial st2 = historial st ++ [(n, d)]) as H2
    by (unfold st2; by destruct mostrar_pasos).
  destruct (decide (fin = Some n)); [by intros [= <- <-]|].
  destruct (grafo !! n) as [vecinos|]; [|by intros [= <- <-]].
  pose proof (relajar_vecinos_conserva mostrar_pasos st2 n d vecinos)
    as (_ & Hh & _).
  destruct (relajar_vecinos mostrar_pasos n d vecinos st2);
    intros [= <- <-]; simpl in Hh; congruence.
Qed.

Lemma en_curso_cabeza mostrar_pasos (st s : estado Q) :
  en_curso grafo fin mostrar_pasos st s →
  s = st ∨
  ∃ s1, iteracion grafo fin mostrar_pasos st = Some (Continua, s1) ∧
        en_curso grafo fin mostrar_pasos s1 s.
Proof.
  induction 1 as [|s s' Hen [->|(s1 & H1 & Hen1)] Hit]; [by left|..]; right.
  - exists s'. split; [done|constructor].
  - exists s1. split; [done|]. by eapply en_curso_sigue.
Qed.

Lemma en_curso_historial mostrar_pasos (st s : estado Q) :
  en_curso grafo fin mostrar_pasos st s →
  historial st `prefix_of` historial s.
Proof.
  induction 1 as [|s s' _ IH Hit]; [done|].
  apply iteracion_conserva in Hit as (_ & _ & Hpre). by etrans.
Qed.

(** The states at the top of the loop come one after the other. *)
Lemma en_curso_lineal mostrar_pasos (st s1 s2 : estado Q) :
  en_curso grafo fin mostrar_pasos st s1 →
  en_curso grafo fin mostrar_pasos st s2 →
  en_curso grafo fin mostrar_pasos s1 s2 ∨
  en_curso grafo fin mostrar_pasos s2 s1.
Proof.
  intros H1 H2. induction H1 as [|s s' _ IH Hit]; [by left|].
  destruct IH as [[->|(s3 & H3 & Hen3)]%en_curso_cabeza|IH].
  - right. eapply en_curso_sigue; [constructor|done].
  - left. rewrite Hit in H3. by injection H3 as <-.
  - right. by eapply en_curso_sigue.
Qed.

Lemma en_curso_mismo_paso mostrar_pasos (s1 s2 : estado Q) d n c' :
  en_curso grafo fin mostrar_pasos s1 s2 →
  heappop (cola s1) = Some ((d, n), c') → (n ∉ visitados s1) →
  length (historial s1) = length (historial s2) → s2 = s1.
Proof.
  intros [->|(s3 & H3 & Hen3)]%en_curso_cabeza Hpop Hn Hlen; [done|].
  pose proof (iteracion_visita _ _ _ _ _ _ _ H3 Hpop Hn) as Hh.
  apply en_curso_historial, prefix_length in Hen3.
  rewrite Hh, length_app in Hen3. simpl in Hen3. lia.
Qed.

(** The number of a step fixes the whole block: the node, the distance and
    the map of distances. *)
Lemma paso_exacto_unico x y :
  paso_exacto (Q := Q) grafo inicio fin x →
  paso_exacto (Q := Q) grafo inicio fin y →
  x.1.1.1 = y.1.1.1 → x = y.
Proof.
  intros (k1 & c1 & H1) (k2 & c2 & H2) Hi. cbv zeta in H1, H2.
  destruct H1 as (Hen1 & Hpop1 & Hn1 & Hl1 & Hm1).
  destruct H2 as (Hen2 & Hpop2 & Hn2 & Hl2 & Hm2).
  assert (iterar k1 grafo fin true (estado_inicial grafo inicio)
          = iterar k2 grafo fin true (estado_inicial grafo inicio)) as Heq.
  { destruct (en_curso_lineal _ _ _ _ Hen1 Hen2) as [H|H].
    - symmetry. eapply en_curso_mismo_paso; [exact H|exact Hpop1|exact Hn1|lia].
    - eapply en_curso_mismo_paso; [exact H|exact Hpop2|exact Hn2|lia]. }
  destruct x as [[[i1 n1] d1] m1], y as [[[i2 n2] d2] m2]. simpl in *.
  rewrite Heq in Hpop1, Hm1. rewrite Hpop1 in Hpop2.
  injection Hpop2 as Hd Hnn _. congruence.
Qed.

End Instantanea.

(** On the example, the four blocks with the maps they show; at step 1 no
    other map will do. *)
Lemma paso_exacto_ejemplo :
  Forall (paso_exacto (Q := list (Z * nodo)) grafo_ejemplo "A" (Some "D"))
    [(0%nat, "A", 0,
      <["A" := Finita 0]> (<["B" := Infinita]> (<["C" := Infinita]>
      (<["D" := Infinita]> ∅))));
     (1%nat, "C", 2,
      <["A" := Finita 0]> (<["B" := Finita 4]> (<["C" := Finita 2]>
      (<["D" := Infinita]> ∅))));
     (2%nat, "B", 4, distancias_ejemplo);
     (3%nat, "D", 5, distancias_ejemplo)] ∧
  ¬ paso_exacto (Q := list (Z * nodo)) grafo_ejemplo "A" (Some "D")
      (1%nat, "C", 2,
       <["A" := Finita 0]> (<["B" := Finita 999]> (<["C" := Finita 2]>
       (<["D" := Finita 7]> ∅)))).
Proof.
  assert (Forall (paso_exacto (Q := list (Z * nodo)) grafo_ejemplo "A" (Some "D"))
            (pasos_de (impreso (Q := list (Z * nodo))
                         grafo_ejemplo "A" (Some "D") true))) as H.
  { unfold impreso.
    destruct (ejecutar (Q := list (Z * nodo)) grafo_ejemplo "A" (Some "D") true)
      as [[r st]|] eqn:Hej; [|constructor].
    exact (bucle_pasos_exactos grafo_ejemplo "A" (Some "D") _ _ _ _
             (en_curso_inicio _ _ _ _) (inv_base_inicial grafo_ejemplo "A")
             (inv_salida_inicial grafo_ejemplo "A" true) (Forall_nil_2 _) Hej). }
  assert (pasos_de (impreso (Q := list (Z * nodo))
                     grafo_ejemplo "A" (Some "D") true)
          = [(0%nat, "A", 0,
              <["A" := Finita 0]> (<["B" := Infinita]> (<["C" := Infinita]>
              (<["D" := Infinita]> ∅))));
             (1%nat, "C", 2,
              <["A" := Finita 0]> (<["B" := Finita 4]> (<["C" := Finita 2]>
              (<["D" := Infinita]> ∅))));
             (2%nat, "B", 4, distancias_ejemplo);
             (3%nat, "D", 5, distancias_ejemplo)]) as Hl
    by (vm_compute; reflexivity).
  rewrite Hl in H. split; [exact H|]. intros Hbad.
  apply Forall_cons in H as [_ H]. apply Forall_cons in H as [H _].
  pose proof (paso_exacto_unico _ _ _ _ _ Hbad H eq_refl) as Heq.
  apply (f_equal (λ x, x.2 !! "B")) in Heq. vm_compute in Heq. discriminate Heq.
Qed.

(** ** Two runs on the same inputs

    The two runs may use different heaps and different values of
    [mostrar_pasos]: the maps, the visited nodes and the entries of the queue
    stay the same. *)

Section Simulacion.
Context {Q1 Q2 : Type} `{!Heapq Q1, !HeapqLeyes Q1} `{!Heapq Q2, !HeapqLeyes Q2}.

Lemma heappop_parecidos (q1 : Q1) (q2 : Q2) :
  heap_items q1 ≡ₚ heap_items q2 →
  match heappop q1, heappop q2 with
  | None, None => True
  | Some (e1, q1'), Some (e2, q2') =>
      e1 = e2 ∧ heap_items q1' ≡ₚ heap_items q2'
  | _, _ => False
  end.
Proof.
  intros Hq.
  destruct (heappop q1) as [[e1 q1']|] eqn:H1,
           (heappop q2) as [[e2 q2']|] eqn:H2; try done.
  - apply heappop_pendientes in H1 as (Hp1 & Hmin1 & _).
    apply heappop_pendientes in H2 as (Hp2 & Hmin2 & _).
    assert (e1 = e2) as ->.
    { apply entrada_le_antisym.
      - apply Hmin1. rewrite Hq, Hp2. apply list_elem_of_here.
      - apply Hmin2. rewrite <- Hq, Hp1. apply list_elem_of_here. }
    split; [done|]. rewrite Hp1, Hp2 in Hq.
    by apply Permutation_cons_inv in Hq.
  - apply heappop_Some in H1 as [Hp1 _]. apply heappop_None in H2.
    rewrite Hq, H2 in Hp1. by apply Permutation_nil_cons in Hp1.
  - apply heappop_Some in H2 as [Hp2 _]. apply heappop_None in H1.
    rewrite <- Hq, H1 in Hp2. by apply Permutation_nil_cons in Hp2.
Qed.

Lemma relajar_parecidos m1 m2 u d (a : estado Q1) (b : estado Q2) x :
  parecidos a b →
  efectos_parecidos (relajar m1 u d a x) (relajar m2 u d b x).
Proof.
  intros (Hd & Ha & Hv & Hh & Hq). destruct x as [v c]. unfold relajar.
  rewrite Hv, Hd. destruct (decide (v ∈ visitados b)); [done|].
  destruct (distancias b !! v) as [y|]; [|done].
  destruct (menor (d + c) y); [|done].
  simpl. unfold parecidos, pendientes. simpl.
  rewrite !heappush_items, Hd, Ha. split_and!; try done. by f_equiv.
Qed.

Lemma relajar_vecinos_parecidos m1 m2 u d vecinos (a : estado Q1)
    (b : estado Q2) :
  parecidos a b →
  efectos_parecidos (relajar_vecinos m1 u d vecinos a)
                    (relajar_vecinos m2 u d vecinos b).
Proof.
  revert a b. induction vecinos as [|x l IH]; intros a b Hab; [done|].
  cbn [relajar_vecinos].
  pose proof (relajar_parecidos m1 m2 u d a b x Hab) as Hx.
  destruct (relajar m1 u d a x), (relajar m2 u d b x); try done.
  by apply IH.
Qed.

Lemma iteracion_parecidos grafo fin m1 m2 (a : estado Q1) (b : estado Q2) :
  parecidos a b →
  match iteracion grafo fin m1 a, iteracion grafo fin m2 b with
  | None, None => True
  | Some (f1, a'), Some (f2, b') => f1 = f2 ∧ parecidos a' b'
  | _, _ => False
  end.
Proof.
  intros (Hd & Ha & Hv & Hh & Hq). unfold iteracion.
  pose proof (heappop_parecidos (cola a) (cola b) Hq) as Hpop.
  destruct (heappop (cola a)) as [[[d1 n1] c1]|],
           (heappop (cola b)) as [[[d2 n2] c2]|]; try done.
  destruct Hpop as [[= -> ->] Hc]. simpl. rewrite Hv.
  destruct (decide (n2 ∈ visitados b)); [done|].
  match goal with |- context [decide (fin = Some n2)] =>
    match goal with
    |- context [relajar_vecinos m1 _ _ _ (if m1 then ?x else ?y)] =>
         set (a2 := if m1 then x else y) end;
    match goal with
    |- context [relajar_vecinos m2 _ _ _ (if m2 then ?x else ?y)] =>
         set (b2 := if m2 then x else y) end
  end.
  assert (parecidos a2 b2) as H2.
  { unfold a2, b2, parecidos, pendientes.
    destruct m1, m2; simpl; rewrite Hd, Ha, Hv, Hh; done. }
  destruct (decide (fin = Some n2)); [done|].
  destruct (grafo !! n2) as [vecinos|]; [|done].
  pose proof (relajar_vecinos_parecidos m1 m2 n2 d2 vecinos a2 b2 H2) as Hr.
  destruct (relajar_vecinos m1 n2 d2 vecinos a2),
           (relajar_vecinos m2 n2 d2 vecinos b2); try done.
  destruct Hr as [-> ?]. done.
Qed.

Lemma bucle_parecidos k grafo fin m1 m2 (a : estado Q1) (b : estado Q2) :
  parecidos a b →
  match bucle k grafo fin m1 a, bucle k grafo fin m2 b with
  | None, None => True
  | Some (r1, a'), Some (r2, b') => r1 = r2 ∧ parecidos a' b'
  | _, _ => False
  end.
Proof.
  revert a b. induction k as [|k IH]; intros a b Hab; [done|]. simpl.
  pose proof (iteracion_parecidos grafo fin m1 m2 a b Hab) as Hit.
  destruct (iteracion grafo fin m1 a) as [[f1 a']|],
           (iteracion grafo fin m2 b) as [[f2 b']|]; try done.
  destruct Hit as [<- Hab']. destruct f1; [by apply IH|done..].
Qed.

Lemma dijkstra_parecidos grafo inicio fin m1 m2 :
  dijkstra (Q := Q1) grafo inicio fin m1
  = dijkstra (Q := Q2) grafo inicio fin m2.
Proof.
  unfold dijkstra, ejecutar.
  pose proof (bucle_parecidos (combustible_dijkstra grafo) grafo fin m1 m2
                (estado_inicial grafo inicio) (estado_inicial grafo inicio))
    as Hb.
  destruct (bucle _ _ _ m1 _) as [[r1 a]|], (bucle _ _ _ m2 _) as [[r2 b]|].
  - destruct Hb as [-> (Hd & Ha & _)].
    + unfold parecidos, pendientes. simpl. split_and!; try done.
      by rewrite !heap_lista_items.
    + destruct r2; [done|]. by rewrite Hd, Ha.
  - exfalso. apply Hb. unfold parecidos, pendientes. simpl.
    split_and!; try done. by rewrite !heap_lista_items.
  - exfalso. apply Hb. unfold parecidos, pendientes. simpl.
    split_and!; try done. by rewrite !heap_lista_items.
  - done.
Qed.

End Simulacion.

(** ** Checking a concrete graph *)

Lemma comprobar_pesos_correcto grafo :
  comprobar_pesos grafo = true → pesos_no_negativos grafo.
Proof.
  intros H%bool_decide_eq_true u v c (vecinos & Hu & Hv).
  specialize (H _ _ Hu). simpl in H.
  by apply (proj1 (Forall_forall _ _) H (v, c)).
Qed.

Lemma comprobar_cerrado_correcto grafo :
  comprobar_cerrado grafo = true → cerrado grafo.
Proof.
  intros H%bool_decide_eq_true u v c (vecinos & Hu & Hv).
  specialize (H _ _ Hu). simpl in H.
  by apply (proj1 (Forall_forall _ _) H (v, c)).
Qed.

(** * The specification *)

(** C1. On a graph whose weights are not negative, [dijkstra(grafo, inicio)]
    maps every node reachable from [inicio] to the least weight of a path
    from [inicio] to it: the entry is the weight of some path, and no path
    weighs less. The call returns when every neighbour is a key. *)
Theorem dijkstra_distancias_minimas {Q : Type} `{!Heapq Q, !HeapqLeyes Q}
    (grafo : gmap nodo (list (nodo * Z))) (inicio : nodo)
    (mostrar_pasos : bool) :
  pesos_no_negativos grafo →
  (cerrado grafo → inicio ∈ dom grafo →
   ∃ dist ant,
     dijkstra (Q := Q) grafo inicio None mostrar_pasos = Devuelve dist ant) ∧
  ∀ dist ant n,
    dijkstra (Q := Q) grafo inicio None mostrar_pasos = Devuelve dist ant →
    alcanzable grafo inicio n →
    ∃ d p, dist !! n = Some (Finita d) ∧
           es_camino grafo inicio p n ∧ peso_camino p = d ∧
           ∀ p', es_camino grafo inicio p' n → d ≤ peso_camino p'.
Proof.
  intros Hpos. split; [apply dijkstra_completa|].
  intros dist ant n Hrun Hn.
  destruct (dijkstra_minimo _ _ _ _ _ _ Hpos Hrun Hn) as (d & Hd & Hc & Hmin).
  apply camino_de_es_camino in Hc as (p & Hp & Hw).
  exists d, p. split_and!; try done.
  intros p' Hp'. apply Hmin, camino_de_es_camino. eauto.
Qed.

Lemma dijkstra_distancias_minimas_ejemplo :
  ∃ d p, distancias_ejemplo !! "D" = Some (Finita d) ∧
         es_camino grafo_ejemplo "A" p "D" ∧ peso_camino p = d ∧
         ∀ p', es_camino grafo_ejemplo "A" p' "D" → d ≤ peso_camino p'.
Proof.
  assert (pesos_no_negativos grafo_ejemplo) as Hpos.
  { apply comprobar_pesos_correcto. vm_compute. reflexivity. }
  destruct (dijkstra_distancias_minimas (Q := list (Z * nodo))
              grafo_ejemplo "A" false Hpos) as [_ H].
  apply (H distancias_ejemplo anterior_ejemplo "D").
  - vm_compute. reflexivity.
  - exists [("C", 2); ("D", 3)]. simpl. split_and!; [| |reflexivity].
    + eexists. split; [vm_compute; reflexivity|]. set_solver.
    + eexists. split; [vm_compute; reflexivity|]. set_solver.
Defined.




(** C3, as the code has it. [dijkstra] returns the two maps only, and the
    same ones whatever [mostrar_pasos]. The steps are printed: with
    [mostrar_pasos] one block per visited node ([historial] lists the
    visited nodes, each once), in the order of the visits,
    numbered from 0, each with the node, the distance it was popped with and
    the distances at that moment: the map shown is [distancias] as it is
    when the run, back at the top of the loop with as many nodes visited as
    the number of the step, pops that node with that distance
    ([paso_exacto]). That map has the keys of [distancias], the popped
    distance at the node and the confirmed distance at every node visited
    before. Without [mostrar_pasos] nothing is printed. *)
Theorem pasos_impresos {Q : Type} `{!Heapq Q, !HeapqLeyes Q}
    (grafo : gmap nodo (list (nodo * Z))) (inicio : nodo) (fin : option nodo)
    (mostrar_pasos : bool) :
  dijkstra (Q := Q) grafo inicio fin true
  = dijkstra (Q := Q) grafo inicio fin false ∧
  ∃ r st,
    ejecutar (Q := Q) grafo inicio fin mostrar_pasos = Some (r, st) ∧
    impreso (Q := Q) grafo inicio fin mostrar_pasos = salida st ∧
    (∀ n, n ∈ visitados st ↔ n ∈ (historial st).*1) ∧
    NoDup (historial st).*1 ∧
    if mostrar_pasos
    then (λ x, x.1.1.1) <$> pasos_de (salida st)
           = seq 0 (length (historial st)) ∧
         (λ x, (x.1.1.2, x.1.2)) <$> pasos_de (salida st) = historial st ∧
         Forall (λ x, paso_exacto (Q := Q) grafo inicio fin x ∧
                      dom x.2 = {[inicio]} ∪ dom grafo ∧
                      x.2 !! x.1.1.2 = Some (Finita x.1.2) ∧
                      ∀ j nj dj, (j ≤ x.1.1.1)%nat →
                                 historial st !! j = Some (nj, dj) →
                                 x.2 !! nj = Some (Finita dj))
                (pasos_de (salida st))
    else salida st = [].
Proof.
  split; [apply dijkstra_parecidos|].
  destruct (ejecutar_termina (Q := Q) grafo inicio fin mostrar_pasos)
    as [[r st] Hej].
  exists r, st. unfold impreso. rewrite Hej. split_and!; [done..| | |].
  { apply (ib_vis grafo inicio). by eapply ejecutar_inv_base. }
  { apply (ib_nodup grafo inicio). by eapply ejecutar_inv_base. }
  pose proof (bucle_inv_salida grafo inicio _ _ _ _ _ _
                (inv_base_inicial grafo inicio)
                (inv_salida_inicial grafo inicio mostrar_pasos) Hej) as Hsal.
  destruct mostrar_pasos; [|by destruct Hsal].
  destruct Hsal as (_ & Hidx & Hhist & Hok). split_and!; [done..|].
  pose proof (bucle_pasos_exactos grafo inicio fin _ _ _ _
                (en_curso_inicio _ _ _ _) (inv_base_inicial grafo inicio)
                (inv_salida_inicial grafo inicio true) (Forall_nil_2 _) Hej)
    as Hex.
  apply Forall_forall. intros x Hx.
  pose proof (proj1 (Forall_forall _ _) Hex x Hx) as Hx1.
  pose proof (proj1 (Forall_forall _ _) Hok x Hx) as (Hx2 & Hdom & Hprev).
  split_and!; [done..| |done]. by eapply Hprev.
Qed.

Lemma pasos_impresos_ejemplo :
  dijkstra (Q := list (Z * nodo)) grafo_ejemplo "A" (Some "D") true
  = dijkstra (Q := list (Z * nodo)) grafo_ejemplo "A" (Some "D") false ∧
  (λ x, (x.1.1.1, x.1.1.2, x.1.2)) <$>
    pasos_de (impreso (Q := list (Z * nodo)) grafo_ejemplo "A" (Some "D") true)
  = [(0%nat, "A", 0); (1%nat, "C", 2); (2%nat, "B", 4); (3%nat, "D", 5)] ∧
  (λ x, x.2) <$>
    pasos_de (impreso (Q := list (Z * nodo)) grafo_ejemplo "A" (Some "D") true)
  = [<["A" := Finita 0]> (<["B" := Infinita]> (<["C" := Infinita]>
     (<["D" := Infinita]> ∅)));
     <["A" := Finita 0]> (<["B" := Finita 4]> (<["C" := Finita 2]>
     (<["D" := Infinita]> ∅)));
     distancias_ejemplo; distancias_ejemplo] ∧
  Forall (paso_exacto (Q := list (Z * nodo)) grafo_ejemplo "A" (Some "D"))
    (pasos_de (impreso (Q := list (Z * nodo))
                 grafo_ejemplo "A" (Some "D") true)).
Proof.
  destruct (pasos_impresos (Q := list (Z * nodo))
              grafo_ejemplo "A" (Some "D") true)
    as [H (r & st & _ & Himp & _ & _ & _ & _ & HF)].
  split_and!; [exact H|vm_compute; reflexivity|vm_compute; reflexivity|].
  rewrite Himp. eapply Forall_impl; [exact HF|]. intros x [Hx _]. exact Hx.
Defined.

(** C3, as stated, fails: on the graph of [__main__] four nodes are visited
    and four blocks are printed, and the value returned is the pair of maps,
    the same with and without [mostrar_pasos]; so no sequence of step records
    that is empty without the flag and has one record per visited node with
    it can be read off the returned value. *)
Lemma pasos_no_devueltos :
  dijkstra (Q := list (Z * nodo)) grafo_ejemplo "A" (Some "D") true
  = Devuelve distancias_ejemplo anterior_ejemplo ∧
  dijkstra (Q := list (Z * nodo)) grafo_ejemplo "A" (Some "D") false
  = Devuelve distancias_ejemplo anterior_ejemplo ∧
  length (pasos_de (impreso (Q := list (Z * nodo))
                      grafo_ejemplo "A" (Some "D") true)) = 4%nat ∧
  impreso (Q := list (Z * nodo)) grafo_ejemplo "A" (Some "D") false = [] ∧
  ¬ ∃ registros : retorno → list (nat * nodo * Z * gmap nodo distancia),
      registros (dijkstra (Q := list (Z * nodo))
                   grafo_ejemplo "A" (Some "D") false) = [] ∧
      length (registros (dijkstra (Q := list (Z * nodo))
                           grafo_ejemplo "A" (Some "D") true)) = 4%nat.
Proof.
  assert (dijkstra (Q := list (Z * nodo)) grafo_ejemplo "A" (Some "D") true
          = Devuelve distancias_ejemplo anterior_ejemplo) as Hon
    by (vm_compute; reflexivity).
  assert (dijkstra (Q := list (Z * nodo)) grafo_ejemplo "A" (Some "D") false
          = Devuelve distancias_ejemplo anterior_ejemplo) as Hoff
    by (vm_compute; reflexivity).
  split_and!; [done|done|vm_compute; reflexivity|vm_compute; reflexivity|].
  intros (registros & H0 & H4). rewrite Hon in H4. rewrite Hoff in H0.
  rewrite H0 in H4. discriminate H4.
Qed.

(** C4, as the code has it. [dijkstra] returns when every neighbour is a key
    (and the source is one). A neighbour that is not a key has no entry in
    [distancias]: relaxing an edge into it, when it is not visited, raises
    its [KeyError]; every exception of [dijkstra] is the [KeyError] of a
    node that is not a key, the source or a neighbour; and with weights that
    are not negative and no destination, the call raises as soon as a node
    reachable from the source has such a neighbour. *)
Theorem vecinos_sin_entrada {Q : Type} `{!Heapq Q, !HeapqLeyes Q}
    (grafo : gmap nodo (list (nodo * Z))) (inicio : nodo) (fin : option nodo)
    (mostrar_pasos : bool) :
  (cerrado grafo → inicio ∈ dom grafo →
   ∃ dist ant,
     dijkstra (Q := Q) grafo inicio fin mostrar_pasos = Devuelve dist ant) ∧
  (∀ (st : estado Q) u d v c,
     v ∉ visitados st → distancias st !! v = None →
     relajar mostrar_pasos u d st (v, c) = Lanza (KeyError v) st) ∧
  (∀ e, dijkstra (Q := Q) grafo inicio fin mostrar_pasos = Excepcion e →
        ∃ n, e = KeyError n ∧ (n ∉ dom grafo) ∧
             (n = inicio ∨ ∃ u c, arista grafo u n c)) ∧
  (∀ u v c, pesos_no_negativos grafo → alcanzable grafo inicio u →
            arista grafo u v c → v ∉ dom grafo →
            ∃ e, dijkstra (Q := Q) grafo inicio None mostrar_pasos
                 = Excepcion e).
Proof.
  split_and!.
  - apply dijkstra_completa.
  - intros st u d v c Hv Hnone. unfold relajar.
    rewrite decide_False by done. by rewrite Hnone.
  - apply dijkstra_excepcion.
  - intros u v c Hpos [p Hp] Ha Hv.
    destruct (dijkstra grafo inicio None mostrar_pasos) as [dist ant|e|]
      eqn:Hrun.
    + exfalso.
      assert (alcanzable grafo inicio v) as Hreach.
      { apply alcanzable_camino_de.
        assert (alcanzable grafo inicio u) as [w Hw]%alcanzable_camino_de
          by (by exists p).
        exists (w + c). econstructor; eauto. }
      destruct (dijkstra_minimo _ _ _ _ _ _ Hpos Hrun Hreach)
        as (d & Hd & _).
      pose proof Hrun as (st & _ & -> & _ & Hinv)%dijkstra_devuelve.
      assert (v ∈ dom (distancias st)) as Hdom by (apply elem_of_dom; eauto).
      rewrite (ib_dom_dist _ _ _ Hinv) in Hdom.
      apply elem_of_union in Hdom as [->%elem_of_singleton|?]; [|done].
      pose proof (dijkstra_inicio_ausente (Q := Q) grafo inicio None
                    mostrar_pasos Hv) as Haus.
      simpl in Haus.
      congruence.
    + eauto.
    + exfalso. unfold dijkstra in Hrun.
      destruct (ejecutar_termina (Q := Q) grafo inicio None mostrar_pasos)
        as [[[e|] st] Hej]; by rewrite Hej in Hrun.
Qed.

Lemma vecinos_sin_entrada_ejemplo :
  (∃ dist ant,
     dijkstra (Q := list (Z * nodo)) grafo_ejemplo "A" None false
     = Devuelve dist ant) ∧
  (∃ e, dijkstra (Q := list (Z * nodo)) grafo_colgante "A" None false
        = Excepcion e).
Proof.
  destruct (vecinos_sin_entrada (Q := list (Z * nodo))
              grafo_ejemplo "A" None false) as (H1 & _).
  destruct (vecinos_sin_entrada (Q := list (Z * nodo))
              grafo_colgante "A" None false) as (_ & _ & _ & H4).
  split.
  - apply H1.
    + apply comprobar_cerrado_correcto. vm_compute. reflexivity.
    + vm_compute. eauto.
  - apply (H4 "A" "B" 1).
    + apply comprobar_pesos_correcto. vm_compute. reflexivity.
    + exists []. reflexivity.
    + eexists. split; [vm_compute; reflexivity|]. set_solver.
    + vm_compute. intros H. discriminate H.
Defined.

(** C4, as stated, fails: in [{A: {B: 1}}] the node [B] is a neighbour and
    not a key, and [dijkstra] raises [KeyError: 'B']. *)
Lemma vecino_sin_entrada_falla :
  arista grafo_colgante "A" "B" 1 ∧ ("B" ∉ dom grafo_colgante) ∧
  dijkstra (Q := list (Z * nodo)) grafo_colgante "A" None false
  = Excepcion (KeyError "B").
Proof.
  split_and!.
  - eexists. split; [vm_compute; reflexivity|]. set_solver.
  - vm_compute. intros H. discriminate H.
  - vm_compute. reflexivity.
Qed.

(** C5. On the graph of [__main__], from [A] to [D]: the distances are
    [{A: 0, B: 4, C: 2, D: 5}], the path rebuilt from the predecessors that
    [dijkstra] returns is [A, C, D], and its distance is 5. *)
Theorem ejemplo_de_A_a_D {Q : Type} `{!Heapq Q, !HeapqLeyes Q} (mostrar_pasos : bool)
    (k : nat) :
  dijkstra (Q := Q) grafo_ejemplo "A" (Some "D") mostrar_pasos
  = Devuelve distancias_ejemplo anterior_ejemplo ∧
  reconstruir_camino (3 + k) anterior_ejemplo "A" "D"
  = Some (inl ["A"; "C"; "D"]) ∧
  distancias_ejemplo !! "D" = Some (Finita 5) ∧
  es_camino grafo_ejemplo "A" [("C", 2); ("D", 3)] "D" ∧
  peso_camino [("C", 2); ("D", 3)] = 5.
Proof.
  split_and!.
  - rewrite (dijkstra_parecidos (Q2 := list (Z * nodo)) _ _ _ _ true).
    vm_compute. reflexivity.
  - assert (anterior_ejemplo !! "D" = Some (Some "C")) as HD
      by (vm_compute; reflexivity).
    assert (anterior_ejemplo !! "C" = Some (Some "A")) as HC
      by (vm_compute; reflexivity).
    assert (anterior_ejemplo !! "A" = Some None) as HA
      by (vm_compute; reflexivity).
    unfold reconstruir_camino. cbn [seguir Nat.add].
    rewrite HD. cbn [seguir]. rewrite HC. cbn [seguir].
    rewrite HA, seguir_None. reflexivity.
  - vm_compute. reflexivity.
  - simpl. split_and!; [| |reflexivity].
    + eexists. split; [vm_compute; reflexivity|]. set_solver.
    + eexists. split; [vm_compute; reflexivity|]. set_solver.
  - reflexivity.
Qed.

Lemma ejemplo_de_A_a_D_lista :
  dijkstra (Q := list (Z * nodo)) grafo_ejemplo "A" (Some "D") true
  = Devuelve distancias_ejemplo anterior_ejemplo ∧
  reconstruir_camino 3 anterior_ejemplo "A" "D" = Some (inl ["A"; "C"; "D"]) ∧
  distancias_ejemplo !! "D" = Some (Finita 5) ∧
  es_camino grafo_ejemplo "A" [("C", 2); ("D", 3)] "D" ∧
  peso_camino [("C", 2); ("D", 3)] = 5.
Proof. exact (ejemplo_de_A_a_D (Q := list (Z * nodo)) true 0). Defined.

(** C6. With weights that are not negative, in the state after any number
    [k] of iterations of the loop: no node has been added to [visitados]
    twice, the distances popped with the visited nodes grow in the order of
    the visits, and in every later state of the run the visits so far are
    still the first ones and the entry of each visited node in [distancias]
    is the distance it was popped with; within an iteration, no relaxation
    changes the entry of a visited node. The run ends in such a state. *)
Theorem asentamiento_unico_y_creciente {Q : Type} `{!Heapq Q, !HeapqLeyes Q}
    (grafo : gmap nodo (list (nodo * Z))) (inicio : nodo) (fin : option nodo)
    (mostrar_pasos : bool) (k : nat) :
  pesos_no_negativos grafo →
  let st := iterar k grafo fin mostrar_pasos
              (estado_inicial (Q := Q) grafo inicio) in
  NoDup (historial st).*1 ∧
  (∀ n, n ∈ visitados st ↔ n ∈ (historial st).*1) ∧
  (∀ i j ni di nj dj, (i ≤ j)%nat →
     historial st !! i = Some (ni, di) → historial st !! j = Some (nj, dj) →
     di ≤ dj) ∧
  (∀ k' n d, (k ≤ k')%nat → (n, d) ∈ historial st →
     let st' := iterar k' grafo fin mostrar_pasos
                  (estado_inicial (Q := Q) grafo inicio) in
     historial st `prefix_of` historial st' ∧
     distancias st' !! n = Some (Finita d)) ∧
  (∀ (s : estado Q) u d a x, x ∈ visitados s →
     distancias (estado_de (relajar mostrar_pasos u d s a)) !! x
     = distancias s !! x) ∧
  ∃ r, ejecutar (Q := Q) grafo inicio fin mostrar_pasos
       = Some (r, iterar (combustible_dijkstra grafo) grafo fin mostrar_pasos
                    (estado_inicial (Q := Q) grafo inicio)).
Proof.
  intros Hpos st.
  pose proof (iterar_inv_base grafo inicio k fin mostrar_pasos _
                (inv_base_inicial grafo inicio)) as Hinv.
  pose proof (iterar_inv_orden grafo k fin mostrar_pasos _ Hpos
                (inv_orden_inicial grafo inicio)) as Hord.
  split_and!.
  - apply (ib_nodup _ _ _ Hinv).
  - apply (ib_vis _ _ _ Hinv).
  - apply (io_orden _ Hord).
  - intros k' n d Hk Hn st'.
    pose proof (iterar_historial grafo k k' fin mostrar_pasos
                  (estado_inicial grafo inicio) Hk) as Hpre.
    split; [done|].
    pose proof (iterar_inv_base grafo inicio k' fin mostrar_pasos _
                  (inv_base_inicial grafo inicio)) as Hinv'.
    apply (ib_hist _ _ _ Hinv'). destruct Hpre as [l ->].
    apply elem_of_app. by left.
  - intros s u d a x Hx.
    by destruct (relajar_conserva mostrar_pasos s u d a) as (_ & _ & -> & _).
  - destruct (ejecutar_termina (Q := Q) grafo inicio fin mostrar_pasos)
      as [[r s] Hej].
    exists r. rewrite Hej. by apply bucle_iterar in Hej as ->.
Qed.

Lemma asentamiento_unico_y_creciente_ejemplo :
  let st := iterar 3 grafo_ejemplo (Some "D") true
              (estado_inicial (Q := list (Z * nodo)) grafo_ejemplo "A") in
  historial st = [("A", 0); ("C", 2); ("B", 4)] ∧
  NoDup (historial st).*1 ∧
  (∀ i j ni di nj dj, (i ≤ j)%nat →
     historial st !! i = Some (ni, di) → historial st !! j = Some (nj, dj) →
     di ≤ dj).
Proof.
  assert (pesos_no_negativos grafo_ejemplo) as Hpos.
  { apply comprobar_pesos_correcto. vm_compute. reflexivity. }
  destruct (asentamiento_unico_y_creciente (Q := list (Z * nodo))
              grafo_ejemplo "A" (Some "D") true 3 Hpos) as (H1 & _ & H3 & _).
  split_and!; [vm_compute; reflexivity|exact H1|exact H3].
Defined.

(** C7. When [dijkstra] returns and the destination is a key that no path
    from the source reaches: its distance is still infinite, its predecessor
    is still [None], and [reconstruir_camino] returns the empty list. (It
    holds whatever the weights and whatever destination [dijkstra] was
    given.) *)
Theorem destino_inalcanzable {Q : Type} `{!Heapq Q, !HeapqLeyes Q}
    (grafo : gmap nodo (list (nodo * Z))) (inicio : nodo) (fin : option nodo)
    (mostrar_pasos : bool) (dist : gmap nodo distancia)
    (ant : gmap nodo (option nodo)) (destino : nodo) (k : nat) :
  dijkstra (Q := Q) grafo inicio fin mostrar_pasos = Devuelve dist ant →
  destino ∈ dom grafo → ¬ alcanzable grafo inicio destino →
  dist !! destino = Some Infinita ∧ ant !! destino = Some None ∧
  reconstruir_camino (S k) ant inicio destino = Some (inl []).
Proof.
  intros (st & _ & -> & -> & Hinv)%dijkstra_devuelve Hdom Hno.
  assert (∀ d, distancias st !! destino ≠ Some (Finita d)) as Hfin.
  { intros d Hd. apply Hno, alcanzable_camino_de. exists d.
    by apply (ib_camino _ _ _ Hinv). }
  assert (anterior st !! destino = Some None) as Hant.
  { assert (is_Some (anterior st !! destino)) as [[u|] Hu]; [|exfalso|done].
    - apply elem_of_dom. by rewrite (ib_dom_ant _ _ _ Hinv).
    - destruct (ib_ant _ _ _ Hinv _ _ Hu) as (_ & _ & _ & d & Hd).
      by apply Hfin in Hd. }
  split_and!; [|done|].
  - assert (is_Some (distancias st !! destino)) as [[d|] Hd]; [| |done].
    + apply elem_of_dom. rewrite (ib_dom_dist _ _ _ Hinv). set_solver.
    + by apply Hfin in Hd.
  - rewrite reconstruir_camino_raiz by (done || lia).
    rewrite decide_False; [done|]. intros ->. apply Hno. by exists [].
Qed.

Lemma destino_inalcanzable_ejemplo :
  (<["A" := Finita 0]> (<["B" := Infinita]> ∅) : gmap nodo distancia)
    !! "B" = Some Infinita ∧
  (<["A" := None]> (<["B" := None]> ∅) : gmap nodo (option nodo))
    !! "B" = Some None ∧
  reconstruir_camino 1 (<["A" := None]> (<["B" := None]> ∅)) "A" "B"
  = Some (inl []).
Proof.
  apply (destino_inalcanzable (Q := list (Z * nodo))
           grafo_desconectado "A" (Some "B") true).
  - vm_compute. reflexivity.
  - vm_compute. eauto.
  - intros [[|[x c] p] Hp]; simpl in Hp; [discriminate Hp|].
    destruct Hp as [(vecinos & Hv & Hin) _].
    vm_compute in Hv. injection Hv as <-. by apply elem_of_nil in Hin.
Defined.

(** C8. When [dijkstra] returns, the path rebuilt from its predecessors
    from the source to the source is the list of that one node. The source
    is a key of the graph, as the preconditions of the specification and
    the check of [__main__] have it. *)
Theorem camino_de_inicio_a_inicio {Q : Type} `{!Heapq Q, !HeapqLeyes Q}
    (grafo : gmap nodo (list (nodo * Z))) (inicio : nodo) (fin : option nodo)
    (mostrar_pasos : bool) (dist : gmap nodo distancia)
    (ant : gmap nodo (option nodo)) (k : nat) :
  inicio ∈ dom grafo →
  dijkstra (Q := Q) grafo inicio fin mostrar_pasos = Devuelve dist ant →
  reconstruir_camino (S k) ant inicio inicio = Some (inl [inicio]).
Proof.
  intros Hdom (st & _ & -> & -> & Hinv)%dijkstra_devuelve.
  assert (anterior st !! inicio = Some None) as Hant.
  { assert (is_Some (anterior st !! inicio)) as [[u|] Hu]; [| |done].
    - apply elem_of_dom. by rewrite (ib_dom_ant _ _ _ Hinv).
    - by destruct (ib_ant _ _ _ Hinv _ _ Hu) as (_ & _ & ? & _). }
  rewrite reconstruir_camino_raiz by (done || lia).
  by rewrite decide_True.
Qed.

Lemma camino_de_inicio_a_inicio_ejemplo :
  reconstruir_camino 1 anterior_ejemplo "A" "A" = Some (inl ["A"]).
Proof.
  apply (camino_de_inicio_a_inicio (Q := list (Z * nodo))
           grafo_ejemplo "A" (Some "D") true distancias_ejemplo).
  - vm_compute. eauto.
  - vm_compute. reflexivity.
Defined.

(** C9. Two runs of [dijkstra] on the same graph, source, destination and
    flag return the same two maps (or raise the same exception), in whatever
    way [heapq] arranges the queue in each of them. *)
Theorem dijkstra_determinista {Q1 Q2 : Type} `{!Heapq Q1, !HeapqLeyes Q1}
    `{!Heapq Q2, !HeapqLeyes Q2}
    (grafo : gmap nodo (list (nodo * Z))) (inicio : nodo) (fin : option nodo)
    (mostrar_pasos : bool) :
  dijkstra (Q := Q1) grafo inicio fin mostrar_pasos
  = dijkstra (Q := Q2) grafo inicio fin mostrar_pasos.
Proof. apply dijkstra_parecidos. Qed.

Lemma dijkstra_determinista_ejemplo :
  dijkstra (Q := list (Z * nodo)) grafo_ejemplo "A" (Some "D") true
  = dijkstra (Q := cola_inversa) grafo_ejemplo "A" (Some "D") true.
Proof.
  exact (dijkstra_determinista (Q1 := list (Z * nodo)) (Q2 := cola_inversa)
           grafo_ejemplo "A" (Some "D") true).
Defined.

(** C10. When [dijkstra] returns, following its predecessors from any key
    of the graph reaches [None]: [reconstruir_camino] returns for every
    destination that is a key, with any fuel above some bound. (It holds
    whatever the weights.) *)
Theorem reconstruir_camino_siempre_termina {Q : Type} `{!Heapq Q, !HeapqLeyes Q}
    (grafo : gmap nodo (list (nodo * Z))) (inicio : nodo) (fin : option nodo)
    (mostrar_pasos : bool) (dist : gmap nodo distancia)
    (ant : gmap nodo (option nodo)) (origen destino : nodo) :
  dijkstra (Q := Q) grafo inicio fin mostrar_pasos = Devuelve dist ant →
  destino ∈ dom grafo →
  termina ant destino ∧
  ∃ k0 camino, ∀ k, (k0 ≤ k)%nat →
    reconstruir_camino k ant origen destino = Some (inl camino).
Proof.
  intros (st & _ & -> & -> & Hinv)%dijkstra_devuelve Hdom.
  pose proof (inv_base_termina _ _ _ _ Hinv Hdom) as Hter.
  split; [done|]. by apply reconstruir_camino_termina.
Qed.

Lemma reconstruir_camino_siempre_termina_ejemplo :
  termina anterior_ejemplo "D" ∧
  ∃ k0 camino, ∀ k, (k0 ≤ k)%nat →
    reconstruir_camino k anterior_ejemplo "A" "D" = Some (inl camino).
Proof.
  apply (reconstruir_camino_siempre_termina (Q := list (Z * nodo))
           grafo_ejemplo "A" (Some "D") true distancias_ejemplo).
  - vm_compute. reflexivity.
  - vm_compute. eauto.
Defined.

(** * Beyond the specification *)

(** ** The predecessors and the distances *)

Section PropiedadesPredecesores.
Context {Q : Type} `{!Heapq Q, !HeapqLeyes Q}.
Context (grafo : gmap nodo (list (nodo * Z))) (inicio : nodo).

Lemma inv_ant_inicial : inv_ant grafo inicio (estado_inicial (Q := Q) grafo inicio).
Proof.
  constructor; simpl.
  - intros v u. rewrite lookup_fmap. by destruct (grafo !! v).
  - intros v d Hv Hne. rewrite lookup_insert_ne, lookup_fmap in Hv by done.
    by destruct (grafo !! v).
Qed.

Lemma inv_ant_relajar mostrar_pasos (st : estado Q) u d v c :
  inv_base grafo inicio st → inv_ant grafo inicio st →
  u ∈ visitados st → distancias st !! u = Some (Finita d) →
  arista grafo u v c →
  inv_ant grafo inicio (estado_de (relajar mostrar_pasos u d st (v, c))).
Proof.
  intros Hinv Hant Hu Hdu Harista.
  destruct (relajar_casos mostrar_pasos u d st v c)
    as [[-> _]|[[-> _]|(-> & Hv & x & Hx & Hm)]]; [done..|].
  simpl. destruct Hant as [Har Hra]. constructor; simpl.
  - intros v0 u0 Hvu. destruct (decide (v = v0)) as [->|Hne].
    + rewrite lookup_insert_eq in Hvu. injection Hvu as <-.
      exists d, c. rewrite lookup_insert_eq.
      rewrite lookup_insert_ne by (by intros ->). done.
    + rewrite lookup_insert_ne in Hvu by done.
      destruct (Har _ _ Hvu) as (du & c0 & Hdu0 & Ha & Hdv).
      destruct (ib_ant _ _ _ Hinv _ _ Hvu) as (Hu0 & _).
      exists du, c0. rewrite !lookup_insert_ne; [done|done|].
      by intros ->.
  - intros v0 d0 Hd0 Hne0. destruct (decide (v = v0)) as [->|Hne].
    + exists u. by rewrite lookup_insert_eq.
    + rewrite lookup_insert_ne in Hd0 by done.
      rewrite lookup_insert_ne by done. eauto.
Qed.

Lemma iteracion_inv_ant fin mostrar_pasos (st st' : estado Q) f :
  inv_base grafo inicio st → inv_ant grafo inicio st →
  iteracion grafo fin mostrar_pasos st = Some (f, st') →
  inv_ant grafo inicio st'.
Proof.
  intros Hinv Hant. unfold iteracion.
  destruct (heappop (cola st)) as [[[d n] c']|] eqn:Hpop; [|done]. simpl.
  destruct (decide (n ∈ visitados st)) as [Hn|Hn].
  { intros [= <- <-]. by destruct Hant. }
  pose proof (pop_distancia _ _ _ _ _ _ Hinv Hpop Hn) as Hdn.
  destruct (inv_base_visitar _ _ _ _ _ _ Hinv Hpop Hn) as [Hinv1 Hini1].
  match goal with |- context [decide (fin = Some n)] =>
    match goal with |- context [if mostrar_pasos then ?a else ?b] =>
      set (st2 := if mostrar_pasos then a else b) end end.
  assert (inv_base grafo inicio st2 ∧ inicio ∈ visitados st2 ∧
          n ∈ visitados st2 ∧ distancias st2 !! n = Some (Finita d) ∧
          inv_ant grafo inicio st2) as Hst2.
  { unfold st2. destruct mostrar_pasos; simpl;
      (split_and!; [|done|set_solver|done|by destruct Hant]); [|done].
    by apply inv_base_imprimir. }
  destruct (decide (fin = Some n)); [intros [= <- <-]; apply Hst2|].
  destruct (grafo !! n) as [vecinos|] eqn:Hg; [|intros [= <- <-]; apply Hst2].
  assert (inv_ant grafo inicio (estado_de
            (relajar_vecinos mostrar_pasos n d vecinos st2))) as Hfin.
  { apply (relajar_vecinos_inv (λ s, inv_base grafo inicio s ∧
             inicio ∈ visitados s ∧ n ∈ visitados s ∧
             distancias s !! n = Some (Finita d) ∧ inv_ant grafo inicio s));
      [|done].
    intros s [v c] Ha (Hs & Hi & Hns & Hds & Has).
    destruct (relajar_conserva mostrar_pasos s n d (v, c))
      as (Hv' & _ & Hd' & _).
    assert (arista grafo n v c) as Har by (by exists vecinos).
    split_and!.
    - eapply inv_base_relajar; eauto.
    - by rewrite Hv'.
    - by rewrite Hv'.
    - by rewrite Hd'.
    - by apply inv_ant_relajar. }
  destruct (relajar_vecinos mostrar_pasos n d vecinos st2);
    intros [= <- <-]; apply Hfin.
Qed.

Lemma bucle_inv_ant k fin mostrar_pasos (st st' : estado Q) r :
  inv_base grafo inicio st → inv_ant grafo inicio st →
  bucle k grafo fin mostrar_pasos st = Some (r, st') →
  inv_ant grafo inicio st'.
Proof.
  revert st. induction k as [|k IH]; intros st Hinv Hant; [done|]. simpl.
  destruct (iteracion grafo fin mostrar_pasos st) as [[[| |e] s]|] eqn:Hit.
  - apply IH.
    + eapply iteracion_inv_base; eauto.
    + eapply iteracion_inv_ant; eauto.
  - intros [= <- <-]. eapply iteracion_inv_ant; eauto.
  - intros [= <- <-]. eapply iteracion_inv_ant; eauto.
  - by intros [= <- <-].
Qed.

Lemma dijkstra_devuelve_ant fin mostrar_pasos dist ant :
  dijkstra (Q := Q) grafo inicio fin mostrar_pasos = Devuelve dist ant →
  ∃ st, dist = distancias st ∧ ant = anterior st ∧
        inv_base grafo inicio st ∧ inv_ant grafo inicio st.
Proof.
  intros (st & Hej & -> & -> & Hinv)%dijkstra_devuelve.
  exists st. split_and!; try done.
  eapply bucle_inv_ant; [| |exact Hej].
  - apply inv_base_inicial.
  - apply inv_ant_inicial.
Qed.

(** *** Leaving the loop at the destination *)

Lemma iteracion_corta fin mostrar_pasos (st st' : estado Q) :
  iteracion grafo fin mostrar_pasos st = Some (Corta, st') →
  ∃ d n c', heappop (cola st) = Some ((d, n), c') ∧ (n ∉ visitados st) ∧
            fin = Some n ∧ distancias st' = distancias st ∧
            historial st' = historial st ++ [(n, d)].
Proof.
  unfold iteracion.
  destruct (heappop (cola st)) as [[[d n] c']|] eqn:Hpop; [|done]. simpl.
  destruct (decide (n ∈ visitados st)) as [Hn|Hn]; [done|].
  destruct (decide (fin = Some n)) as [Hfin|Hfin].
  - intros [= <-]. exists d, n, c'. by destruct mostrar_pasos.
  - destruct (grafo !! n) as [vecinos|]; [|done].
    by destruct (relajar_vecinos _ _ _ _ _).
Qed.

Lemma bucle_minimo_destino k destino mostrar_pasos (st st' : estado Q) :
  pesos_no_negativos grafo →
  inv_base grafo inicio st → inv_orden st → inv_rel grafo st →
  bucle k grafo (Some destino) mostrar_pasos st = Some (None, st') →
  ∀ w, camino_de grafo inicio destino w →
       ∃ d, distancias st' !! destino = Some (Finita d) ∧ d ≤ w.
Proof.
  intros Hpos. revert st. induction k as [|k IH];
    intros st Hinv Hord Hrel; [done|]. simpl.
  destruct (iteracion grafo (Some destino) mostrar_pasos st)
    as [[[| |e] s]|] eqn:Hit.
  - apply IH.
    + eapply iteracion_inv_base; eauto.
    + eapply iteracion_inv_orden; eauto.
    + eapply iteracion_inv_rel; eauto.
  - intros [= <-] w Hw.
    apply iteracion_corta in Hit
      as (d & n & c' & Hpop & Hn & [= <-] & Hd & _).
    pose proof (pop_distancia _ _ _ _ _ _ Hinv Hpop Hn) as Hdn.
    exists d. rewrite Hd. split; [done|].
    destruct (cota_inferior _ _ _ _ _ Hpos Hinv Hrel Hw)
      as (y & dy & Hy & Hle & Hyn).
    assert (y ∉ visitados st) as Hyv by (intros Hyv; by rewrite (Hyn Hyv) in Hyv).
    pose proof (ib_pend _ _ _ Hinv _ _ Hy Hyv) as Hin.
    apply heappop_pendientes in Hpop as (_ & Hmin & _).
    apply Hmin, entrada_le_dist in Hin. simpl in Hin. lia.
  - done.
  - intros [= <-] w Hw. apply iteracion_vacia in Hit.
    destruct (cota_inferior _ _ _ _ _ Hpos Hinv Hrel Hw)
      as (y & dy & Hy & Hle & Hyn).
    destruct (decide (y ∈ visitados st)) as [Hvis|Hvis].
    + rewrite <- (Hyn Hvis). eauto.
    + pose proof (ib_pend _ _ _ Hinv _ _ Hy Hvis) as Hin.
      rewrite Hit in Hin. by apply elem_of_nil in Hin.
Qed.

End PropiedadesPredecesores.

(** ** [reconstruir_camino] on any map of predecessors *)

Section Cadenas.
Context (ant : gmap nodo (option nodo)).

Lemma cadena_seguir n l e :
  cadena ant n l e →
  ∀ k acc, (length l ≤ k)%nat →
    seguir k ant (Some n) acc = Some (resultado_cadena acc l e).
Proof.
  induction 1 as [n Hn|n Hn|n u l e Hn _ IH]; intros [|k] acc Hk;
    simpl in Hk; try lia; simpl; rewrite Hn.
  - by rewrite seguir_None.
  - done.
  - rewrite IH by lia. destruct e; simpl; [done|].
    by rewrite <- app_assoc.
Qed.

Lemma seguir_cadena k n acc r :
  seguir k ant (Some n) acc = Some r →
  ∃ l e, cadena ant n l e ∧ (length l ≤ k)%nat.
Proof.
  revert n acc. induction k as [|k IH]; intros n acc; [done|]. simpl.
  destruct (ant !! n) as [[u|]|] eqn:Hn.
  - intros (l & e & Hl & Hlen)%IH. exists (n :: l), e.
    split; [by eapply cadena_sig|simpl; lia].
  - intros _. exists [n], None. split; [by constructor|simpl; lia].
  - intros _. exists [n], (Some (KeyError n)).
    split; [by constructor|simpl; lia].
Qed.

Lemma cadena_fun n l e l' e' :
  cadena ant n l e → cadena ant n l' e' → l = l' ∧ e = e'.
Proof.
  intros H. revert l' e'.
  induction H as [n Hn|n Hn|n u l e Hn _ IH]; intros l' e' H';
    inversion H' as [n1 Hn1|n1 Hn1|n1 u1 l1 e1 Hn1 Hc1]; simplify_eq;
    try done.
  destruct (IH _ _ Hc1) as [-> ->]. done.
Qed.

Lemma cadena_sufijo n l e pre x resto :
  cadena ant n l e → l = pre ++ x :: resto → cadena ant x (x :: resto) e.
Proof.
  intros H. revert pre.
  induction H as [n Hn|n Hn|n u l e Hn H IH]; intros pre Hl.
  - destruct pre as [|y [|??]]; simplify_eq/=. by constructor.
  - destruct pre as [|y [|??]]; simplify_eq/=. by constructor.
  - destruct pre as [|y pre]; simplify_eq/=.
    + by eapply cadena_sig.
    + by eapply IH.
Qed.

Lemma cadena_NoDup n l e : cadena ant n l e → NoDup l.
Proof.
  induction 1 as [n Hn|n Hn|n u l e Hn H IH].
  - apply NoDup_singleton.
  - apply NoDup_singleton.
  - constructor; [|done]. intros Hin.
    apply list_elem_of_split in Hin as (pre & resto & ->).
    pose proof (cadena_sufijo _ _ _ _ _ _ H eq_refl) as Hsuf.
    assert (cadena ant n (n :: pre ++ n :: resto) e) as Hn'
      by (by eapply cadena_sig).
    destruct (cadena_fun _ _ _ _ _ Hsuf Hn') as [Heq _].
    apply (f_equal length) in Heq. simpl in Heq.
    rewrite length_app in Heq. simpl in Heq. lia.
Qed.

(** All the nodes of a chain but the last one are keys of the map. *)
Lemma cadena_claves n l e :
  cadena ant n l e →
  ∃ l0 z, l = l0 ++ [z] ∧ ∀ x, x ∈ l0 → x ∈ dom ant.
Proof.
  induction 1 as [n Hn|n Hn|n u l e Hn _ (l0 & z & -> & Hl0)].
  - exists [], n. split; [done|]. intros x Hx. by apply elem_of_nil in Hx.
  - exists [], n. split; [done|]. intros x Hx. by apply elem_of_nil in Hx.
  - exists (n :: l0), z. split; [done|].
    intros x [->|Hx]%elem_of_cons; [|by auto].
    apply elem_of_dom. eauto.
Qed.

Lemma cadena_longitud n l e :
  cadena ant n l e → (length l ≤ S (size ant))%nat.
Proof.
  intros H. pose proof (cadena_NoDup _ _ _ H) as Hnd.
  destruct (cadena_claves _ _ _ H) as (l0 & z & -> & Hl0).
  apply NoDup_app in Hnd as (Hnd & _ & _).
  rewrite length_app. simpl.
  assert (length l0 ≤ size ant)%nat; [|lia].
  rewrite <- size_dom, <- (size_list_to_set (C := gset nodo) l0) by done.
  apply subseteq_size. intros x Hx%elem_of_list_to_set. auto.
Qed.

(** If the loop ends with some fuel, it ends with [size anterior + 1]. *)
Lemma seguir_suficiente k k' n acc r :
  seguir k ant (Some n) acc = Some r → (S (size ant) ≤ k')%nat →
  seguir k' ant (Some n) acc = Some r.
Proof.
  intros Hk Hk'. pose proof Hk as (l & e & Hl & Hlen)%seguir_cadena.
  rewrite (cadena_seguir _ _ _ Hl) in Hk by done. injection Hk as <-.
  apply (cadena_seguir _ _ _ Hl). apply cadena_longitud in Hl. lia.
Qed.

Lemma enlazado_snoc l u n :
  enlazado ant l → last l = Some u → ant !! n = Some (Some u) →
  enlazado ant (l ++ [n]).
Proof.
  induction l as [|a [|b l] IH]; intros Hl Hu Hn; [done|..].
  - simpl in Hu. injection Hu as ->. done.
  - destruct Hl as [Hab Hl]. split; [done|]. by apply IH.
Qed.

(** The list of a chain that ends well, reversed: it starts at a node
    without predecessor, ends at [n], and is linked. *)
Lemma cadena_inversa n l e :
  cadena ant n l e → e = None →
  ∃ r, head (reverse l) = Some r ∧ ant !! r = Some None ∧
       last (reverse l) = Some n ∧ enlazado ant (reverse l).
Proof.
  induction 1 as [n Hn|n Hn|n u l e Hn _ IH]; intros He; [|done|].
  - exists n. done.
  - destruct (IH He) as (r & Hr & Hant & Hlast & Henl).
    exists r. rewrite reverse_cons. split_and!; [|done| |].
    + by destruct (reverse l).
    + apply last_snoc.
    + by eapply enlazado_snoc.
Qed.

Lemma cadena_error_clave n l z :
  cadena ant n l (Some (KeyError z)) →
  ant !! z = None ∧ (z = n ∨ ∃ v, ant !! v = Some (Some z)).
Proof.
  remember (Some (KeyError z)) as e eqn:He.
  induction 1 as [n Hn|n Hn|n u l e Hn H IH]; [done| |].
  - injection He as ->. auto.
  - destruct (IH He) as [Hz [->|?]]; eauto.
Qed.

End Cadenas.

Lemma reconstruir_camino_cadena k (ant : gmap nodo (option nodo)) inicio fin r :
  reconstruir_camino k ant inicio fin = Some r →
  ∃ l e, cadena ant fin l e ∧ (length l ≤ k)%nat ∧
         seguir k ant (Some fin) [] = Some (resultado_cadena [] l e).
Proof.
  unfold reconstruir_camino.
  destruct (seguir k ant (Some fin) []) as [r0|] eqn:Hseg; [|done].
  intros _. pose proof Hseg as (l & e & Hl & Hlen)%seguir_cadena.
  exists l, e. split_and!; [done..|].
  rewrite <- Hseg. by apply cadena_seguir.
Qed.

Lemma es_camino_snoc grafo u p x v c :
  es_camino grafo u p x → arista grafo x v c →
  es_camino grafo u (p ++ [(v, c)]) v.
Proof.
  revert u. induction p as [|[y j] p IH]; simpl; intros u.
  - intros <- Ha. done.
  - intros [Hy Hp] Ha. split; [done|]. by apply IH.
Qed.

Lemma peso_camino_snoc p v c :
  peso_camino (p ++ [(v, c)]) = peso_camino p + c.
Proof.
  unfold peso_camino. induction p as [|[y j] p IH]; simpl; [lia|].
  rewrite IH. lia.
Qed.

Lemma aristas_camino_cons a b resto :
  aristas_camino (a :: b :: resto) = (a, b) :: aristas_camino (b :: resto).
Proof. done. Qed.

Lemma es_camino_aristas grafo u p v :
  es_camino grafo u p v →
  ∀ a b, (a, b) ∈ aristas_camino (u :: p.*1) → ∃ c, arista grafo a b c.
Proof.
  revert u. induction p as [|[x c] p IH]; intros u Hp a b.
  - simpl. intros H. by apply elem_of_nil in H.
  - destruct Hp as [Hx Hp]. cbn [fmap list_fmap fst].
    rewrite aristas_camino_cons.
    intros [[= -> ->]|Hin]%elem_of_cons; [by exists c|].
    by eapply IH.
Qed.

Lemma elem_of_aristas_de_G grafo u v c :
  (u, v, c) ∈ aristas_de_G grafo ↔ arista grafo u v c.
Proof.
  unfold aristas_de_G, arista. rewrite list_elem_of_bind. split.
  - intros ([o vs] & Hin & Hm). simpl in Hin.
    apply list_elem_of_fmap in Hin as ([d w] & [= -> -> ->] & Hd).
    apply elem_of_map_to_list in Hm. eauto.
  - intros (vs & Hu & Hv). exists (u, vs). split.
    + simpl. apply list_elem_of_fmap. by exists (v, c).
    + by apply elem_of_map_to_list.
Qed.

Lemma elem_of_nodos_de_G grafo n :
  n ∈ nodos_de_G grafo ↔
  ∃ u v c, arista grafo u v c ∧ (n = u ∨ n = v).
Proof.
  unfold nodos_de_G. rewrite elem_of_list_to_set, list_elem_of_bind. split.
  - intros ([[u v] c] & Hn & He%elem_of_aristas_de_G). simpl in Hn.
    exists u, v, c. split; [done|]. set_solver.
  - intros (u & v & c & Ha & Hn). exists (u, v, c).
    split; [simpl; set_solver|]. by apply elem_of_aristas_de_G.
Qed.

Lemma reconstruir_camino_suficiente k k' (ant : gmap nodo (option nodo))
    inicio fin r :
  reconstruir_camino k ant inicio fin = Some r → (S (size ant) ≤ k')%nat →
  reconstruir_camino k' ant inicio fin = Some r.
Proof.
  unfold reconstruir_camino. intros Hk Hk'.
  destruct (seguir k ant (Some fin) []) as [r0|] eqn:Hseg; [|done].
  by rewrite (seguir_suficiente _ _ _ _ _ _ Hseg Hk').
Qed.

(** ** The route rebuilt from the maps that [dijkstra] returns *)

Section Reconstruccion.
Context {Q : Type} `{!Heapq Q, !HeapqLeyes Q}.
Context (grafo : gmap nodo (list (nodo * Z))) (inicio : nodo).

Lemma camino_reconstruido (st : estado Q) t :
  inv_base grafo inicio st → inv_ant grafo inicio st →
  termina (anterior st) t →
  ∀ d, distancias st !! t = Some (Finita d) →
  ∃ p, es_camino grafo inicio p t ∧ peso_camino p = d ∧
       ∀ k acc, (S (length p) ≤ k)%nat →
         seguir k (anterior st) (Some t) acc
         = Some (inl (acc ++ reverse (inicio :: p.*1))).
Proof.
  intros Hinv Hant. induction 1 as [n Hn|n u Hn _ IH]; intros d Hd.
  - assert (n = inicio) as ->.
    { destruct (decide (n = inicio)) as [|Hne]; [done|].
      destruct (ia_raiz _ _ _ Hant _ _ Hd Hne) as (u & Hu). congruence. }
    rewrite (ib_inicio _ _ _ Hinv) in Hd. injection Hd as <-.
    exists []. split_and!; [done..|].
    intros [|k] acc Hk; [simpl in Hk; lia|]. simpl.
    by rewrite Hn, seguir_None.
  - destruct (ia_arista _ _ _ Hant _ _ Hn) as (du & c & Hdu & Ha & Hdn).
    rewrite Hdn in Hd. injection Hd as <-.
    destruct (IH _ Hdu) as (p & Hp & Hw & Hseg).
    exists (p ++ [(n, c)]). split_and!.
    + by eapply es_camino_snoc.
    + rewrite peso_camino_snoc. lia.
    + intros [|k] acc Hk; [simpl in Hk; lia|]. simpl. rewrite Hn.
      rewrite length_app in Hk. simpl in Hk. rewrite Hseg by lia.
      rewrite fmap_app. simpl.
      rewrite (app_comm_cons (p.*1) [n] inicio), reverse_snoc.
      by rewrite <- app_assoc.
Qed.

Lemma dijkstra_camino fin mostrar_pasos dist ant t d :
  dijkstra (Q := Q) grafo inicio fin mostrar_pasos = Devuelve dist ant →
  t ∈ dom grafo → dist !! t = Some (Finita d) →
  ∃ p, es_camino grafo inicio p t ∧ peso_camino p = d ∧
       reconstruir ant inicio t = Some (inl (inicio :: p.*1)) ∧
       ∀ k, (S (length p) ≤ k)%nat →
            reconstruir_camino k ant inicio t = Some (inl (inicio :: p.*1)).
Proof.
  intros (st & -> & -> & Hinv & Hant)%dijkstra_devuelve_ant Hdom Hd.
  pose proof (inv_base_termina _ _ _ _ Hinv Hdom) as Hter.
  destruct (camino_reconstruido _ _ Hinv Hant Hter _ Hd)
    as (p & Hp & Hw & Hseg).
  assert (∀ k, (S (length p) ≤ k)%nat →
            reconstruir_camino k (anterior st) inicio t
            = Some (inl (inicio :: p.*1))) as Hrec.
  { intros k Hk. unfold reconstruir_camino. rewrite Hseg by done. simpl.
    rewrite reverse_involutive. by rewrite decide_True. }
  exists p. split_and!; [done..| |done].
  eapply reconstruir_camino_suficiente; [by apply (Hrec (S (length p)))|].
  done.
Qed.

Lemma dijkstra_camino_vacio fin mostrar_pasos dist ant t :
  dijkstra (Q := Q) grafo inicio fin mostrar_pasos = Devuelve dist ant →
  t ∈ dom grafo →
  reconstruir ant inicio t = Some (inl []) ↔ dist !! t = Some Infinita.
Proof.
  intros Hrun Hdom.
  pose proof Hrun as (st & -> & -> & Hinv & Hant)%dijkstra_devuelve_ant.
  assert (is_Some (distancias st !! t)) as [[d|] Hd].
  { apply elem_of_dom. rewrite (ib_dom_dist _ _ _ Hinv). set_solver. }
  - destruct (dijkstra_camino _ _ _ _ _ _ Hrun Hdom Hd) as (p & _ & _ & Hr & _).
    rewrite Hr, Hd. split; intros [=].
  - split; [done|]. intros _. unfold reconstruir.
    assert (anterior st !! t = Some None) as Ht.
    { assert (is_Some (anterior st !! t)) as [[u|] Hu]; [| |done].
      - apply elem_of_dom. by rewrite (ib_dom_ant _ _ _ Hinv).
      - destruct (ib_ant _ _ _ Hinv _ _ Hu) as (_ & _ & _ & d & Hd').
        congruence. }
    rewrite reconstruir_camino_raiz by (done || lia).
    rewrite decide_False; [done|]. intros ->.
    rewrite (ib_inicio _ _ _ Hinv) in Hd. done.
Qed.

End Reconstruccion.

(** ** What is printed first *)

Section PrimerPaso.
Context {Q : Type} `{!Heapq Q, !HeapqLeyes Q}.
Context (grafo : gmap nodo (list (nodo * Z))).

Lemma relajar_vecinos_salida mostrar_pasos u d vecinos (st : estado Q) :
  salida st `prefix_of`
    salida (estado_de (relajar_vecinos mostrar_pasos u d vecinos st)).
Proof.
  apply (relajar_vecinos_inv (λ s, salida st `prefix_of` salida s)); [|done].
  intros s [v c] _ Hs.
  destruct (relajar_casos mostrar_pasos u d s v c)
    as [[-> _]|[[-> _]|[-> _]]]; [done..|].
  simpl. destruct mostrar_pasos; [|done].
  etrans; [exact Hs|]. by apply prefix_app_r.
Qed.

Lemma iteracion_salida fin mostrar_pasos (st st' : estado Q) f :
  iteracion grafo fin mostrar_pasos st = Some (f, st') →
  salida st `prefix_of` salida st'.
Proof.
  unfold iteracion.
  destruct (heappop (cola st)) as [[[d n] c']|]; [|done]. simpl.
  destruct (decide (n ∈ visitados st)); [by intros [= <- <-]|].
  match goal with |- context [decide (fin = Some n)] =>
    match goal with |- context [if mostrar_pasos then ?a else ?b] =>
      set (st2 := if mostrar_pasos then a else b) end end.
  assert (salida st `prefix_of` salida st2) as H2.
  { unfold st2. destruct mostrar_pasos; simpl; [|done]. by apply prefix_app_r. }
  destruct (decide (fin = Some n)); [by intros [= <- <-]|].
  destruct (grafo !! n) as [vecinos|]; [|by intros [= <- <-]].
  pose proof (relajar_vecinos_salida mostrar_pasos n d vecinos st2) as H3.
  destruct (relajar_vecinos mostrar_pasos n d vecinos st2);
    intros [= <- <-]; by etrans.
Qed.

Lemma bucle_salida k fin mostrar_pasos (st st' : estado Q) r :
  bucle k grafo fin mostrar_pasos st = Some (r, st') →
  salida st `prefix_of` salida st'.
Proof.
  revert st. induction k as [|k IH]; intros st; [done|]. simpl.
  destruct (iteracion grafo fin mostrar_pasos st) as [[[| |e] s]|] eqn:Hit;
    try (intros [= <- <-]; by eapply iteracion_salida).
  - intros Hb. etrans; [by eapply iteracion_salida|by apply IH].
  - by intros [= <- <-].
Qed.

Lemma iteracion_inicial inicio fin :
  ∃ f st1,
    iteracion grafo fin true (estado_inicial (Q := Q) grafo inicio)
    = Some (f, st1) ∧
    [ImprimePaso 0 inicio 0 (<[inicio := Finita 0]> ((λ _, Infinita) <$> grafo))]
      `prefix_of` salida st1.
Proof.
  unfold iteracion. cbn [cola estado_inicial].
  destruct (heappop_lista (Q := Q) (0, inicio)) as (c' & -> & _). simpl.
  destruct (decide (fin = Some inicio)); [by eauto|].
  destruct (grafo !! inicio) as [vecinos|]; [|by eauto].
  match goal with |- context [relajar_vecinos _ _ _ _ ?s] => set (st2 := s) end.
  pose proof (relajar_vecinos_salida true inicio 0 vecinos st2) as H.
  destruct (relajar_vecinos true inicio 0 vecinos st2); eauto.
Qed.

End PrimerPaso.

Lemma dijkstra_minimo_destino {Q : Type} `{!Heapq Q, !HeapqLeyes Q}
    grafo inicio destino mostrar_pasos dist ant :
  pesos_no_negativos grafo →
  dijkstra (Q := Q) grafo inicio (Some destino) mostrar_pasos
  = Devuelve dist ant →
  alcanzable grafo inicio destino →
  ∃ d, dist !! destino = Some (Finita d) ∧ camino_de grafo inicio destino d ∧
       ∀ w, camino_de grafo inicio destino w → d ≤ w.
Proof.
  intros Hpos Hrun [w0 Hw0]%alcanzable_camino_de.
  apply dijkstra_devuelve in Hrun as (st & Hej & -> & _ & Hinv).
  pose proof (bucle_minimo_destino grafo inicio _ _ _ _ _ Hpos
                (inv_base_inicial grafo inicio) (inv_orden_inicial grafo inicio)
                (inv_rel_inicial grafo inicio) Hej) as Hmin.
  destruct (Hmin _ Hw0) as (d & Hd & _).
  exists d. split_and!; [done|by apply (ib_camino _ _ _ Hinv)|].
  intros w Hw. destruct (Hmin _ Hw) as (d' & Hd' & Hle). congruence.
Qed.

Lemma es_camino_nodos grafo u p v :
  es_camino grafo u p v → p ≠ [] →
  ∀ n, n ∈ u :: p.*1 → ∃ a b c, arista grafo a b c ∧ (n = a ∨ n = b).
Proof.
  revert u. induction p as [|[x c] p IH]; intros u Hp Hne n Hn; [done|].
  destruct Hp as [Hx Hp]. cbn [fmap list_fmap fst] in Hn.
  apply elem_of_cons in Hn as [->|Hn]; [by eauto 10|].
  destruct p as [|e p].
  - simpl in Hn. apply list_elem_of_singleton in Hn as ->. by eauto 10.
  - by eapply IH.
Qed.

Lemma reconstruir_clave (ant : gmap nodo (option nodo)) inicio fin k camino :
  reconstruir_camino k ant inicio fin = Some (inl camino) → fin ∈ dom ant.
Proof.
  unfold reconstruir_camino. destruct k as [|k]; [done|]. simpl.
  destruct (ant !! fin) as [a|] eqn:Hfin; [|done].
  intros _. apply elem_of_dom. eauto.
Qed.

(** ** The properties *)

(** X1. Leaving the loop at the destination is sound: on a graph whose
    weights are not negative, when [dijkstra(grafo, inicio, fin)] returns
    and [fin] is reachable, the entry of [fin] is the least weight of a path
    from [inicio] to [fin], although the loop stopped at [fin]. *)
Theorem salida_anticipada_minima {Q : Type} `{!Heapq Q, !HeapqLeyes Q}
    (grafo : gmap nodo (list (nodo * Z))) (inicio destino : nodo)
    (mostrar_pasos : bool) (dist : gmap nodo distancia)
    (ant : gmap nodo (option nodo)) :
  pesos_no_negativos grafo →
  dijkstra (Q := Q) grafo inicio (Some destino) mostrar_pasos
  = Devuelve dist ant →
  alcanzable grafo inicio destino →
  ∃ d p, dist !! destino = Some (Finita d) ∧
         es_camino grafo inicio p destino ∧ peso_camino p = d ∧
         ∀ p', es_camino grafo inicio p' destino → d ≤ peso_camino p'.
Proof.
  intros Hpos Hrun Hreach.
  destruct (dijkstra_minimo_destino _ _ _ _ _ _ Hpos Hrun Hreach)
    as (d & Hd & (p & Hp & Hw)%camino_de_es_camino & Hmin).
  exists d, p. split_and!; try done.
  intros p' Hp'. apply Hmin, camino_de_es_camino. eauto.
Qed.

Lemma salida_anticipada_minima_ejemplo :
  ∃ d p, distancias_ejemplo !! "D" = Some (Finita d) ∧
         es_camino grafo_ejemplo "A" p "D" ∧ peso_camino p = d ∧
         ∀ p', es_camino grafo_ejemplo "A" p' "D" → d ≤ peso_camino p'.
Proof.
  apply (salida_anticipada_minima (Q := list (Z * nodo))
           grafo_ejemplo "A" "D" false distancias_ejemplo anterior_ejemplo).
  - apply comprobar_pesos_correcto. vm_compute. reflexivity.
  - vm_compute. reflexivity.
  - exists [("C", 2); ("D", 3)]. simpl. split_and!; [| |reflexivity].
    + eexists. split; [vm_compute; reflexivity|]. set_solver.
    + eexists. split; [vm_compute; reflexivity|]. set_solver.
Defined.

(** X2. The loop of [dijkstra] ends for every graph, source and
    destination, whatever the weights and the keys: after at most as many
    iterations as the graph has edges, plus two. With that much fuel or
    more the loop gives the result of [dijkstra]. *)
Theorem bucle_acotado {Q : Type} `{!Heapq Q, !HeapqLeyes Q}
    (grafo : gmap nodo (list (nodo * Z))) (inicio : nodo) (fin : option nodo)
    (mostrar_pasos : bool) (k : nat) :
  (aristas grafo + 2 ≤ k)%nat →
  ∃ r st,
    bucle k grafo fin mostrar_pasos (estado_inicial (Q := Q) grafo inicio)
    = Some (r, st) ∧
    ejecutar (Q := Q) grafo inicio fin mostrar_pasos = Some (r, st) ∧
    dijkstra (Q := Q) grafo inicio fin mostrar_pasos
    = match r with
      | None => Devuelve (distancias st) (anterior st)
      | Some e => Excepcion e
      end.
Proof.
  intros Hk.
  destruct (ejecutar_termina (Q := Q) grafo inicio fin mostrar_pasos)
    as [[r st] Hej].
  exists r, st. split_and!; [|done|].
  - unfold ejecutar, combustible_dijkstra in Hej.
    replace k with (S (S (aristas grafo)) + (k - S (S (aristas grafo))))%nat
      by lia.
    by apply bucle_mas_combustible.
  - unfold dijkstra. rewrite Hej. by destruct r.
Qed.

Lemma bucle_acotado_ejemplo :
  ∃ r st,
    bucle 7 grafo_ejemplo (Some "D") true
      (estado_inicial (Q := list (Z * nodo)) grafo_ejemplo "A")
    = Some (r, st) ∧
    ejecutar (Q := list (Z * nodo)) grafo_ejemplo "A" (Some "D") true
    = Some (r, st) ∧
    dijkstra (Q := list (Z * nodo)) grafo_ejemplo "A" (Some "D") true
    = match r with
      | None => Devuelve (distancias st) (anterior st)
      | Some e => Excepcion e
      end.
Proof.
  apply (bucle_acotado (Q := list (Z * nodo)) grafo_ejemplo "A" (Some "D")
           true 7).
  apply Nat.leb_le. vm_compute. reflexivity.
Defined.

(** X3. In the maps that [dijkstra] returns, whatever the weights: the
    source has distance 0, [distancias] has the keys of the graph and the
    source, [anterior] has the keys of the graph, and every finite distance
    is the weight of a path of the graph from the source to that node. *)
Theorem mapas_devueltos {Q : Type} `{!Heapq Q, !HeapqLeyes Q}
    (grafo : gmap nodo (list (nodo * Z))) (inicio : nodo) (fin : option nodo)
    (mostrar_pasos : bool) (dist : gmap nodo distancia)
    (ant : gmap nodo (option nodo)) :
  dijkstra (Q := Q) grafo inicio fin mostrar_pasos = Devuelve dist ant →
  dist !! inicio = Some (Finita 0) ∧
  dom dist = {[inicio]} ∪ dom grafo ∧
  dom ant = dom grafo ∧
  ∀ n d, dist !! n = Some (Finita d) →
         ∃ p, es_camino grafo inicio p n ∧ peso_camino p = d.
Proof.
  intros (st & _ & -> & -> & Hinv)%dijkstra_devuelve.
  split_and!.
  - apply (ib_inicio _ _ _ Hinv).
  - apply (ib_dom_dist _ _ _ Hinv).
  - apply (ib_dom_ant _ _ _ Hinv).
  - intros n d Hd. apply camino_de_es_camino. by apply (ib_camino _ _ _ Hinv).
Qed.

Lemma mapas_devueltos_ejemplo :
  distancias_ejemplo !! "A" = Some (Finita 0) ∧
  dom distancias_ejemplo = {["A"]} ∪ dom grafo_ejemplo ∧
  dom anterior_ejemplo = dom grafo_ejemplo ∧
  ∀ n d, distancias_ejemplo !! n = Some (Finita d) →
         ∃ p, es_camino grafo_ejemplo "A" p n ∧ peso_camino p = d.
Proof.
  apply (mapas_devueltos (Q := list (Z * nodo)) grafo_ejemplo "A" (Some "D")
           true).
  vm_compute. reflexivity.
Defined.

(** X4. The predecessors that [dijkstra] returns agree with its distances,
    whatever the weights: [anterior[v] = u] comes with an edge from [u] to
    [v] of some weight [c] and [distancias[v] = distancias[u] + c]; and a
    key has no predecessor exactly when it is the source or its distance is
    infinite. *)
Theorem predecesores_coherentes {Q : Type} `{!Heapq Q, !HeapqLeyes Q}
    (grafo : gmap nodo (list (nodo * Z))) (inicio : nodo) (fin : option nodo)
    (mostrar_pasos : bool) (dist : gmap nodo distancia)
    (ant : gmap nodo (option nodo)) :
  dijkstra (Q := Q) grafo inicio fin mostrar_pasos = Devuelve dist ant →
  (∀ v u, ant !! v = Some (Some u) →
     ∃ du c, dist !! u = Some (Finita du) ∧ arista grafo u v c ∧
             dist !! v = Some (Finita (du + c))) ∧
  (∀ v, v ∈ dom grafo →
     ant !! v = Some None ↔ v = inicio ∨ dist !! v = Some Infinita).
Proof.
  intros (st & -> & -> & Hinv & Hant)%dijkstra_devuelve_ant.
  split; [apply (ia_arista _ _ _ Hant)|].
  intros v Hv.
  assert (is_Some (anterior st !! v)) as [a Ha].
  { apply elem_of_dom. by rewrite (ib_dom_ant _ _ _ Hinv). }
  assert (is_Some (distancias st !! v)) as [x Hx].
  { apply elem_of_dom. rewrite (ib_dom_dist _ _ _ Hinv). set_solver. }
  split.
  - intros Hnone. destruct (decide (v = inicio)) as [|Hne]; [by left|right].
    destruct x as [d|]; [|done].
    destruct (ia_raiz _ _ _ Hant _ _ Hx Hne) as (u & Hu). congruence.
  - intros Hcase. destruct a as [u|]; [|done].
    destruct (ib_ant _ _ _ Hinv _ _ Ha) as (_ & _ & Hne & d & Hd).
    destruct Hcase as [->|Hinf]; [done|congruence].
Qed.

Lemma predecesores_coherentes_ejemplo :
  (∀ v u, anterior_ejemplo !! v = Some (Some u) →
     ∃ du c, distancias_ejemplo !! u = Some (Finita du) ∧
             arista grafo_ejemplo u v c ∧
             distancias_ejemplo !! v = Some (Finita (du + c))) ∧
  (∀ v, v ∈ dom grafo_ejemplo →
     anterior_ejemplo !! v = Some None ↔
     v = "A" ∨ distancias_ejemplo !! v = Some Infinita).
Proof.
  apply (predecesores_coherentes (Q := list (Z * nodo)) grafo_ejemplo "A"
           (Some "D") true).
  vm_compute. reflexivity.
Defined.

(** X5. Whatever the map of predecessors, when [reconstruir_camino] returns
    a list, the links from [fin] end at a node [r] without predecessor:
    [l] lists the nodes from [fin] to [r]. If [r] is not [inicio] the list
    returned is empty. If [r] is [inicio] the list returned is [l] reversed:
    it starts at [inicio], ends at [fin], has no node twice, and each of its
    nodes is the predecessor of the next one. *)
Theorem reconstruir_camino_forma (ant : gmap nodo (option nodo))
    (inicio fin : nodo) (k : nat) (camino : list nodo) :
  reconstruir_camino k ant inicio fin = Some (inl camino) →
  ∃ l r, cadena ant fin l None ∧ last l = Some r ∧ ant !! r = Some None ∧
    ((r ≠ inicio ∧ camino = []) ∨
     (r = inicio ∧ camino = reverse l ∧
      head camino = Some inicio ∧ last camino = Some fin ∧
      ant !! inicio = Some None ∧ enlazado ant camino ∧ NoDup camino)).
Proof.
  intros Hrec.
  pose proof Hrec as (l & e & Hl & _ & Hseg)%reconstruir_camino_cadena.
  unfold reconstruir_camino in Hrec. rewrite Hseg in Hrec.
  destruct e as [x|]; [done|]. simpl in Hrec.
  destruct (cadena_inversa _ _ _ _ Hl eq_refl)
    as (r & Hr & Hant & Hlast & Henl).
  assert (last l = Some r) as Hfin by (by rewrite <- head_reverse).
  exists l, r. split_and!; [done..|].
  destruct (reverse l) as [|r' resto] eqn:Hrev; [done|].
  simpl in Hr. injection Hr as ->.
  destruct (decide (r = inicio)) as [->|Hne]; injection Hrec as <-.
  - right. split_and!; try done.
    rewrite <- Hrev, reverse_Permutation. by eapply cadena_NoDup.
  - by left.
Qed.

Lemma reconstruir_camino_forma_ejemplo :
  ∃ l r, cadena anterior_ejemplo "D" l None ∧ last l = Some r ∧
    anterior_ejemplo !! r = Some None ∧
    ((r ≠ "A" ∧ ["A"; "C"; "D"] = []) ∨
     (r = "A" ∧ ["A"; "C"; "D"] = reverse l ∧
      head ["A"; "C"; "D"] = Some "A" ∧ last ["A"; "C"; "D"] = Some "D" ∧
      anterior_ejemplo !! "A" = Some None ∧
      enlazado anterior_ejemplo ["A"; "C"; "D"] ∧ NoDup ["A"; "C"; "D"])).
Proof.
  apply (reconstruir_camino_forma anterior_ejemplo "A" "D" 3).
  vm_compute. reflexivity.
Defined.

(** The description leaves one list only; with the links [B -> A], [A]
    without predecessor, the list from [A] to [B] is [[A; B]] and no
    other. *)
Lemma forma_unica_del_camino (ant : gmap nodo (option nodo))
    (inicio fin : nodo) (c1 c2 : list nodo) :
  (∃ l r, cadena ant fin l None ∧ last l = Some r ∧ ant !! r = Some None ∧
     ((r ≠ inicio ∧ c1 = []) ∨
      (r = inicio ∧ c1 = reverse l ∧
       head c1 = Some inicio ∧ last c1 = Some fin ∧
       ant !! inicio = Some None ∧ enlazado ant c1 ∧ NoDup c1))) →
  (∃ l r, cadena ant fin l None ∧ last l = Some r ∧ ant !! r = Some None ∧
     ((r ≠ inicio ∧ c2 = []) ∨
      (r = inicio ∧ c2 = reverse l ∧
       head c2 = Some inicio ∧ last c2 = Some fin ∧
       ant !! inicio = Some None ∧ enlazado ant c2 ∧ NoDup c2))) →
  c1 = c2.
Proof.
  intros (l1 & r1 & Hc1 & Hl1 & _ & H1) (l2 & r2 & Hc2 & Hl2 & _ & H2).
  destruct (cadena_fun _ _ _ _ _ _ Hc1 Hc2) as [-> _].
  rewrite Hl1 in Hl2. injection Hl2 as <-.
  destruct H1 as [[Hne ->]|(Hr1 & -> & _)], H2 as [[Hne2 ->]|(Hr2 & -> & _)];
    done.
Qed.

Lemma camino_de_dos_nodos :
  reconstruir_camino 2 (<["A" := None]> (<["B" := Some "A"]> ∅)) "A" "B"
  = Some (inl ["A"; "B"]) ∧
  ¬ ∃ l r, cadena (<["A" := None]> (<["B" := Some "A"]> ∅)) "B" l None ∧
      last l = Some r ∧
      (<["A" := None]> (<["B" := Some "A"]> ∅) : gmap nodo (option nodo)) !! r
      = Some None ∧
      ((r ≠ "A" ∧ @nil nodo = []) ∨
       (r = "A" ∧ [] = reverse l ∧
        head (@nil nodo) = Some "A" ∧ last (@nil nodo) = Some "B" ∧
        (<["A" := None]> (<["B" := Some "A"]> ∅) : gmap nodo (option nodo))
          !! "A" = Some None ∧
        enlazado (<["A" := None]> (<["B" := Some "A"]> ∅)) [] ∧
        NoDup (@nil nodo))).
Proof.
  split; [vm_compute; reflexivity|].
  intros (l & r & Hl & Hlast & _ & [[Hne _]|(_ & _ & Hhead & _)]); [|done].
  assert (cadena (<["A" := None]> (<["B" := Some "A"]> ∅)) "B" ["B"; "A"] None)
    as Hc.
  { apply cadena_sig with "A"; [vm_compute; reflexivity|].
    apply cadena_fin. vm_compute. reflexivity. }
  destruct (cadena_fun _ _ _ _ _ _ Hl Hc) as [-> _].
  simpl in Hlast. by injection Hlast as <-.
Qed.

(** X6. Whatever the map of predecessors, [reconstruir_camino] raises the
    [KeyError] of [fin] when [fin] is not a key; an exception it raises is
    the [KeyError] of a node that is not a key and is [fin] or the
    predecessor of a key; and it raises nothing when [fin] is a key and
    every predecessor in the map is a key. *)
Theorem reconstruir_camino_errores (ant : gmap nodo (option nodo))
    (inicio fin : nodo) (k : nat) :
  (ant !! fin = None →
   reconstruir_camino (S k) ant inicio fin = Some (inr (KeyError fin))) ∧
  (∀ e, reconstruir_camino k ant inicio fin = Some (inr e) →
        ∃ z, e = KeyError z ∧ ant !! z = None ∧
             (z = fin ∨ ∃ v, ant !! v = Some (Some z))) ∧
  ((∀ v u, ant !! v = Some (Some u) → u ∈ dom ant) → fin ∈ dom ant →
   ∀ e, reconstruir_camino k ant inicio fin ≠ Some (inr e)).
Proof.
  assert (∀ e, reconstruir_camino k ant inicio fin = Some (inr e) →
               ∃ z, e = KeyError z ∧ ant !! z = None ∧
                    (z = fin ∨ ∃ v, ant !! v = Some (Some z))) as Herr.
  { intros e Hrec.
    pose proof Hrec as (l & e' & Hl & _ & Hseg)%reconstruir_camino_cadena.
    unfold reconstruir_camino in Hrec. rewrite Hseg in Hrec.
    destruct e' as [[z]|]; simpl in Hrec.
    - injection Hrec as <-. exists z. split; [done|].
      by eapply cadena_error_clave.
    - by repeat case_match. }
  split_and!; [|done|].
  - intros Hfin. unfold reconstruir_camino. simpl. by rewrite Hfin.
  - intros Hcer Hfin e (z & -> & Hz & [->|(v & Hv)])%Herr.
    + by apply not_elem_of_dom in Hz.
    + apply Hcer in Hv. by apply not_elem_of_dom in Hz.
Qed.

Lemma reconstruir_camino_errores_ejemplo :
  reconstruir_camino 1 anterior_ejemplo "A" "Z" = Some (inr (KeyError "Z")) ∧
  ∀ e, reconstruir_camino 9 anterior_ejemplo "A" "D" ≠ Some (inr e).
Proof.
  destruct (reconstruir_camino_errores anterior_ejemplo "A" "Z" 0)
    as (H1 & _ & _).
  destruct (reconstruir_camino_errores anterior_ejemplo "A" "D" 9)
    as (_ & _ & H3).
  split.
  - apply H1. vm_compute. reflexivity.
  - apply H3.
    + intros v u Hvu.
      assert (u ∈ ["A"; "C"]) as Hu.
      { unfold anterior_ejemplo in Hvu.
        repeat (apply lookup_insert_Some in Hvu as [[_ Hvu]|[_ Hvu]];
                [simplify_eq; set_solver|]).
        by rewrite lookup_empty in Hvu. }
      apply elem_of_cons in Hu as [->|Hu]; [vm_compute; eauto|].
      apply list_elem_of_singleton in Hu as ->. vm_compute. eauto.
    + vm_compute. eauto.
Defined.

(** X7. Whatever the map of predecessors, the loop of [reconstruir_camino]
    that ends at all ends within as many steps as the map has keys, plus
    one: with that fuel (the one of [reconstruir]) or more the result is
    the same, and with no result at that fuel there is none at any fuel. *)
Theorem reconstruir_camino_combustible (ant : gmap nodo (option nodo))
    (inicio fin : nodo) :
  (∀ k r, reconstruir_camino k ant inicio fin = Some r →
     ∀ k', (S (size ant) ≤ k')%nat →
           reconstruir_camino k' ant inicio fin = Some r) ∧
  (reconstruir ant inicio fin = None →
   ∀ k, reconstruir_camino k ant inicio fin = None).
Proof.
  split.
  - intros k r Hk k' Hk'. by eapply reconstruir_camino_suficiente.
  - intros Hnone k.
    destruct (reconstruir_camino k ant inicio fin) as [r|] eqn:Hk; [|done].
    apply (reconstruir_camino_suficiente _ (S (size ant))) in Hk; [|done].
    unfold reconstruir in Hnone. congruence.
Qed.

Lemma reconstruir_camino_combustible_ejemplo :
  (∀ k', (5 ≤ k')%nat →
     reconstruir_camino k' anterior_ejemplo "A" "D"
     = Some (inl ["A"; "C"; "D"])) ∧
  (∀ k, reconstruir_camino k anterior_ciclico "A" "B" = None).
Proof.
  destruct (reconstruir_camino_combustible anterior_ejemplo "A" "D")
    as [H1 _].
  destruct (reconstruir_camino_combustible anterior_ciclico "A" "B")
    as [_ H2].
  split.
  - intros k' Hk'. apply (H1 3%nat); [vm_compute; reflexivity|].
    assert (size anterior_ejemplo = 4%nat) as -> by (vm_compute; reflexivity).
    exact Hk'.
  - apply H2. vm_compute. reflexivity.
Defined.

(** X8. The list that [reconstruir_camino] makes of the maps that
    [dijkstra] returns is a path of the graph, whatever the weights: for a
    key [t] with a finite distance it is the source followed by the nodes of
    a path from the source to [t] whose weight is [distancias[t]]. *)
Theorem camino_reconstruido_real {Q : Type} `{!Heapq Q, !HeapqLeyes Q}
    (grafo : gmap nodo (list (nodo * Z))) (inicio : nodo) (fin : option nodo)
    (mostrar_pasos : bool) (dist : gmap nodo distancia)
    (ant : gmap nodo (option nodo)) (t : nodo) (d : Z) :
  dijkstra (Q := Q) grafo inicio fin mostrar_pasos = Devuelve dist ant →
  t ∈ dom grafo → dist !! t = Some (Finita d) →
  ∃ p, es_camino grafo inicio p t ∧ peso_camino p = d ∧
       reconstruir ant inicio t = Some (inl (inicio :: p.*1)) ∧
       ∀ k, (S (length p) ≤ k)%nat →
            reconstruir_camino k ant inicio t = Some (inl (inicio :: p.*1)).
Proof. apply dijkstra_camino. Qed.

Lemma camino_reconstruido_real_ejemplo :
  ∃ p, es_camino grafo_ejemplo "A" p "D" ∧ peso_camino p = 5 ∧
       reconstruir anterior_ejemplo "A" "D" = Some (inl ("A" :: p.*1)) ∧
       ∀ k, (S (length p) ≤ k)%nat →
            reconstruir_camino k anterior_ejemplo "A" "D"
            = Some (inl ("A" :: p.*1)).
Proof.
  apply (camino_reconstruido_real (Q := list (Z * nodo)) grafo_ejemplo "A"
           (Some "D") true distancias_ejemplo).
  - vm_compute. reflexivity.
  - vm_compute. eauto.
  - vm_compute. reflexivity.
Defined.

(** X9. With weights that are not negative, the route rebuilt for the
    destination of the call (or for any node, when the call had no
    destination) is a shortest one: when that node is a key and is
    reachable, [reconstruir_camino] returns the nodes of a path from the
    source whose weight is the distance returned and is the least among the
    paths to that node. *)
Theorem camino_reconstruido_minimo {Q : Type} `{!Heapq Q, !HeapqLeyes Q}
    (grafo : gmap nodo (list (nodo * Z))) (inicio : nodo) (fin : option nodo)
    (mostrar_pasos : bool) (dist : gmap nodo distancia)
    (ant : gmap nodo (option nodo)) (t : nodo) :
  pesos_no_negativos grafo →
  fin = None ∨ fin = Some t →
  dijkstra (Q := Q) grafo inicio fin mostrar_pasos = Devuelve dist ant →
  t ∈ dom grafo → alcanzable grafo inicio t →
  ∃ p, reconstruir ant inicio t = Some (inl (inicio :: p.*1)) ∧
       es_camino grafo inicio p t ∧
       dist !! t = Some (Finita (peso_camino p)) ∧
       ∀ p', es_camino grafo inicio p' t → peso_camino p ≤ peso_camino p'.
Proof.
  intros Hpos Hfin Hrun Hdom Hreach.
  assert (∃ d, dist !! t = Some (Finita d) ∧
               ∀ w, camino_de grafo inicio t w → d ≤ w) as (d & Hd & Hmin).
  { destruct Hfin as [->| ->].
    - destruct (dijkstra_minimo _ _ _ _ _ _ Hpos Hrun Hreach)
        as (d & ? & _ & ?). eauto.
    - destruct (dijkstra_minimo_destino _ _ _ _ _ _ Hpos Hrun Hreach)
        as (d & ? & _ & ?). eauto. }
  destruct (dijkstra_camino _ _ _ _ _ _ _ _ Hrun Hdom Hd)
    as (p & Hp & <- & Hrec & _).
  exists p. split_and!; try done.
  intros p' Hp'. apply Hmin, camino_de_es_camino. eauto.
Qed.

Lemma camino_reconstruido_minimo_ejemplo :
  ∃ p, reconstruir anterior_ejemplo "A" "D" = Some (inl ("A" :: p.*1)) ∧
       es_camino grafo_ejemplo "A" p "D" ∧
       distancias_ejemplo !! "D" = Some (Finita (peso_camino p)) ∧
       ∀ p', es_camino grafo_ejemplo "A" p' "D" →
             peso_camino p ≤ peso_camino p'.
Proof.
  apply (camino_reconstruido_minimo (Q := list (Z * nodo)) grafo_ejemplo "A"
           (Some "D") true).
  - apply comprobar_pesos_correcto. vm_compute. reflexivity.
  - by right.
  - vm_compute. reflexivity.
  - vm_compute. eauto.
  - exists [("C", 2); ("D", 3)]. simpl. split_and!; [| |reflexivity].
    + eexists. split; [vm_compute; reflexivity|]. set_solver.
    + eexists. split; [vm_compute; reflexivity|]. set_solver.
Defined.

(** X10. For the maps that [dijkstra] returns and a key [t] of the graph,
    whatever the weights: [reconstruir_camino] returns the empty list
    exactly when the distance of [t] is infinite. *)
Theorem camino_vacio_sii_infinito {Q : Type} `{!Heapq Q, !HeapqLeyes Q}
    (grafo : gmap nodo (list (nodo * Z))) (inicio : nodo) (fin : option nodo)
    (mostrar_pasos : bool) (dist : gmap nodo distancia)
    (ant : gmap nodo (option nodo)) (t : nodo) :
  dijkstra (Q := Q) grafo inicio fin mostrar_pasos = Devuelve dist ant →
  t ∈ dom grafo →
  reconstruir ant inicio t = Some (inl []) ↔ dist !! t = Some Infinita.
Proof. apply dijkstra_camino_vacio. Qed.

Lemma camino_vacio_sii_infinito_ejemplo :
  reconstruir (<["A" := None]> (<["B" := None]> ∅)) "A" "B" = Some (inl []) ↔
  (<["A" := Finita 0]> (<["B" := Infinita]> ∅) : gmap nodo distancia) !! "B"
  = Some Infinita.
Proof.
  apply (camino_vacio_sii_infinito (Q := list (Z * nodo)) grafo_desconectado
           "A" (Some "B") true).
  - vm_compute. reflexivity.
  - vm_compute. eauto.
Defined.

(** X11. What [dibujar_grafo] highlights for a route rebuilt from the maps
    of [dijkstra]: the node list is the route, every pair of the edge list
    [zip(camino[:-1], camino[1:])] is an edge that was added to [G], and
    every node of the route is a node of [G]. Nothing is highlighted only
    when the route is empty or is the source alone. *)
Theorem ruta_resaltada {Q : Type} `{!Heapq Q, !HeapqLeyes Q}
    (grafo : gmap nodo (list (nodo * Z))) (inicio : nodo) (fin : option nodo)
    (mostrar_pasos : bool) (dist : gmap nodo distancia)
    (ant : gmap nodo (option nodo)) (t : nodo) (camino : list nodo) :
  dijkstra (Q := Q) grafo inicio fin mostrar_pasos = Devuelve dist ant →
  reconstruir ant inicio t = Some (inl camino) →
  match resaltado (dibujar_grafo grafo (Some camino)) with
  | Some (pares, nodos) =>
      nodos = camino ∧
      (∀ a b, (a, b) ∈ pares →
              ∃ c, (a, b, c) ∈ aristas_G (dibujar_grafo grafo (Some camino))) ∧
      (∀ n, n ∈ nodos → n ∈ nodos_de_G grafo)
  | None => camino = [] ∨ camino = [inicio]
  end.
Proof.
  intros Hrun Hrec.
  pose proof Hrun as (st & _ & Hdist & Hant & Hinv)%dijkstra_devuelve.
  assert (t ∈ dom grafo) as Hdom.
  { rewrite <- (ib_dom_ant _ _ _ Hinv), <- Hant.
    by eapply reconstruir_clave. }
  assert (is_Some (dist !! t)) as [[d|] Hd].
  { apply elem_of_dom. rewrite Hdist, (ib_dom_dist _ _ _ Hinv). set_solver. }
  - destruct (dijkstra_camino _ _ _ _ _ _ _ _ Hrun Hdom Hd)
      as (p & Hp & _ & Hrec' & _).
    rewrite Hrec in Hrec'. injection Hrec' as ->.
    destruct p as [|[x c] p]; [by right|].
    cbn [dibujar_grafo resaltado fmap list_fmap fst].
    rewrite decide_True by (simpl; lia).
    split_and!; [done| |].
    + intros a b Hab. cbn [aristas_G].
      destruct (es_camino_aristas _ _ _ _ Hp a b Hab) as (w & Hw).
      exists w. by apply elem_of_aristas_de_G.
    + intros n Hn. apply elem_of_nodos_de_G.
      by apply (es_camino_nodos _ _ _ _ Hp).
  - apply (dijkstra_camino_vacio _ _ _ _ _ _ _ Hrun Hdom) in Hd.
    rewrite Hrec in Hd. injection Hd as ->. by left.
Qed.

Lemma ruta_resaltada_ejemplo :
  match resaltado (dibujar_grafo grafo_ejemplo (Some ["A"; "C"; "D"])) with
  | Some (pares, nodos) =>
      nodos = ["A"; "C"; "D"] ∧
      (∀ a b, (a, b) ∈ pares →
              ∃ c, (a, b, c) ∈ aristas_G (dibujar_grafo grafo_ejemplo
                                            (Some ["A"; "C"; "D"]))) ∧
      (∀ n, n ∈ nodos → n ∈ nodos_de_G grafo_ejemplo)
  | None => ["A"; "C"; "D"] = [] ∨ ["A"; "C"; "D"] = ["A"]
  end.
Proof.
  apply (ruta_resaltada (Q := list (Z * nodo)) grafo_ejemplo "A" (Some "D")
           true distancias_ejemplo anterior_ejemplo "D").
  - vm_compute. reflexivity.
  - vm_compute. reflexivity.
Defined.

Lemma principal_completo_casos {Q : Type} `{!Heapq Q, !HeapqLeyes Q}
    grafo inicio fin :
  cerrado grafo → inicio ∈ dom grafo → fin ∈ dom grafo →
  ∃ dist ant,
    dijkstra (Q := Q) grafo inicio (Some fin) true = Devuelve dist ant ∧
    ((∃ p, dist !! fin = Some (Finita (peso_camino p)) ∧
           es_camino grafo inicio p fin ∧
           principal_completo (Q := Q) grafo inicio fin
           = CaminoMasCorto dist (inicio :: p.*1) (Finita (peso_camino p))
               (dibujar_grafo grafo (Some (inicio :: p.*1)))) ∨
     (dist !! fin = Some Infinita ∧
      principal_completo (Q := Q) grafo inicio fin
      = NoExisteCamino dist (dibujar_grafo grafo (Some [])))).
Proof.
  intros Hcer Hini Hfin.
  destruct (dijkstra_completa grafo inicio (Some fin) true Hcer Hini)
    as (dist & ant & Hrun).
  exists dist, ant. split; [done|].
  pose proof Hrun as (st & _ & Hdist & _ & Hinv)%dijkstra_devuelve.
  assert (is_Some (dist !! fin)) as [[d|] Hd].
  { apply elem_of_dom. rewrite Hdist, (ib_dom_dist _ _ _ Hinv). set_solver. }
  - left.
    destruct (dijkstra_camino _ _ _ _ _ _ _ _ Hrun Hfin Hd)
      as (p & Hp & <- & Hrec & _).
    exists p. split_and!; [done..|].
    unfold principal_completo. rewrite decide_False by (by intros [?|?]).
    by rewrite Hrun, Hrec, Hd.
  - right. split; [done|].
    pose proof (proj2 (dijkstra_camino_vacio _ _ _ _ _ _ _ Hrun Hfin) Hd)
      as Hrec.
    unfold principal_completo. rewrite decide_False by (by intros [?|?]).
    by rewrite Hrun, Hrec.
Qed.

(** X12. The whole of [__main__], on any graph in which every neighbour is
    a key and no weight is negative: it never raises; it prints the error
    line exactly when one of the two nodes is not a key; for a reachable
    destination it prints the distances, a shortest path from the source to
    the destination and its weight as total distance, and draws that route;
    for a destination that is not reachable it prints that there is no
    path, with an infinite distance, and draws no route. *)
Theorem principal_completo_informe {Q : Type} `{!Heapq Q, !HeapqLeyes Q}
    (grafo : gmap nodo (list (nodo * Z))) (inicio fin : nodo) :
  cerrado grafo → pesos_no_negativos grafo →
  (principal_completo (Q := Q) grafo inicio fin = NodoInexistente ↔
   inicio ∉ dom grafo ∨ fin ∉ dom grafo) ∧
  (inicio ∈ dom grafo → fin ∈ dom grafo → alcanzable grafo inicio fin →
   ∃ dist p,
     principal_completo (Q := Q) grafo inicio fin
     = CaminoMasCorto dist (inicio :: p.*1) (Finita (peso_camino p))
         (dibujar_grafo grafo (Some (inicio :: p.*1))) ∧
     dist !! fin = Some (Finita (peso_camino p)) ∧
     es_camino grafo inicio p fin ∧
     ∀ p', es_camino grafo inicio p' fin → peso_camino p ≤ peso_camino p') ∧
  (inicio ∈ dom grafo → fin ∈ dom grafo → ¬ alcanzable grafo inicio fin →
   ∃ dist,
     principal_completo (Q := Q) grafo inicio fin
     = NoExisteCamino dist (dibujar_grafo grafo (Some [])) ∧
     dist !! fin = Some Infinita ∧
     resaltado (dibujar_grafo grafo (Some [])) = None).
Proof.
  intros Hcer Hpos. split_and!.
  - split.
    + intros Hp.
      destruct (decide (inicio ∉ dom grafo ∨ fin ∉ dom grafo)) as [|Hno];
        [done|].
      assert (inicio ∈ dom grafo) as Hini.
      { destruct (decide (inicio ∈ dom grafo)); [done|]. exfalso; auto. }
      assert (fin ∈ dom grafo) as Hfin.
      { destruct (decide (fin ∈ dom grafo)); [done|]. exfalso; auto. }
      destruct (principal_completo_casos (Q := Q) _ _ _ Hcer Hini Hfin)
        as (dist & ant & _ & [(p & _ & _ & Heq)|[_ Heq]]); congruence.
    + intros Hno. unfold principal_completo. by rewrite decide_True.
  - intros Hini Hfin Hreach.
    destruct (principal_completo_casos (Q := Q) _ _ _ Hcer Hini Hfin)
      as (dist & ant & Hrun & Hcasos).
    destruct (dijkstra_minimo_destino _ _ _ _ _ _ Hpos Hrun Hreach)
      as (d & Hd & _ & Hmin).
    destruct Hcasos as [(p & Hdp & Hp & Heq)|[Hinf _]]; [|congruence].
    exists dist, p. split_and!; try done.
    intros p' Hp'. rewrite Hd in Hdp. injection Hdp as ->.
    apply Hmin, camino_de_es_camino. eauto.
  - intros Hini Hfin Hno.
    destruct (principal_completo_casos (Q := Q) _ _ _ Hcer Hini Hfin)
      as (dist & ant & Hrun & [(p & _ & Hp & _)|[Hinf Heq]]).
    + exfalso. apply Hno. by exists p.
    + by exists dist.
Qed.

Lemma principal_completo_informe_ejemplo :
  (principal_completo (Q := list (Z * nodo)) grafo_ejemplo "A" "Z"
   = NodoInexistente) ∧
  (∃ dist p,
     principal_completo (Q := list (Z * nodo)) grafo_ejemplo "A" "D"
     = CaminoMasCorto dist ("A" :: p.*1) (Finita (peso_camino p))
         (dibujar_grafo grafo_ejemplo (Some ("A" :: p.*1))) ∧
     dist !! "D" = Some (Finita (peso_camino p)) ∧
     es_camino grafo_ejemplo "A" p "D" ∧
     ∀ p', es_camino grafo_ejemplo "A" p' "D" →
           peso_camino p ≤ peso_camino p').
Proof.
  assert (cerrado grafo_ejemplo) as Hcer.
  { apply comprobar_cerrado_correcto. vm_compute. reflexivity. }
  assert (pesos_no_negativos grafo_ejemplo) as Hpos.
  { apply comprobar_pesos_correcto. vm_compute. reflexivity. }
  destruct (principal_completo_informe (Q := list (Z * nodo))
              grafo_ejemplo "A" "Z" Hcer Hpos) as (H1 & _).
  destruct (principal_completo_informe (Q := list (Z * nodo))
              grafo_ejemplo "A" "D" Hcer Hpos) as (_ & H2 & _).
  split.
  - apply H1. right. vm_compute. intros H. discriminate H.
  - apply H2.
    + vm_compute. eauto.
    + vm_compute. eauto.
    + exists [("C", 2); ("D", 3)]. simpl. split_and!; [| |reflexivity].
      * eexists. split; [vm_compute; reflexivity|]. set_solver.
      * eexists. split; [vm_compute; reflexivity|]. set_solver.
Defined.

(** X13. With [mostrar_pasos], whatever the graph, the source and the
    destination, the first thing printed is step 0: the source, selected
    with distance 0, and the initial distances (0 at the source, infinite
    at every key). *)
Theorem primer_paso_impreso {Q : Type} `{!Heapq Q, !HeapqLeyes Q}
    (grafo : gmap nodo (list (nodo * Z))) (inicio : nodo)
    (fin : option nodo) :
  ∃ resto,
    impreso (Q := Q) grafo inicio fin true
    = ImprimePaso 0 inicio 0
        (<[inicio := Finita 0]> ((λ _, Infinita) <$> grafo)) :: resto.
Proof.
  destruct (ejecutar_termina (Q := Q) grafo inicio fin true) as [[r st] Hej].
  unfold impreso. rewrite Hej.
  unfold ejecutar, combustible_dijkstra in Hej.
  destruct (iteracion_inicial (Q := Q) grafo inicio fin)
    as (f & st1 & Hit & Hpre).
  change (match iteracion grafo fin true (estado_inicial grafo inicio) with
          | None => Some (None, estado_inicial grafo inicio)
          | Some (Continua, st') => bucle (S (aristas grafo)) grafo fin true st'
          | Some (Corta, st') => Some (None, st')
          | Some (Falla e, st') => Some (Some e, st')
          end = Some (r, st)) in Hej.
  rewrite Hit in Hej.
  assert (salida st1 `prefix_of` salida st) as Hpre'.
  { destruct f as [| |e].
    - exact (bucle_salida _ _ _ _ _ _ _ Hej).
    - by injection Hej as _ <-.
    - by injection Hej as _ <-. }
  destruct (transitivity Hpre Hpre') as [resto ->]. by exists resto.
Qed.

Lemma primer_paso_impreso_ejemplo :
  ∃ resto,
    impreso (Q := list (Z * nodo)) grafo_ejemplo "A" (Some "D") true
    = ImprimePaso 0 "A" 0
        (<["A" := Finita 0]> ((λ _, Infinita) <$> grafo_ejemplo)) :: resto.
Proof.
  exact (primer_paso_impreso (Q := list (Z * nodo)) grafo_ejemplo "A"
           (Some "D")).
Defined.

(** X14. The edge list that [dibujar_grafo] builds from a route with
    [zip(camino[:-1], camino[1:])] has one pair less than the route has
    nodes, and its pairs are the consecutive nodes of the route, in order;
    a route is highlighted exactly when it has two nodes or more. *)
Theorem aristas_camino_consecutivas (grafo : gmap nodo (list (nodo * Z)))
    (camino : list nodo) :
  length (aristas_camino camino) = pred (length camino) ∧
  (∀ i a b, aristas_camino camino !! i = Some (a, b) ↔
            camino !! i = Some a ∧ camino !! S i = Some b) ∧
  (resaltado (dibujar_grafo grafo (Some camino))
   = if decide (2 ≤ length camino)%nat
     then Some (aristas_camino camino, camino) else None).
Proof.
  split_and!.
  - induction camino as [|a l IH]; [done|]. destruct l as [|b resto]; [done|].
    rewrite aristas_camino_cons. simpl in *. by rewrite IH.
  - induction camino as [|a l IH]; intros i x y.
    + rewrite !lookup_nil. by split; [|intros []].
    + destruct l as [|b resto].
      * change (aristas_camino [a]) with (@nil (nodo * nodo)).
        rewrite lookup_nil. split; [done|]. by intros [_ ?].
      * rewrite aristas_camino_cons. destruct i as [|i].
        -- simpl. split; [by intros [= -> ->]|by intros [[= ->] [= ->]]].
        -- simpl. rewrite IH. done.
  - by destruct camino as [|a [|b resto]].
Qed.
